(** * Workflow execution engine of cybersage: a shallow embedding

    Source: [src/core-services/workflow-engine-svc/workflow_engine.py]
    (classes [WorkflowStep] and [SecurityWorkflow]), together with the two
    collaborators it is constructed with,
    [src/services/logging_service.py] ([LoggingService.log_audit_event]) and
    [src/core/context_manager.py] ([ContextManager.create_context],
    [ContextManager.update_context]).

    Modelling decisions.
    - The engine is effectful Python: it mutates the workflow object and
      calls tools, condition predicates, cleanup hooks, the audit sink, the
      context store, [asyncio.sleep] and the module logger.  It is embedded
      in a state-and-exception monad [M] over a [World]: the workflow object
      and a trace.  Every call that leaves the engine, and every assignment
      to a step's [status], adds one entry to the trace; the entry holds the
      workflow object as it was at that moment.
    - What a collaborator answers is not the engine's business: a tool, a
      condition, a cleanup hook, the audit logger and the context store are
      functions of the logical time of the call (the number of entries
      already in the trace).  Quantifying over these functions covers every
      behaviour a collaborator can show in a run.
    - [datetime.utcnow()] reads the same logical clock.
    - A workflow lists distinct step objects; [steps] is a list of records
      updated by position.
    - A condition predicate is typed [Callable[..., bool]]: a call answers
      with the truth value of what it returns, or with the exception it
      raises.
    - Exceptions are the subclasses of [Exception].  A [BaseException] that
      is not one ([asyncio.CancelledError], [KeyboardInterrupt]) passes every
      [except Exception] of the engine; runs in which a collaborator raises
      such an exception, and runs in which another task calls into the
      workflow object while [execute] is suspended at an [await], are outside
      this model. *)

From Stdlib Require Import ZArith String DecimalString Sorted.
From stdpp Require Import base gmap strings list.

Local Open Scope Z_scope.

(** ** Enumerations *)

Module WorkflowStatus.
Inductive t := PENDING | RUNNING | COMPLETED | FAILED | CANCELLED | PAUSED.
Definition value (s : t) : string :=
  match s with
  | PENDING => "pending" | RUNNING => "running" | COMPLETED => "completed"
  | FAILED => "failed" | CANCELLED => "cancelled" | PAUSED => "paused"
  end.
#[global] Instance eq_dec : EqDecision t.
Proof. solve_decision. Defined.
End WorkflowStatus.

Module WorkflowStepStatus.
Inductive t := PENDING | RUNNING | COMPLETED | FAILED | SKIPPED.
Definition value (s : t) : string :=
  match s with
  | PENDING => "pending" | RUNNING => "running" | COMPLETED => "completed"
  | FAILED => "failed" | SKIPPED => "skipped"
  end.
#[global] Instance eq_dec : EqDecision t.
Proof. solve_decision. Defined.
End WorkflowStepStatus.

Module SecurityLevel.
Inductive t := LOW | MEDIUM | HIGH | CRITICAL.
Definition value (s : t) : string :=
  match s with
  | LOW => "low" | MEDIUM => "medium" | HIGH => "high" | CRITICAL => "critical"
  end.
End SecurityLevel.

(** ** Exceptions

    Every class below derives from [Exception], so [except Exception]
    catches all of them; [str] is Python's [str(e)].  A [BaseException]
    that is not an [Exception] has no class here: what is stated of a run
    is stated of the runs in which no such exception is raised. *)

Inductive ExnClass :=
| TimeoutError      (* asyncio.TimeoutError *)
| WorkflowError
| LoggingError
| ContextError
| IndexError
| OtherError.       (* any other subclass of Exception *)

#[global] Instance ExnClass_eq_dec : EqDecision ExnClass.
Proof. solve_decision. Defined.

Record Exn := mkExn { exn_class : ExnClass; str : string }.

(** ** Values and callables *)

Definition Time := nat.
Definition Params := list (string * string).
Definition Result := list (string * string).

(** [asyncio.wait_for] around the tool's [execute] started at logical
    time [t]: the result, or the exception that reaches the caller
    ([TimeoutError] when the deadline passes). *)
Definition BaseTool := nat -> Params -> Exn + Result.
(** A condition predicate called at logical time [t]: the truth value of
    what [cond()] returns, or the exception it raises. *)
Definition Condition := nat -> Exn + bool.
(** A cleanup hook: [None] when it returns, [Some e] when it raises [e]. *)
Definition Cleanup := nat -> option Exn.

Definition str_int (z : Z) : string := NilZero.string_of_int (Z.to_int z).
Definition str_nat (n : nat) : string := str_int (Z.of_nat n).
(** How an f-string renders an [Optional[str]]. *)
Definition str_opt (o : option string) : string :=
  match o with Some s => s | None => "None" end.

(** ** WorkflowStep *)

Module WorkflowStep.
Record t := mk {
  name : string;
  tool : BaseTool;
  params : Params;
  conditions : list Condition;
  retry_count : Z;
  timeout : Z;
  cleanup : option Cleanup;
  status : WorkflowStepStatus.t;
  result : option Result;
  error : option string;
  start_time : option Time;
  end_time : option Time
}.

(** [WorkflowStep.__init__]; [conditions or []] is the list itself. *)
Definition init (name : string) (tool : BaseTool) (params : Params)
    (conditions : list Condition) (retry_count timeout : Z)
    (cleanup : option Cleanup) : t :=
  mk name tool params conditions retry_count timeout cleanup
     WorkflowStepStatus.PENDING None None None None.

Definition set_status (v : WorkflowStepStatus.t) (s : t) : t :=
  mk (name s) (tool s) (params s) (conditions s) (retry_count s) (timeout s)
     (cleanup s) v (result s) (error s) (start_time s) (end_time s).
Definition set_result (v : option Result) (s : t) : t :=
  mk (name s) (tool s) (params s) (conditions s) (retry_count s) (timeout s)
     (cleanup s) (status s) v (error s) (start_time s) (end_time s).
Definition set_error (v : option string) (s : t) : t :=
  mk (name s) (tool s) (params s) (conditions s) (retry_count s) (timeout s)
     (cleanup s) (status s) (result s) v (start_time s) (end_time s).
Definition set_start_time (v : option Time) (s : t) : t :=
  mk (name s) (tool s) (params s) (conditions s) (retry_count s) (timeout s)
     (cleanup s) (status s) (result s) (error s) v (end_time s).
Definition set_end_time (v : option Time) (s : t) : t :=
  mk (name s) (tool s) (params s) (conditions s) (retry_count s) (timeout s)
     (cleanup s) (status s) (result s) (error s) (start_time s) v.
End WorkflowStep.

(** ** Collaborators *)

(** [LoggingService]: [audit_logger t action] is [Some m] when the body of
    [log_audit_event] (serialising the event, hashing it, writing it)
    raises an exception whose message is [m] at time [t]. *)
Record LoggingService := mkLoggingService {
  enable_audit_log : bool;
  audit_logger : nat -> string -> option string
}.

(** [ContextManager]: the message of the exception raised inside
    [create_context] / [update_context] at time [t], if any. *)
Record ContextManager := mkContextManager {
  create_failure : nat -> option string;
  update_failure : nat -> option string
}.

(** ** SecurityWorkflow *)

Module SecurityWorkflow.
Record t := mk {
  workflow_id : string;
  name : string;
  description : string;
  steps : list WorkflowStep.t;
  context_manager : ContextManager;
  logging_service : LoggingService;
  security_level : SecurityLevel.t;
  status : WorkflowStatus.t;
  current_step : nat;
  start_time : option Time;
  end_time : option Time;
  results : gmap string Result
}.

(** [SecurityWorkflow.__init__]; the generated uuid is an argument. *)
Definition init (workflow_id name description : string)
    (steps : list WorkflowStep.t) (context_manager : ContextManager)
    (logging_service : LoggingService) (security_level : SecurityLevel.t) : t :=
  mk workflow_id name description steps context_manager logging_service
     security_level WorkflowStatus.PENDING 0%nat None None ∅.

Definition set_steps (v : list WorkflowStep.t) (s : t) : t :=
  mk (workflow_id s) (name s) (description s) v (context_manager s)
     (logging_service s) (security_level s) (status s) (current_step s)
     (start_time s) (end_time s) (results s).
Definition set_status (v : WorkflowStatus.t) (s : t) : t :=
  mk (workflow_id s) (name s) (description s) (steps s) (context_manager s)
     (logging_service s) (security_level s) v (current_step s)
     (start_time s) (end_time s) (results s).
Definition set_current_step (v : nat) (s : t) : t :=
  mk (workflow_id s) (name s) (description s) (steps s) (context_manager s)
     (logging_service s) (security_level s) (status s) v
     (start_time s) (end_time s) (results s).
Definition set_start_time (v : option Time) (s : t) : t :=
  mk (workflow_id s) (name s) (description s) (steps s) (context_manager s)
     (logging_service s) (security_level s) (status s) (current_step s)
     v (end_time s) (results s).
Definition set_end_time (v : option Time) (s : t) : t :=
  mk (workflow_id s) (name s) (description s) (steps s) (context_manager s)
     (logging_service s) (security_level s) (status s) (current_step s)
     (start_time s) v (results s).
Definition set_results (v : gmap string Result) (s : t) : t :=
  mk (workflow_id s) (name s) (description s) (steps s) (context_manager s)
     (logging_service s) (security_level s) (status s) (current_step s)
     (start_time s) (end_time s) v.
End SecurityWorkflow.

(** ** The trace *)

(** A value of an audit event's [details] dictionary. *)
Inductive Detail :=
| DStr (s : string)
| DOptStr (s : option string)
| DInt (z : Z)
| DParams (p : Params)
| DDuration (end_time start_time : option Time). (* (end - start).total_seconds() *)

Definition Details := list (string * Detail).

Inductive Event :=
| CreateContext (failure : option string)
| UpdateContext (key : string) (value : Result) (failure : option string)
| AuditEvent (action : string) (details : Details) (failure : option string)
| ToolExecute (i : nat) (p : Params) (outcome : Exn + Result)
| Sleep (seconds : Z)
| ConditionCall (i : nat) (outcome : Exn + bool)
| CleanupCall (i : nat) (failure : option Exn)
| LoggerError (msg : string)
| StatusSet (i : nat) (new : WorkflowStepStatus.t).

(** One entry: the workflow object as it was when the event happened. *)
Record Entry := mkEntry { at_state : SecurityWorkflow.t; event : Event }.

(** The newest entry is the head of [trace]. *)
Record World := mkWorld { wf : SecurityWorkflow.t; trace : list Entry }.

(** ** The monad *)

Definition M (A : Type) : Type := World -> (Exn + A) * World.

Definition ret {A} (a : A) : M A := fun w => (inr a, w).
Definition raise {A} (e : Exn) : M A := fun w => (inl e, w).
Definition bind {A B} (m : M A) (k : A -> M B) : M B :=
  fun w => match m w with
           | (inr a, w') => k a w'
           | (inl e, w') => (inl e, w')
           end.
(** [try: m  except Exception as e: h e] *)
Definition try_except {A} (m : M A) (h : Exn -> M A) : M A :=
  fun w => match m w with
           | (inl e, w') => h e w'
           | (inr a, w') => (inr a, w')
           end.

Declare Scope m_scope.
Delimit Scope m_scope with m.
Notation "x <- m ;; k" := (bind m (fun x => k))
  (at level 100, m at next level, right associativity) : m_scope.
Notation "m ;; k" := (bind m (fun _ => k))
  (at level 100, right associativity) : m_scope.
Local Open Scope m_scope.

Definition get : M SecurityWorkflow.t := fun w => (inr (wf w), w).
Definition modify (f : SecurityWorkflow.t -> SecurityWorkflow.t) : M unit :=
  fun w => (inr tt, mkWorld (f (wf w)) (trace w)).
Definition now : M nat := fun w => (inr (length (trace w)), w).
Definition emit (ev : Event) : M unit :=
  fun w => (inr tt, mkWorld (wf w) (mkEntry (wf w) ev :: trace w)).

Definition utcnow : M Time := now.

(** ** Calls that leave the engine *)

(** [ContextManager.create_context]: whatever is raised inside is re-raised
    as [ContextError("Context creation failed: ...")]. *)
Definition create_context : M unit :=
  self <- get ;;
  t <- now ;;
  let failure := create_failure (SecurityWorkflow.context_manager self) t in
  emit (CreateContext failure) ;;
  match failure with
  | Some m => raise (mkExn ContextError ("Context creation failed: " +:+ m))
  | None => ret tt
  end.

(** [ContextManager.update_context]: whatever is raised inside is re-raised
    as [ContextError("Context update failed: ...")]. *)
Definition update_context (key : string) (value : Result) : M unit :=
  self <- get ;;
  t <- now ;;
  let failure := update_failure (SecurityWorkflow.context_manager self) t in
  emit (UpdateContext key value failure) ;;
  match failure with
  | Some m => raise (mkExn ContextError ("Context update failed: " +:+ m))
  | None => ret tt
  end.

(** [LoggingService.log_audit_event]: returns at once when audit logging is
    disabled; whatever is raised inside is re-raised as
    [LoggingError("Failed to log audit event: ...")]. *)
Definition log_audit_event (action : string) (details : Details) : M unit :=
  self <- get ;;
  t <- now ;;
  let ls := SecurityWorkflow.logging_service self in
  let failure := if enable_audit_log ls then audit_logger ls t action else None in
  emit (AuditEvent action details failure) ;;
  match failure with
  | Some m => raise (mkExn LoggingError ("Failed to log audit event: " +:+ m))
  | None => ret tt
  end.

(** [asyncio.sleep(seconds)] *)
Definition sleep (seconds : Z) : M unit := emit (Sleep seconds).

(** [logger.error(msg)] *)
Definition logger_error (msg : string) : M unit := emit (LoggerError msg).

(** [cond()] for a condition of step [i] *)
Definition call_condition (i : nat) (cond : Condition) : M bool :=
  t <- now ;;
  let outcome := cond t in
  emit (ConditionCall i outcome) ;;
  match outcome with
  | inl e => raise e
  | inr b => ret b
  end.

(** [await step.cleanup()] *)
Definition call_cleanup (i : nat) (cleanup : Cleanup) : M unit :=
  t <- now ;;
  emit (CleanupCall i (cleanup t)) ;;
  match cleanup t with
  | Some e => raise e
  | None => ret tt
  end.

(** [await asyncio.wait_for(step.tool.execute(...), timeout=step.timeout)] *)
Definition wait_for_execute (i : nat) (step : WorkflowStep.t) : M Result :=
  t <- now ;;
  let outcome := WorkflowStep.tool step t (WorkflowStep.params step) in
  emit (ToolExecute i (WorkflowStep.params step) outcome) ;;
  match outcome with
  | inl e => raise e
  | inr r => ret r
  end.

(** ** Access to the step objects *)

(** [self.steps[i]]; Python raises [IndexError] out of range. *)
Definition get_step (i : nat) : M WorkflowStep.t :=
  self <- get ;;
  match SecurityWorkflow.steps self !! i with
  | Some s => ret s
  | None => raise (mkExn IndexError "list index out of range")
  end.

Definition modify_step (i : nat) (f : WorkflowStep.t -> WorkflowStep.t) : M unit :=
  modify (fun self =>
    SecurityWorkflow.set_steps (alter f i (SecurityWorkflow.steps self)) self).

(** [step.status = v] *)
Definition set_step_status (i : nat) (v : WorkflowStepStatus.t) : M unit :=
  emit (StatusSet i v) ;;
  modify_step i (WorkflowStep.set_status v).

(** ** Read accessors *)

Record StepStatusView := mkStepStatusView {
  ssv_name : string;
  ssv_status : string;
  ssv_error : option string
}.

Record StatusView := mkStatusView {
  sv_workflow_id : string;
  sv_name : string;
  sv_status : string;
  sv_current_step : nat;
  sv_total_steps : nat;
  sv_start_time : option Time;
  sv_end_time : option Time;
  sv_steps : list StepStatusView
}.

Definition get_status (self : SecurityWorkflow.t) : StatusView :=
  mkStatusView
    (SecurityWorkflow.workflow_id self)
    (SecurityWorkflow.name self)
    (WorkflowStatus.value (SecurityWorkflow.status self))
    (SecurityWorkflow.current_step self)
    (length (SecurityWorkflow.steps self))
    (SecurityWorkflow.start_time self)
    (SecurityWorkflow.end_time self)
    (map (fun step =>
            mkStepStatusView (WorkflowStep.name step)
              (WorkflowStepStatus.value (WorkflowStep.status step))
              (WorkflowStep.error step))
         (SecurityWorkflow.steps self)).

Record StepResultView := mkStepResultView {
  srv_name : string;
  srv_status : string;
  srv_start_time : option Time;
  srv_end_time : option Time;
  srv_duration : option Z;
  srv_result : option Result;
  srv_error : option string
}.

Record ResultsView := mkResultsView {
  rv_workflow_id : string;
  rv_name : string;
  rv_status : string;
  rv_start_time : option Time;
  rv_end_time : option Time;
  rv_duration : option Z;
  rv_steps : list StepResultView;
  rv_results : gmap string Result
}.

(** [(end - start).total_seconds() if end and start else None] *)
Definition duration (end_time start_time : option Time) : option Z :=
  match end_time, start_time with
  | Some e, Some s => Some (Z.of_nat e - Z.of_nat s)
  | _, _ => None
  end.

Definition get_results (self : SecurityWorkflow.t) : ResultsView :=
  mkResultsView
    (SecurityWorkflow.workflow_id self)
    (SecurityWorkflow.name self)
    (WorkflowStatus.value (SecurityWorkflow.status self))
    (SecurityWorkflow.start_time self)
    (SecurityWorkflow.end_time self)
    (duration (SecurityWorkflow.end_time self) (SecurityWorkflow.start_time self))
    (map (fun step =>
            mkStepResultView (WorkflowStep.name step)
              (WorkflowStepStatus.value (WorkflowStep.status step))
              (WorkflowStep.start_time step)
              (WorkflowStep.end_time step)
              (duration (WorkflowStep.end_time step) (WorkflowStep.start_time step))
              (WorkflowStep.result step)
              (WorkflowStep.error step))
         (SecurityWorkflow.steps self))
    (SecurityWorkflow.results self).

(** ** [SecurityWorkflow._execute_step] *)

(** The body of the [try:] inside the retry loop: the tool call under its
    timeout and the bookkeeping of a success. *)
Definition attempt (i : nat) : M Result :=
  step <- get_step i ;;
  result <- wait_for_execute i step ;;
  set_step_status i WorkflowStepStatus.COMPLETED ;;
  t <- utcnow ;;
  modify_step i (WorkflowStep.set_end_time (Some t)) ;;
  modify_step i (WorkflowStep.set_result (Some result)) ;;
  step <- get_step i ;;
  log_audit_event "step_completed"
    [("step_name", DStr (WorkflowStep.name step));
     ("duration", DDuration (WorkflowStep.end_time step) (WorkflowStep.start_time step))] ;;
  ret result.

(** [while tries < step.retry_count: ...].  The loop either returns the
    tool's result from inside ([inl]) or runs out and falls through with
    [tries] and [last_error] ([inr]).  [fuel] bounds the iterations; with
    [fuel = Z.to_nat (retry_count - tries)] the test [tries < retry_count]
    fails exactly when the fuel is spent. *)
Fixpoint retry_loop (fuel : nat) (i : nat) (tries : Z) (last_error : option string)
    : M (Result + Z * option string) :=
  match fuel with
  | O => ret (inr (tries, last_error))
  | S fuel' =>
      step <- get_step i ;;
      if tries <? WorkflowStep.retry_count step then
        r <- try_except
               (result <- attempt i ;; ret (inl result))
               (fun e =>
                  match exn_class e with
                  | TimeoutError =>
                      ret (inr ("Step timed out after "
                                +:+ str_int (WorkflowStep.timeout step)
                                +:+ " seconds"))
                  | _ => ret (inr (str e))
                  end) ;;
        match r with
        | inl result => ret (inl result)
        | inr msg =>
            let last_error := Some msg in
            let tries := tries + 1 in
            (if tries <? WorkflowStep.retry_count step
             then sleep (2 ^ tries)
             else ret tt) ;;
            retry_loop fuel' i tries last_error
        end
      else ret (inr (tries, last_error))
  end.

(** The second half of [_execute_step], from [tries = 0] to the final
    [raise]: the retry loop and the bookkeeping of an exhausted step. *)
Definition run_attempts (i : nat) (step : WorkflowStep.t) : M Result :=
  r <- retry_loop (Z.to_nat (WorkflowStep.retry_count step)) i 0 None ;;
  match r with
  | inl result => ret result
  | inr (tries, last_error) =>
      set_step_status i WorkflowStepStatus.FAILED ;;
      t <- utcnow ;;
      modify_step i (WorkflowStep.set_end_time (Some t)) ;;
      modify_step i (WorkflowStep.set_error last_error) ;;
      log_audit_event "step_failed"
        [("step_name", DStr (WorkflowStep.name step));
         ("error", DOptStr last_error);
         ("retries", DInt tries)] ;;
      raise (mkExn WorkflowError
               ("Step " +:+ WorkflowStep.name step +:+ " failed after "
                +:+ str_int tries +:+ " attempts: " +:+ str_opt last_error))
  end.

Definition _execute_step (i : nat) : M Result :=
  t <- utcnow ;;
  modify_step i (WorkflowStep.set_start_time (Some t)) ;;
  set_step_status i WorkflowStepStatus.RUNNING ;;
  step <- get_step i ;;
  log_audit_event "step_started"
    [("step_name", DStr (WorkflowStep.name step));
     ("params", DParams (WorkflowStep.params step))] ;;
  run_attempts i step.

(** ** [SecurityWorkflow.execute] *)

(** [all(cond() for cond in step.conditions)]: stops at the first false;
    an exception raised by a predicate leaves the generator. *)
Fixpoint all_conditions (i : nat) (conds : list Condition) : M bool :=
  match conds with
  | [] => ret true
  | cond :: conds' =>
      b <- call_condition i cond ;;
      if b then all_conditions i conds' else ret false
  end.

(** [if step.cleanup: try: await step.cleanup() except Exception as e: logger.error(msg e)] *)
Definition attempt_cleanup (i : nat) (step : WorkflowStep.t) (msg : Exn -> string) : M unit :=
  match WorkflowStep.cleanup step with
  | Some cleanup =>
      try_except (call_cleanup i cleanup) (fun e => logger_error (msg e))
  | None => ret tt
  end.

(** The [except Exception as e:] clause of the loop body. *)
Definition step_failed_handler (i : nat) (step : WorkflowStep.t) (e : Exn) : M unit :=
  logger_error ("Step " +:+ WorkflowStep.name step +:+ " failed: " +:+ str e) ;;
  set_step_status i WorkflowStepStatus.FAILED ;;
  modify_step i (WorkflowStep.set_error (Some (str e))) ;;
  attempt_cleanup i step
    (fun cleanup_error =>
       "Cleanup for step " +:+ WorkflowStep.name step +:+ " failed: "
       +:+ str cleanup_error) ;;
  raise (mkExn WorkflowError
           ("Workflow failed at step " +:+ WorkflowStep.name step +:+ ": "
            +:+ str e)).

(** One iteration of [for i, step in enumerate(self.steps)]. *)
Definition execute_iteration (i : nat) : M unit :=
  modify (SecurityWorkflow.set_current_step i) ;;
  step <- get_step i ;;
  try_except
    (ok <- all_conditions i (WorkflowStep.conditions step) ;;
     if negb ok then
       set_step_status i WorkflowStepStatus.SKIPPED   (* continue *)
     else
       step_result <- _execute_step i ;;
       modify (fun self =>
         SecurityWorkflow.set_results
           (<[WorkflowStep.name step := step_result]> (SecurityWorkflow.results self))
           self) ;;
       update_context ("step_" +:+ str_nat i +:+ "_result") step_result)
    (step_failed_handler i step).

Fixpoint execute_steps (indices : list nat) : M unit :=
  match indices with
  | [] => ret tt
  | i :: rest => execute_iteration i ;; execute_steps rest
  end.

Definition execute : M ResultsView :=
  try_except
    (t <- utcnow ;;
     modify (SecurityWorkflow.set_start_time (Some t)) ;;
     modify (SecurityWorkflow.set_status WorkflowStatus.RUNNING) ;;
     create_context ;;
     self <- get ;;
     log_audit_event "workflow_started"
       [("name", DStr (SecurityWorkflow.name self));
        ("description", DStr (SecurityWorkflow.description self));
        ("security_level",
         DStr (SecurityLevel.value (SecurityWorkflow.security_level self)))] ;;
     self <- get ;;
     execute_steps (seq 0 (length (SecurityWorkflow.steps self))) ;;
     modify (SecurityWorkflow.set_status WorkflowStatus.COMPLETED) ;;
     t <- utcnow ;;
     modify (SecurityWorkflow.set_end_time (Some t)) ;;
     self <- get ;;
     log_audit_event "workflow_completed"
       [("name", DStr (SecurityWorkflow.name self));
        ("duration", DDuration (SecurityWorkflow.end_time self)
                               (SecurityWorkflow.start_time self));
        ("steps_completed", DInt (Z.of_nat (length (SecurityWorkflow.steps self))))] ;;
     self <- get ;;
     ret (get_results self))
    (fun e =>
       modify (SecurityWorkflow.set_status WorkflowStatus.FAILED) ;;
       t <- utcnow ;;
       modify (SecurityWorkflow.set_end_time (Some t)) ;;
       self <- get ;;
       log_audit_event "workflow_failed"
         [("name", DStr (SecurityWorkflow.name self));
          ("error", DStr (str e));
          ("step", DInt (Z.of_nat (SecurityWorkflow.current_step self)))] ;;
       raise (mkExn WorkflowError ("Workflow execution failed: " +:+ str e))).

(** ** [cancel], [pause], [resume] *)

Definition cancel : M unit :=
  self <- get ;;
  if decide (SecurityWorkflow.status self = WorkflowStatus.RUNNING) then
    modify (SecurityWorkflow.set_status WorkflowStatus.CANCELLED) ;;
    t <- utcnow ;;
    modify (SecurityWorkflow.set_end_time (Some t)) ;;
    let i := SecurityWorkflow.current_step self in
    current_step <- get_step i ;;
    (if decide (WorkflowStep.status current_step = WorkflowStepStatus.RUNNING) then
       set_step_status i WorkflowStepStatus.FAILED ;;
       t <- utcnow ;;
       modify_step i (WorkflowStep.set_end_time (Some t)) ;;
       modify_step i (WorkflowStep.set_error (Some "Cancelled by user")) ;;
       attempt_cleanup i current_step
         (fun e =>
            "Cleanup failed for cancelled step " +:+ WorkflowStep.name current_step
            +:+ ": " +:+ str e)
     else ret tt) ;;
    log_audit_event "workflow_cancelled"
      [("name", DStr (SecurityWorkflow.name self));
       ("step", DInt (Z.of_nat (SecurityWorkflow.current_step self)))]
  else ret tt.

Definition pause : M unit :=
  self <- get ;;
  if decide (SecurityWorkflow.status self = WorkflowStatus.RUNNING) then
    modify (SecurityWorkflow.set_status WorkflowStatus.PAUSED) ;;
    log_audit_event "workflow_paused"
      [("name", DStr (SecurityWorkflow.name self));
       ("step", DInt (Z.of_nat (SecurityWorkflow.current_step self)))]
  else ret tt.

Definition resume : M unit :=
  self <- get ;;
  if decide (SecurityWorkflow.status self = WorkflowStatus.PAUSED) then
    modify (SecurityWorkflow.set_status WorkflowStatus.RUNNING) ;;
    log_audit_event "workflow_resumed"
      [("name", DStr (SecurityWorkflow.name self));
       ("step", DInt (Z.of_nat (SecurityWorkflow.current_step self)))] ;;
    execute ;;
    ret tt
  else ret tt.

(** * Vocabulary for statements about runs *)

(** What the audit logger answers at time [t]. *)
Definition audit_failure (ls : LoggingService) (t : nat) (action : string)
    : option string :=
  if enable_audit_log ls then audit_logger ls t action else None.

(** ** Observing a run *)

(** The events of a list of entries, oldest first. *)
Definition chronological (entries : list Entry) : list Event :=
  rev (map event entries).

Definition outcome {A} (m : M A) (w : World) : Exn + A := (m w).1.
Definition final {A} (m : M A) (w : World) : SecurityWorkflow.t := wf (m w).2.
(** The entries a run adds to the trace, newest first. *)
Definition new_entries {A} (m : M A) (w : World) : list Entry :=
  take (length (trace (m w).2) - length (trace w)) (trace (m w).2).
(** The events of a run in the order they happened. *)
Definition events {A} (m : M A) (w : World) : list Event :=
  chronological (new_entries m w).
(** The workflow object as it was at each event of a run, and at its end. *)
Definition states {A} (m : M A) (w : World) : list SecurityWorkflow.t :=
  rev (map at_state (new_entries m w)) ++ [final m w].

Definition raises {A} (r : Exn + A) : Prop :=
  match r with inl _ => True | inr _ => False end.

(** ** Weakest preconditions

    [wp m Q s tr]: run from the workflow object [s] with the trace [tr], [m]
    adds the entries [new] in front of the trace and ends with an
    outcome [r] (a value or a raised exception) and a workflow object [s']
    such that [Q r new s']. *)

Definition wp {A} (m : M A)
    (Q : Exn + A -> list Entry -> SecurityWorkflow.t -> Prop)
    (s : SecurityWorkflow.t) (tr : list Entry) : Prop :=
  exists new,
    trace (m (mkWorld s tr)).2 = new ++ tr
    /\ Q (m (mkWorld s tr)).1 new (wf (m (mkWorld s tr)).2).

(** ** Tool invocations and back-off delays *)

Inductive Act := Invoke | Wait (seconds : Z).

Definition act_of (ev : Event) : option Act :=
  match ev with
  | ToolExecute _ _ _ => Some Invoke
  | Sleep seconds => Some (Wait seconds)
  | _ => None
  end.

(** What a run does to the tool and to the clock, in order. *)
Definition acts (evs : list Event) : list Act := omap act_of evs.

Definition invocations (evs : list Event) : nat :=
  length (omap (fun a => match a with Invoke => Some tt | Wait _ => None end)
               (acts evs)).

Definition delays (evs : list Event) : list Z :=
  omap (fun a => match a with Wait seconds => Some seconds | Invoke => None end)
       (acts evs).


(** The schedule of the attempts that remain after [a] failed ones. *)
Definition remaining_schedule (a n : nat) : list Act :=
  match n with
  | O => []
  | S k => Invoke :: flat_map (fun j => [Wait (2 ^ Z.of_nat j); Invoke]) (seq (S a) k)
  end.

(** ** Counting events *)

Definition count_events (p : Event -> bool) (evs : list Event) : nat :=
  length (List.filter p evs).


Definition is_tool_call_of (i : nat) (ev : Event) : bool :=
  match ev with
  | ToolExecute j _ _ => Nat.eqb j i
  | _ => false
  end.

Definition is_audit (action : string) (ev : Event) : bool :=
  match ev with
  | AuditEvent a _ _ => String.eqb a action
  | _ => false
  end.

(** ** Example collaborators and workflows *)

Definition quiet_logging : LoggingService :=
  mkLoggingService true (fun _ _ => None).
Definition sound_store : ContextManager :=
  mkContextManager (fun _ => None) (fun _ => None).
Definition succeeding_tool : BaseTool := fun _ _ => inr [("status", "ok")].
(** A tool that raises an exception whose message is empty. *)
Definition failing_tool : BaseTool := fun _ _ => inl (mkExn OtherError "").

Definition example_step (name : string) (tool : BaseTool) (retry_count : Z)
    : WorkflowStep.t :=
  WorkflowStep.init name tool [] [] retry_count 300 None.

Definition example_workflow (steps : list WorkflowStep.t)
    (cm : ContextManager) (ls : LoggingService) : SecurityWorkflow.t :=
  SecurityWorkflow.init "wf-1" "assessment" "example" steps cm ls
    SecurityLevel.HIGH.

(** A workflow as [__init__] leaves it, with an empty trace. *)
Definition fresh (self : SecurityWorkflow.t) : World := mkWorld self [].

(** A running workflow whose only step is in flight. *)
Definition in_flight_step : WorkflowStep.t :=
  WorkflowStep.set_status WorkflowStepStatus.RUNNING
    (WorkflowStep.init "scan" succeeding_tool [] [] 3 300 (Some (fun _ => None))).
Definition running_world : World :=
  mkWorld
    (SecurityWorkflow.set_status WorkflowStatus.RUNNING
       (example_workflow [in_flight_step] sound_store quiet_logging))
    [].

(** A running workflow without steps (as [execute] has it while it awaits
    the context store). *)
Definition running_empty_world : World :=
  mkWorld
    (SecurityWorkflow.set_status WorkflowStatus.RUNNING
       (example_workflow [] sound_store quiet_logging))
    [].

(** A step whose tool always fails, allowed two attempts, alone in a fresh
    workflow. *)
Definition failing_step : WorkflowStep.t := example_step "probe" failing_tool 2.
Definition failing_world : World :=
  fresh (example_workflow [failing_step] sound_store quiet_logging).

(** ** Condition gating *)

Definition is_condition_call (i : nat) (ev : Event) : Prop :=
  exists r, ev = ConditionCall i r.




(** ** What one execution of a step looks like

    While step [i] is being executed, the workflow object differs from the
    one the execution started with in the run state of step [i] only. *)

Definition same_policy (a b : WorkflowStep.t) : Prop :=
  WorkflowStep.name a = WorkflowStep.name b
  /\ WorkflowStep.tool a = WorkflowStep.tool b
  /\ WorkflowStep.params a = WorkflowStep.params b
  /\ WorkflowStep.conditions a = WorkflowStep.conditions b
  /\ WorkflowStep.retry_count a = WorkflowStep.retry_count b
  /\ WorkflowStep.timeout a = WorkflowStep.timeout b
  /\ WorkflowStep.cleanup a = WorkflowStep.cleanup b.

(** The workflow object [s] with [step] as its [i]-th step. *)
Definition with_step (s : SecurityWorkflow.t) (i : nat) (step : WorkflowStep.t)
    : SecurityWorkflow.t :=
  SecurityWorkflow.set_steps (<[i := step]> (SecurityWorkflow.steps s)) s.

(** The tool call of a step is in flight: the step is Running, or Completed
    by an earlier attempt whose [step_completed] event was refused. *)
Definition in_flight (st : WorkflowStepStatus.t) : Prop :=
  st = WorkflowStepStatus.RUNNING \/ st = WorkflowStepStatus.COMPLETED.

(** [exec_phase i before st ev]: [_execute_step] for step [i], entered when
    the step's status was [before], produces the event [ev] at a moment
    when the step's status is [st]. *)
Inductive exec_phase (i : nat) (before : WorkflowStepStatus.t)
    : WorkflowStepStatus.t -> Event -> Prop :=
| phase_set_running :
    exec_phase i before before (StatusSet i WorkflowStepStatus.RUNNING)
| phase_step_started details failure :
    exec_phase i before WorkflowStepStatus.RUNNING
      (AuditEvent "step_started" details failure)
| phase_tool st p outcome :
    in_flight st -> exec_phase i before st (ToolExecute i p outcome)
| phase_set_completed st :
    in_flight st ->
    exec_phase i before st (StatusSet i WorkflowStepStatus.COMPLETED)
| phase_step_completed details failure :
    exec_phase i before WorkflowStepStatus.COMPLETED
      (AuditEvent "step_completed" details failure)
| phase_sleep st seconds :
    in_flight st -> exec_phase i before st (Sleep seconds)
| phase_set_failed st :
    in_flight st ->
    exec_phase i before st (StatusSet i WorkflowStepStatus.FAILED)
| phase_step_failed details failure :
    exec_phase i before WorkflowStepStatus.FAILED
      (AuditEvent "step_failed" details failure).

(** An entry made while step [i] of [s] is executed, [step0] being the
    step as it was before. *)
Definition exec_entry (s : SecurityWorkflow.t) (i : nat) (step0 : WorkflowStep.t)
    (e : Entry) : Prop :=
  exists st,
    at_state e = with_step s i st
    /\ same_policy step0 st
    /\ exec_phase i (WorkflowStep.status step0) (WorkflowStep.status st) (event e).

(** ** What one iteration of the loop of [execute] looks like *)

(** The workflow object while the loop is at step [i]: [s] with
    [current_step = i], with [step] as its [i]-th step and with the results
    [res]. *)
Definition during (s : SecurityWorkflow.t) (i : nat) (step : WorkflowStep.t)
    (res : gmap string Result) : SecurityWorkflow.t :=
  SecurityWorkflow.set_results res
    (with_step (SecurityWorkflow.set_current_step i s) i step).

(** The step and the results when the [except] clause of the loop body
    is entered: [_execute_step] raised (the step is Running or Failed and
    nothing was stored), or the context store refused the update (the
    step is Completed and its result is stored). *)
Definition caught (step0 : WorkflowStep.t) (res0 : gmap string Result)
    (st : WorkflowStep.t) (res : gmap string Result) : Prop :=
  (res = res0
   /\ (WorkflowStep.status st = WorkflowStepStatus.RUNNING
       \/ WorkflowStep.status st = WorkflowStepStatus.FAILED))
  \/ (exists v,
        res = <[WorkflowStep.name step0 := v]> res0
        /\ WorkflowStep.status st = WorkflowStepStatus.COMPLETED
        /\ WorkflowStep.result st = Some v).

(** The step and the results once the [except] clause has marked the
    step. *)
Definition marked_failed (step0 : WorkflowStep.t) (res0 : gmap string Result)
    (st : WorkflowStep.t) (res : gmap string Result) : Prop :=
  WorkflowStep.status st = WorkflowStepStatus.FAILED
  /\ exists m,
       WorkflowStep.error st = Some m
       /\ m <> ""
       /\ (res = res0
           \/ exists v m',
                res = <[WorkflowStep.name step0 := v]> res0
                /\ WorkflowStep.result st = Some v
                /\ m = "Context update failed: " +:+ m').

(** A condition predicate of the step raises [e] when it is called. *)
Definition gate_raised (step0 : WorkflowStep.t) (e : Exn) : Prop :=
  exists cond t, cond ∈ WorkflowStep.conditions step0 /\ cond t = inl e.

(** The step once the [except] clause has marked it after one of its
    condition predicates raised [e]: it is Failed with the message of [e],
    whatever it is, as its error. *)
Definition gate_failed (step0 : WorkflowStep.t) (e : Exn) (st : WorkflowStep.t)
    : Prop :=
  gate_raised step0 e
  /\ st = WorkflowStep.set_error (Some (str e))
            (WorkflowStep.set_status WorkflowStepStatus.FAILED step0).

(** [iter_phase i step0 res0 st res ev]: the iteration for step [i], entered
    with the step [step0] and the results [res0], produces the event [ev] at
    a moment when the step is [st] and the results are [res]. *)
Inductive iter_phase (i : nat) (step0 : WorkflowStep.t) (res0 : gmap string Result)
    : WorkflowStep.t -> gmap string Result -> Event -> Prop :=
| iter_condition r :
    iter_phase i step0 res0 step0 res0 (ConditionCall i r)
| iter_skip :
    iter_phase i step0 res0 step0 res0 (StatusSet i WorkflowStepStatus.SKIPPED)
| iter_exec st ev :
    exec_phase i (WorkflowStep.status step0) (WorkflowStep.status st) ev ->
    iter_phase i step0 res0 st res0 ev
| iter_update st v key failure :
    WorkflowStep.status st = WorkflowStepStatus.COMPLETED ->
    WorkflowStep.result st = Some v ->
    iter_phase i step0 res0 st (<[WorkflowStep.name step0 := v]> res0)
      (UpdateContext key v failure)
| iter_caught_log st res msg :
    caught step0 res0 st res ->
    iter_phase i step0 res0 st res (LoggerError msg)
| iter_caught_mark st res :
    caught step0 res0 st res ->
    iter_phase i step0 res0 st res (StatusSet i WorkflowStepStatus.FAILED)
| iter_cleanup st res failure :
    marked_failed step0 res0 st res ->
    iter_phase i step0 res0 st res (CleanupCall i failure)
| iter_cleanup_log st res msg :
    marked_failed step0 res0 st res ->
    iter_phase i step0 res0 st res (LoggerError msg)
| iter_gate_log e msg :
    gate_raised step0 e ->
    iter_phase i step0 res0 step0 res0 (LoggerError msg)
| iter_gate_mark e :
    gate_raised step0 e ->
    iter_phase i step0 res0 step0 res0 (StatusSet i WorkflowStepStatus.FAILED)
| iter_gate_cleanup st e failure :
    gate_failed step0 e st ->
    iter_phase i step0 res0 st res0 (CleanupCall i failure)
| iter_gate_cleanup_log st e msg :
    gate_failed step0 e st ->
    iter_phase i step0 res0 st res0 (LoggerError msg).

Definition iter_entry (s : SecurityWorkflow.t) (i : nat) (step0 : WorkflowStep.t)
    (e : Entry) : Prop :=
  exists st res,
    at_state e = during s i st res
    /\ same_policy step0 st
    /\ iter_phase i step0 (SecurityWorkflow.results s) st res (event e).

(** The calls to the context store's update in a list of events: key,
    value and the failure message if the call failed. *)
Definition update_events (evs : list Event)
    : list (string * Result * option string) :=
  omap (fun ev => match ev with
                  | UpdateContext key v failure => Some (key, v, failure)
                  | _ => None
                  end) evs.

(** The cleanup hooks called in a list of events, by step index. *)
Definition cleanup_calls (evs : list Event) : list nat :=
  omap (fun ev => match ev with CleanupCall j _ => Some j | _ => None end) evs.

(** The cleanup hook of step [i] is called once if the step has one. *)
Definition cleanup_of (i : nat) (step : WorkflowStep.t) : list nat :=
  if WorkflowStep.cleanup step is Some _ then [i] else [].

(** [iteration_outcome i step0 res0 r evs st res]: the five ways the
    iteration for step [i] can end, with the outcome [r], the events [evs],
    the step [st] and the results [res]. *)
Inductive iteration_outcome (i : nat) (step0 : WorkflowStep.t)
    (res0 : gmap string Result)
    : Exn + unit -> list Event -> WorkflowStep.t -> gmap string Result -> Prop :=
| it_skipped evs :
    update_events evs = [] ->
    cleanup_calls evs = [] ->
    iteration_outcome i step0 res0 (inr tt) evs
      (WorkflowStep.set_status WorkflowStepStatus.SKIPPED step0) res0
| it_completed evs st v :
    WorkflowStep.status st = WorkflowStepStatus.COMPLETED ->
    WorkflowStep.result st = Some v ->
    update_events evs = [("step_" +:+ str_nat i +:+ "_result", v, None)] ->
    cleanup_calls evs = [] ->
    iteration_outcome i step0 res0 (inr tt) evs st
      (<[WorkflowStep.name step0 := v]> res0)
| it_failed evs st m :
    WorkflowStep.status st = WorkflowStepStatus.FAILED ->
    WorkflowStep.error st = Some m ->
    m <> "" ->
    update_events evs = [] ->
    cleanup_calls evs = cleanup_of i step0 ->
    iteration_outcome i step0 res0
      (inl (mkExn WorkflowError
              ("Workflow failed at step " +:+ WorkflowStep.name step0 +:+ ": "
               +:+ m)))
      evs st res0
| it_store_failed evs st v m :
    WorkflowStep.status st = WorkflowStepStatus.FAILED ->
    WorkflowStep.result st = Some v ->
    WorkflowStep.error st = Some ("Context update failed: " +:+ m) ->
    update_events evs = [("step_" +:+ str_nat i +:+ "_result", v, Some m)] ->
    cleanup_calls evs = cleanup_of i step0 ->
    iteration_outcome i step0 res0
      (inl (mkExn WorkflowError
              ("Workflow failed at step " +:+ WorkflowStep.name step0 +:+ ": "
               +:+ "Context update failed: " +:+ m)))
      evs st (<[WorkflowStep.name step0 := v]> res0)
| it_gate_raised evs st e :
    gate_failed step0 e st ->
    ConditionCall i (inl e) ∈ evs ->
    update_events evs = [] ->
    cleanup_calls evs = cleanup_of i step0 ->
    iteration_outcome i step0 res0
      (inl (mkExn WorkflowError
              ("Workflow failed at step " +:+ WorkflowStep.name step0 +:+ ": "
               +:+ str e)))
      evs st res0.

(** An event that is neither a context update nor a cleanup call. *)
Definition quiet (ev : Event) : Prop :=
  match ev with
  | UpdateContext _ _ _ | CleanupCall _ _ => False
  | _ => True
  end.

(** ** What a run of the loop and of [execute] looks like *)

(** [loop_run indices s r new s']: the loop over the steps [indices],
    started with the workflow object [s], makes the entries [new] and ends
    with the outcome [r] and the workflow object [s']: every iteration but
    the last returns, and the last one returns or raises. *)
Inductive loop_run
    : list nat -> SecurityWorkflow.t -> Exn + unit -> list Entry
      -> SecurityWorkflow.t -> Prop :=
| loop_done s : loop_run [] s (inr tt) [] s
| loop_next i rest s step0 st res new1 r new2 s' :
    SecurityWorkflow.steps s !! i = Some step0 ->
    same_policy step0 st ->
    Forall (iter_entry s i step0) new1 ->
    iteration_outcome i step0 (SecurityWorkflow.results s) (inr tt)
      (chronological new1) st res ->
    loop_run rest (during s i st res) r new2 s' ->
    loop_run (i :: rest) s r (new2 ++ new1) s'
| loop_abort i rest s step0 st res new1 e :
    SecurityWorkflow.steps s !! i = Some step0 ->
    same_policy step0 st ->
    Forall (iter_entry s i step0) new1 ->
    iteration_outcome i step0 (SecurityWorkflow.results s) (inl e)
      (chronological new1) st res ->
    loop_run (i :: rest) s (inl e) new1 (during s i st res).

(** The events [execute] produces outside the loop. *)
Definition workflow_event (ev : Event) : Prop :=
  match ev with
  | CreateContext _ | AuditEvent _ _ _ => True
  | _ => False
  end.

(** An entry made outside the loop, while the steps and the results are
    those of [s]. *)
Definition workflow_entry (s : SecurityWorkflow.t) (e : Entry) : Prop :=
  workflow_event (event e)
  /\ SecurityWorkflow.steps (at_state e) = SecurityWorkflow.steps s
  /\ SecurityWorkflow.results (at_state e) = SecurityWorkflow.results s.

(** [execute_run s r new s']: a run of [execute] from [s].  Either the loop
    is not entered (the context store or the [workflow_started] event
    failed), or the loop runs, between entries made before and after it. *)
Inductive execute_run (s : SecurityWorkflow.t)
    : Exn + ResultsView -> list Entry -> SecurityWorkflow.t -> Prop :=
| run_not_entered e new s' :
    Forall (workflow_entry s) new ->
    SecurityWorkflow.steps s' = SecurityWorkflow.steps s ->
    SecurityWorkflow.results s' = SecurityWorkflow.results s ->
    SecurityWorkflow.status s' = WorkflowStatus.FAILED ->
    execute_run s (inl e) new s'
| run_loop s1 r_loop new_pre new_loop new_post s2 r s' :
    SecurityWorkflow.steps s1 = SecurityWorkflow.steps s ->
    SecurityWorkflow.results s1 = SecurityWorkflow.results s ->
    Forall (workflow_entry s) new_pre ->
    loop_run (seq 0 (length (SecurityWorkflow.steps s))) s1 r_loop new_loop s2 ->
    Forall (workflow_entry s2) new_post ->
    SecurityWorkflow.steps s' = SecurityWorkflow.steps s2 ->
    SecurityWorkflow.results s' = SecurityWorkflow.results s2 ->
    SecurityWorkflow.status s'
      = (if r is inr _ then WorkflowStatus.COMPLETED else WorkflowStatus.FAILED) ->
    (raises r_loop -> raises r) ->
    (forall view, r = inr view -> view = get_results s') ->
    execute_run s r (new_post ++ new_loop ++ new_pre) s'.

(** ** A refused context update *)

(** The moment the context store is called for step [i]: the step is
    Completed and its result is stored under its name. *)
Definition stored_and_completed (s : SecurityWorkflow.t) (v : Result) : Prop :=
  exists step,
    SecurityWorkflow.steps s !! SecurityWorkflow.current_step s = Some step
    /\ WorkflowStep.status step = WorkflowStepStatus.COMPLETED
    /\ SecurityWorkflow.results s !! WorkflowStep.name step = Some v.

(** What a refused update for step [i] leaves behind. *)
Definition failed_by_store (s : SecurityWorkflow.t) (evs : list Event)
    (key : string) (v : Result) (m : string) : Prop :=
  exists i step,
    SecurityWorkflow.steps s !! i = Some step
    /\ WorkflowStep.status step = WorkflowStepStatus.FAILED
    /\ WorkflowStep.error step = Some ("Context update failed: " +:+ m)
    /\ WorkflowStep.result step = Some v
    /\ SecurityWorkflow.results s !! WorkflowStep.name step = Some v
    /\ key = "step_" +:+ str_nat i +:+ "_result"
    /\ cleanup_calls evs = cleanup_of i step.

Definition refusing_store : ContextManager :=
  mkContextManager (fun _ => None) (fun _ => Some "store down").
(** One step whose tool succeeds, with a cleanup hook, and a context store
    that refuses every update. *)
Definition store_failure_world : World :=
  fresh (example_workflow
           [WorkflowStep.init "scan" succeeding_tool [] [] 3 300
              (Some (fun _ => None))]
           refusing_store quiet_logging).

(** ** Properties of every entry of a run *)

(** [G] holds of the steps, the results and the event of an entry. *)
Definition holds_at
    (G : list WorkflowStep.t -> gmap string Result -> Event -> Prop)
    (e : Entry) : Prop :=
  G (SecurityWorkflow.steps (at_state e)) (SecurityWorkflow.results (at_state e))
    (event e).

(** ** Status transitions *)

(** The status of step [i] in the workflow object [s]. *)
Definition status_before (s : SecurityWorkflow.t) (i : nat)
    : option WorkflowStepStatus.t :=
  WorkflowStep.status <$> SecurityWorkflow.steps s !! i.

(** Pending to Running, Running to Completed, Running to Failed, Pending to
    Skipped. *)
Definition claimed_transition (old new : WorkflowStepStatus.t) : bool :=
  match old, new with
  | WorkflowStepStatus.PENDING, WorkflowStepStatus.RUNNING
  | WorkflowStepStatus.RUNNING, WorkflowStepStatus.COMPLETED
  | WorkflowStepStatus.RUNNING, WorkflowStepStatus.FAILED
  | WorkflowStepStatus.PENDING, WorkflowStepStatus.SKIPPED => true
  | _, _ => false
  end.

(** The same, and Completed to Failed. *)
Definition settled_transition (old new : WorkflowStepStatus.t) : bool :=
  match old, new with
  | WorkflowStepStatus.COMPLETED, WorkflowStepStatus.FAILED => true
  | _, _ => claimed_transition old new
  end.

(** The same, and Pending to Failed. *)
Definition permitted_transition (old new : WorkflowStepStatus.t) : bool :=
  match old, new with
  | WorkflowStepStatus.PENDING, WorkflowStepStatus.FAILED => true
  | _, _ => settled_transition old new
  end.

(** Whatever a condition predicate of a step of [l] raises satisfies [P]. *)
Definition gates_raise_only (P : Exn -> Prop) (l : list WorkflowStep.t) : Prop :=
  forall step cond t e,
    step ∈ l -> cond ∈ WorkflowStep.conditions step -> cond t = inl e -> P e.

(** No condition predicate of a step of [l] ever raises. *)
Definition gates_return (l : list WorkflowStep.t) : Prop :=
  gates_raise_only (fun _ => False) l.

(** No condition predicate of a step of [l] raises an exception whose
    message is empty. *)
Definition gates_explain (l : list WorkflowStep.t) : Prop :=
  gates_raise_only (fun e => str e <> "") l.

(** An entry respects [allowed]: if its event is an assignment to a step's
    status that changes the status, the change is in [allowed]. *)
Definition assignment_within
    (allowed : WorkflowStepStatus.t -> WorkflowStepStatus.t -> bool)
    (e : Entry) : bool :=
  match event e with
  | StatusSet i new =>
      match status_before (at_state e) i with
      | Some old => bool_decide (old = new) || allowed old new
      | None => false
      end
  | _ => true
  end.

(** Every step is Pending, as [WorkflowStep.__init__] leaves it. *)
Definition all_pending (s : SecurityWorkflow.t) : Prop :=
  Forall (fun step => WorkflowStep.status step = WorkflowStepStatus.PENDING)
         (SecurityWorkflow.steps s).

(** What holds while the loop still has the steps [indices] ahead. *)
Definition pending_ahead (indices : list nat) (l : list WorkflowStep.t)
    (res : gmap string Result) : Prop :=
  NoDup indices
  /\ forall i step, i ∈ indices -> l !! i = Some step ->
                    WorkflowStep.status step = WorkflowStepStatus.PENDING.

Definition assignment_allowed
    (allowed : WorkflowStepStatus.t -> WorkflowStepStatus.t -> bool)
    (l : list WorkflowStep.t) (res : gmap string Result) (ev : Event) : Prop :=
  match ev with
  | StatusSet i new =>
      exists step, l !! i = Some step
                   /\ (WorkflowStep.status step = new
                       \/ allowed (WorkflowStep.status step) new = true)
  | _ => True
  end.

(** The transitions of a run: those of [permitted_transition], and
    those of [settled_transition] when no condition predicate raises. *)
Definition transitions (quiet_gates : bool)
    : WorkflowStepStatus.t -> WorkflowStepStatus.t -> bool :=
  if quiet_gates then settled_transition else permitted_transition.

(** One step with a cleanup hook, gated by a predicate that raises an
    exception whose message is empty and by one that is false. *)
Definition raising_gate_step : WorkflowStep.t :=
  WorkflowStep.init "probe" succeeding_tool []
    [(fun _ => inl (mkExn OtherError "")); (fun _ => inr false)] 3 300
    (Some (fun _ => None)).
Definition raising_gate_world : World :=
  fresh (example_workflow [raising_gate_step] sound_store quiet_logging).

(** One step gated by a predicate that raises an exception with a
    message. *)
Definition speaking_gate : Condition :=
  fun _ => inl (mkExn OtherError "probe unreachable").
Definition speaking_gate_world : World :=
  fresh (example_workflow
           [WorkflowStep.init "probe" failing_tool [] [speaking_gate] 2 300
              (Some (fun _ => None))]
           sound_store quiet_logging).

(** ** Failed steps and their errors *)

(** A Failed step has an error message that is not empty. *)
Definition error_reported (step : WorkflowStep.t) : bool :=
  match WorkflowStep.status step with
  | WorkflowStepStatus.FAILED =>
      match WorkflowStep.error step with
      | Some m => negb (String.eqb m "")
      | None => false
      end
  | _ => true
  end.

Definition errors_reported (s : SecurityWorkflow.t) : bool :=
  forallb error_reported (SecurityWorkflow.steps s).

(** The events at which the engine hands control to code that can look at
    the workflow object: a tool call and a sleep (the event loop runs other
    tasks), a condition, a cleanup hook, the context store.  The audit
    logger and the module logger are handed a dictionary or a string and
    return without suspending ([LoggingService.log_audit_event] awaits
    nothing); a status assignment is not a call. *)
Definition hands_over (ev : Event) : bool :=
  match ev with
  | ToolExecute _ _ _ | Sleep _ | ConditionCall _ _ | CleanupCall _ _
  | CreateContext _ | UpdateContext _ _ _ => true
  | AuditEvent _ _ _ | LoggerError _ | StatusSet _ _ => false
  end.

(** In a run of [m] from [w], no Failed step is without a message when
    control is handed over, nor at the end. *)
Definition failures_explained {A} (m : M A) (w : World) : Prop :=
  forallb (fun e => implb (hands_over (event e)) (errors_reported (at_state e)))
          (new_entries m w) = true
  /\ errors_reported (final m w) = true.

(** The same as a property of the steps at an event. *)
Definition explained_at (l : list WorkflowStep.t) (res : gmap string Result)
    (ev : Event) : Prop :=
  hands_over ev = true -> forallb error_reported l = true.

(** ** Results and statuses *)

(** The error of the step is the context store's refusal. *)
Definition store_refused (step : WorkflowStep.t) : bool :=
  match WorkflowStep.error step with
  | Some m => String.prefix "Context update failed: " m
  | None => false
  end.

Definition has_entry (res : gmap string Result) (step : WorkflowStep.t) : bool :=
  bool_decide (is_Some (res !! WorkflowStep.name step)).

(** What the claim asks of a step and the results: an entry if the step is
    Completed, none if it is Failed, Skipped or Pending. *)
Definition entry_exact (res : gmap string Result) (step : WorkflowStep.t) : bool :=
  match WorkflowStep.status step with
  | WorkflowStepStatus.COMPLETED => has_entry res step
  | WorkflowStepStatus.FAILED | WorkflowStepStatus.SKIPPED
  | WorkflowStepStatus.PENDING => negb (has_entry res step)
  | WorkflowStepStatus.RUNNING => true
  end.

Definition results_exact (s : SecurityWorkflow.t) : bool :=
  forallb (entry_exact (SecurityWorkflow.results s)) (SecurityWorkflow.steps s).

(** What the code keeps at every moment: no entry for a step that is
    Pending, Running or Skipped, and an entry for a Failed step only if
    its error is the context store's refusal. *)
Definition entry_sound (res : gmap string Result) (step : WorkflowStep.t) : bool :=
  match WorkflowStep.status step with
  | WorkflowStepStatus.PENDING | WorkflowStepStatus.RUNNING
  | WorkflowStepStatus.SKIPPED => negb (has_entry res step)
  | WorkflowStepStatus.COMPLETED => true
  | WorkflowStepStatus.FAILED => implb (has_entry res step) (store_refused step)
  end.

Definition results_sound (s : SecurityWorkflow.t) : bool :=
  forallb (entry_sound (SecurityWorkflow.results s)) (SecurityWorkflow.steps s).

(** What the code has when [execute] ends: the entry of a Completed step
    is its result. *)
Definition entry_complete (res : gmap string Result) (step : WorkflowStep.t) : bool :=
  match WorkflowStep.status step with
  | WorkflowStepStatus.COMPLETED =>
      has_entry res step
      && bool_decide (res !! WorkflowStep.name step = WorkflowStep.result step)
  | _ => true
  end.

Definition results_complete (s : SecurityWorkflow.t) : bool :=
  forallb (entry_complete (SecurityWorkflow.results s)) (SecurityWorkflow.steps s).

(** A workflow as [__init__] leaves it, with steps of distinct names. *)
Definition as_constructed (s : SecurityWorkflow.t) : Prop :=
  all_pending s
  /\ NoDup (WorkflowStep.name <$> SecurityWorkflow.steps s)
  /\ SecurityWorkflow.results s = ∅.

(** The steps the loop has dealt with, the step it is at and the steps
    ahead, when it is at step [k]; [broken] when the iteration for step [k]
    has raised. *)
Definition done_ok (res : gmap string Result) (step : WorkflowStep.t) : Prop :=
  (WorkflowStep.status step = WorkflowStepStatus.COMPLETED
   /\ is_Some (WorkflowStep.result step)
   /\ res !! WorkflowStep.name step = WorkflowStep.result step)
  \/ (WorkflowStep.status step = WorkflowStepStatus.SKIPPED
      /\ res !! WorkflowStep.name step = None).

Definition pending_ok (res : gmap string Result) (step : WorkflowStep.t) : Prop :=
  WorkflowStep.status step = WorkflowStepStatus.PENDING
  /\ res !! WorkflowStep.name step = None.

Definition failed_ok (res : gmap string Result) (step : WorkflowStep.t) : Prop :=
  WorkflowStep.status step = WorkflowStepStatus.FAILED
  /\ (res !! WorkflowStep.name step = None \/ store_refused step = true).

Definition current_ok (broken : bool) (res : gmap string Result)
    (step : WorkflowStep.t) : Prop :=
  if broken then failed_ok res step else pending_ok res step.

Definition profile (k : nat) (broken : bool) (l : list WorkflowStep.t)
    (res : gmap string Result) : Prop :=
  NoDup (WorkflowStep.name <$> l)
  /\ forall j step,
       l !! j = Some step ->
       ((j < k)%nat -> done_ok res step)
       /\ (j = k -> current_ok broken res step)
       /\ ((k < j)%nat -> pending_ok res step).

Definition loop_at (indices : list nat) (l : list WorkflowStep.t)
    (res : gmap string Result) : Prop :=
  exists k, indices = seq k (length l - k) /\ profile k false l res.

Definition loop_broken (l : list WorkflowStep.t) (res : gmap string Result) : Prop :=
  exists k, profile k true l res.

Definition sound_at (l : list WorkflowStep.t) (res : gmap string Result)
    (ev : Event) : Prop :=
  forallb (entry_sound res) l = true.

(** The results during the iteration for [step0]: those it started with,
    perhaps with an entry for [step0]. *)
Definition results_of_iteration (step0 : WorkflowStep.t)
    (res res1 : gmap string Result) : Prop :=
  res1 = res \/ exists v, res1 = <[WorkflowStep.name step0 := v]> res.

(** ** Failures of the audit sink *)

(** The audit logger refused a [step_started] or a [step_failed] event. *)
Definition refused_step_event (ev : Event) : bool :=
  match ev with
  | AuditEvent action _ (Some _) =>
      String.eqb action "step_started" || String.eqb action "step_failed"
  | _ => false
  end.

Definition contained (e : Entry) : Prop := refused_step_event (event e) = false.

(** The step the loop is at is Failed. *)
Definition current_step_failed (s : SecurityWorkflow.t) : Prop :=
  exists step,
    SecurityWorkflow.steps s !! SecurityWorkflow.current_step s = Some step
    /\ WorkflowStep.status step = WorkflowStepStatus.FAILED.

(** The same workflow with an audit logger that accepts every event. *)
Definition with_working_sink (w : World) : World :=
  let s := wf w in
  mkWorld
    (SecurityWorkflow.mk
       (SecurityWorkflow.workflow_id s) (SecurityWorkflow.name s)
       (SecurityWorkflow.description s) (SecurityWorkflow.steps s)
       (SecurityWorkflow.context_manager s)
       (mkLoggingService
          (enable_audit_log (SecurityWorkflow.logging_service s))
          (fun _ _ => None))
       (SecurityWorkflow.security_level s) (SecurityWorkflow.status s)
       (SecurityWorkflow.current_step s) (SecurityWorkflow.start_time s)
       (SecurityWorkflow.end_time s) (SecurityWorkflow.results s))
    (trace w).

(** The outcome of a run of [execute]: whether it raised, the status of the
    workflow, the statuses of the steps and the number of tool calls. *)
Definition execution_outcome (w : World)
    : bool * WorkflowStatus.t * list WorkflowStepStatus.t * nat :=
  (if outcome execute w is inl _ then true else false,
   SecurityWorkflow.status (final execute w),
   map WorkflowStep.status (SecurityWorkflow.steps (final execute w)),
   invocations (events execute w)).

(** What the claim asks: with the audit logger the workflow has, the
    outcome is the one it has with an audit logger that accepts every
    event. *)
Definition sink_failures_contained (w : World) : Prop :=
  execution_outcome w = execution_outcome (with_working_sink w).

(** An audit logger that refuses the [step_started] events. *)
Definition refusing_sink : LoggingService :=
  mkLoggingService true
    (fun _ action =>
       if String.eqb action "step_started" then Some "disk full" else None).

(** One step whose tool succeeds, and an audit logger that refuses the
    [step_started] events. *)
Definition sink_failure_world : World :=
  fresh (example_workflow [example_step "scan" succeeding_tool 3]
           sound_store refusing_sink).

Definition contained_if_returned {A} (r : Exn + A) (new : list Entry) : Prop :=
  match r with inr _ => Forall contained new | inl _ => True end.

(** ** A paused workflow *)

(** A tool whose result tells when it was called. *)
Definition clock_tool : BaseTool := fun t _ => inr [("finished_at", str_nat t)].

Definition two_step_workflow : SecurityWorkflow.t :=
  example_workflow
    [example_step "first" clock_tool 3; example_step "second" clock_tool 3]
    sound_store quiet_logging.

(** The workflow above, paused while the tool of its second step is
    awaited: the first step is Completed and its result is in the results,
    the second step is Running. *)
Definition paused_workflow : SecurityWorkflow.t :=
  SecurityWorkflow.mk "wf-1" "assessment" "example"
    [WorkflowStep.mk "first" clock_tool [] [] 3 300 None
       WorkflowStepStatus.COMPLETED (Some [("finished_at", "4")]) None
       (Some 2%nat) (Some 6%nat);
     WorkflowStep.mk "second" clock_tool [] [] 3 300 None
       WorkflowStepStatus.RUNNING None None (Some 8%nat) None]
    sound_store quiet_logging SecurityLevel.HIGH WorkflowStatus.PAUSED 1%nat
    (Some 0%nat) None {["first" := [("finished_at", "4")]]}.

Definition paused_world : World := mkWorld paused_workflow [].

(** The entry of the call of the tool of step [i]. *)
Definition tool_call_entry (i : nat) (entries : list Entry) : option Entry :=
  find (fun e => is_tool_call_of i (event e)) entries.

(** The audit events of the step called [name]. *)
Definition is_audit_of_step (name : string) (ev : Event) : bool :=
  match ev with
  | AuditEvent _ (("step_name", DStr n) :: _) _ => String.eqb n name
  | _ => false
  end.

(** The outcome of a call of [log_audit_event] whose failure was [failure]. *)
Definition audit_outcome (failure : option string) : Exn + unit :=
  match failure with
  | Some m => inl (mkExn LoggingError ("Failed to log audit event: " +:+ m))
  | None => inr tt
  end.

Definition cancelled_event (s : SecurityWorkflow.t) (failure : option string) : Event :=
  AuditEvent "workflow_cancelled"
    [("name", DStr (SecurityWorkflow.name s));
     ("step", DInt (Z.of_nat (SecurityWorkflow.current_step s)))]
    failure.

(** The audit logger of [s] accepts every event. *)
Definition sink_accepts (s : SecurityWorkflow.t) : Prop :=
  forall t action,
    audit_failure (SecurityWorkflow.logging_service s) t action = None.

(** The step after [_execute_step] has run out of attempts at time [t']
    with the last error [last_error], having started at time [t]. *)
Definition exhausted (t t' : Time) (last_error : option string)
    (step : WorkflowStep.t) : WorkflowStep.t :=
  WorkflowStep.set_error last_error
    (WorkflowStep.set_end_time (Some t')
       (WorkflowStep.set_status WorkflowStepStatus.FAILED
          (WorkflowStep.set_status WorkflowStepStatus.RUNNING
             (WorkflowStep.set_start_time (Some t) step)))).

(** [last_error] after a failed attempt: the two [except] clauses of the
    retry loop. *)
Definition failure_message (step : WorkflowStep.t) (e : Exn) : string :=
  match exn_class e with
  | TimeoutError =>
      "Step timed out after " +:+ str_int (WorkflowStep.timeout step) +:+ " seconds"
  | _ => str e
  end.

(** The step after a successful attempt that ended at time [t'] with the
    result [v], having started at time [t]. *)
Definition succeeded (t t' : Time) (v : Result) (step : WorkflowStep.t)
    : WorkflowStep.t :=
  WorkflowStep.set_result (Some v)
    (WorkflowStep.set_end_time (Some t')
       (WorkflowStep.set_status WorkflowStepStatus.COMPLETED
          (WorkflowStep.set_status WorkflowStepStatus.RUNNING
             (WorkflowStep.set_start_time (Some t) step)))).




(** The [workflow_failed] event of a run of [execute] on [s] that failed
    with the message [msg], and what [execute] then raises. *)
Definition failed_event (s : SecurityWorkflow.t) (step : nat) (msg : string)
    (failure : option string) : Event :=
  AuditEvent "workflow_failed"
    [("name", DStr (SecurityWorkflow.name s)); ("error", DStr msg);
     ("step", DInt (Z.of_nat step))]
    failure.

Definition failed_outcome {A} (msg : string) (failure : option string) : Exn + A :=
  match failure with
  | Some m => inl (mkExn LoggingError ("Failed to log audit event: " +:+ m))
  | None => inl (mkExn WorkflowError ("Workflow execution failed: " +:+ msg))
  end.

(** The context store creates the context of [s] whenever it is asked. *)
Definition store_creates (s : SecurityWorkflow.t) : Prop :=
  forall t, create_failure (SecurityWorkflow.context_manager s) t = None.

(** The step an event is about. *)
Definition step_of (ev : Event) : option nat :=
  match ev with
  | ToolExecute i _ _ | ConditionCall i _ | CleanupCall i _ | StatusSet i _ => Some i
  | _ => None
  end.

(** The steps a run deals with, in the order of its events. *)
Definition steps_touched (evs : list Event) : list nat := omap step_of evs.

(** The attempts step [j] of [s] is allowed. *)
Definition attempts_allowed (s : SecurityWorkflow.t) (j : nat) : nat :=
  match SecurityWorkflow.steps s !! j with
  | Some step => Z.to_nat (WorkflowStep.retry_count step)
  | None => 0
  end.

(** The step the loop stopped at is Failed, and [calls] are the calls of
    its cleanup hook: one if it has a hook, none otherwise. *)
Definition cleaned_up (s : SecurityWorkflow.t) (calls : list nat) : Prop :=
  exists step,
    SecurityWorkflow.steps s !! SecurityWorkflow.current_step s = Some step
    /\ WorkflowStep.status step = WorkflowStepStatus.FAILED
    /\ calls = cleanup_of (SecurityWorkflow.current_step s) step.

(** An update sent to the context store is the result of step [i], sent
    under the key of that step. *)
Definition update_of_step (s : SecurityWorkflow.t)
    (u : string * Result * option string) : Prop :=
  exists i step,
    u.1.1 = "step_" +:+ str_nat i +:+ "_result"
    /\ SecurityWorkflow.steps s !! i = Some step
    /\ WorkflowStep.result step = Some u.1.2.

(** The run returned. *)
Definition returns {A} (r : Exn + A) : Prop :=
  match r with inr _ => True | inl _ => False end.

(** What an event outside the steps is: the call that creates the context,
    or the action of an audit event. *)
Definition event_label (ev : Event) : string :=
  match ev with
  | AuditEvent action _ _ => action
  | CreateContext _ => "create_context"
  | _ => "other"
  end.

(** ** More example workflows *)

(** An audit logger that refuses every event. *)
Definition deaf_sink : LoggingService :=
  mkLoggingService true (fun _ _ => Some "disk full").

(** A paused workflow whose audit logger refuses every event. *)
Definition paused_unheard_world : World :=
  fresh (SecurityWorkflow.set_status WorkflowStatus.PAUSED
           (example_workflow [example_step "scan" succeeding_tool 3]
              sound_store deaf_sink)).

(** A Running workflow whose only step is still Pending. *)
Definition idle_world : World :=
  fresh (SecurityWorkflow.set_status WorkflowStatus.RUNNING
           (example_workflow
              [WorkflowStep.init "scan" succeeding_tool [] [] 3 300
                 (Some (fun _ => None))]
              sound_store quiet_logging)).

(** One step that is allowed no attempt. *)
Definition no_attempt_world : World :=
  fresh (example_workflow [example_step "scan" succeeding_tool 0]
           sound_store quiet_logging).

(** A tool that always times out, and one step that uses it. *)
Definition slow_tool : BaseTool := fun _ _ => inl (mkExn TimeoutError "").
Definition slow_world : World :=
  fresh (example_workflow [example_step "scan" slow_tool 2]
           sound_store quiet_logging).

(** A context store that cannot create a context. *)
Definition unreachable_store : ContextManager :=
  mkContextManager (fun _ => Some "store down") (fun _ => None).
Definition no_context_world : World :=
  fresh (example_workflow [example_step "scan" succeeding_tool 3]
           unreachable_store quiet_logging).

(** A workflow without steps. *)
Definition empty_world : World :=
  fresh (example_workflow [] sound_store quiet_logging).

(** ** A gated step in a run

    What a run of [execute] does about a step [i] whose condition
    predicates reach a false one. *)







(** * The context manager ([core/context_manager.py])

    [SecurityWorkflow.execute] calls [create_context] and
    [update_context] of this class; they call [get_context],
    [clear_context], [_add_security_context] and [_audit_log].  The memory
    service (Redis), the audit logger, the clock and the module logger are
    outside: their answers are given by the world. *)

Module ContextType.
Inductive t :=
| SECURITY_SCAN | THREAT_ANALYSIS | INCIDENT_RESPONSE | COMPLIANCE_CHECK
| VULNERABILITY_ASSESSMENT.
Definition value (c : t) : string :=
  match c with
  | SECURITY_SCAN => "security_scan"
  | THREAT_ANALYSIS => "threat_analysis"
  | INCIDENT_RESPONSE => "incident_response"
  | COMPLIANCE_CHECK => "compliance_check"
  | VULNERABILITY_ASSESSMENT => "vulnerability_assessment"
  end.
End ContextType.

Module Ctx.

(** ** Python values

    A context is a dictionary.  A naive [datetime] is the number of
    seconds since [datetime.min]; [VIso t] is the string
    [datetime.isoformat()] gives for the datetime [t]; [VStr] holds every
    other string.  A dictionary keeps its keys in insertion order. *)
#[local] Set Warnings "-register-all".
Inductive Value :=
| VNone
| VBool (b : bool)
| VInt (z : Z)
| VStr (s : string)
| VIso (t : Z)
| VList (l : list Value)
| VDict (d : list (string * Value))
| VMemory (session_id : string).   (* what [create_memory] returns *)

#[local] Set Warnings "+register-all".

Definition Dict := list (string * Value).

(** [d.get(k)] *)
Fixpoint dict_get (k : string) (d : Dict) : option Value :=
  match d with
  | [] => None
  | (k', v) :: d' => if String.eqb k k' then Some v else dict_get k d'
  end.

(** [d[k] = v]: an existing key keeps its place, a new one goes last. *)
Fixpoint dict_set (k : string) (v : Value) (d : Dict) : Dict :=
  match d with
  | [] => [(k, v)]
  | (k', v') :: d' =>
      if String.eqb k k' then (k', v) :: d' else (k', v') :: dict_set k v d'
  end.

(** [d.update(u)] *)
Definition dict_update (d u : Dict) : Dict :=
  fold_left (fun acc kv => dict_set kv.1 kv.2 acc) u d.

(** [k in d] *)
Definition dict_has (k : string) (d : Dict) : bool :=
  if dict_get k d is Some _ then true else false.

(** [list(d.keys())] *)
Definition dict_keys (d : Dict) : list string := map fst d.

(** The truth value of an optional dictionary: [None] and [{}] are false. *)
Definition truthy (o : option Dict) : bool :=
  match o with
  | Some (_ :: _) => true
  | _ => false
  end.

(** [x or default] for an optional string: [None] and [""] give the default. *)
Definition str_or (x : option string) (default : string) : string :=
  match x with
  | Some (String c s) => String c s
  | _ => default
  end.

(** [v in [SecurityLevel.HIGH.value, SecurityLevel.CRITICAL.value]] *)
Definition is_high_or_critical (v : option Value) : bool :=
  match v with
  | Some (VStr s) => String.eqb s "high" || String.eqb s "critical"
  | _ => false
  end.

(** ** The collaborators *)

(** [MemoryService]: the outcome of each call at the logical time [t]. *)
Record MemoryService := mkMemoryService {
  create_memory : nat -> string -> Exn + Value;
  get_session : nat -> string -> Exn + option Dict;
  update_session : nat -> string -> Dict -> option Exn;
  delete_session : nat -> string -> option Exn
}.

(** What the interpreter says when an operation does not apply: the
    message of the [TypeError] or [ValueError] of
    [datetime.fromisoformat(v)], of the [AttributeError] of [v.update], and
    of the [OverflowError] of [t + timedelta(seconds=ttl)]. *)
Record Interpreter := mkInterpreter {
  fromisoformat_error : Value -> string;
  no_update_error : Value -> string;
  overflow_error : Z -> Z -> string
}.

(** [datetime.max], the last second of the year 9999. *)
Definition datetime_max : Z := 315537897599.

(** [t] is a [datetime]. *)
Definition representable (t : Z) : bool := (0 <=? t) && (t <=? datetime_max).

(** [str(KeyError(k))] for a key without quotes or escapes. *)
Definition key_error (k : string) : Exn :=
  mkExn OtherError ("'" +:+ k +:+ "'").

(** ** The object *)

Record t := mk {
  memory_service : MemoryService;
  logging_service : option LoggingService;
  context_ttl : Z;
  active_contexts : gmap string Dict;
  security_contexts : gmap string (gset string)
}.

(** [ContextManager.__init__] *)
Definition init (memory_service : MemoryService)
    (logging_service : option LoggingService) (context_ttl : Z) : t :=
  mk memory_service logging_service context_ttl ∅ ∅.

Definition set_active_contexts (v : gmap string Dict) (s : t) : t :=
  mk (memory_service s) (logging_service s) (context_ttl s) v (security_contexts s).
Definition set_security_contexts (v : gmap string (gset string)) (s : t) : t :=
  mk (memory_service s) (logging_service s) (context_ttl s) (active_contexts s) v.

(** ** Events and worlds *)

Inductive Event :=
| CreateMemory (session_id : string) (outcome : Exn + Value)
| GetSession (session_id : string) (outcome : Exn + option Dict)
| UpdateSession (session_id : string) (data : Dict) (failure : option Exn)
| DeleteSession (session_id : string) (failure : option Exn)
| AuditEvent (session_id action : string) (details : Dict) (failure : option string)
| LoggerError (msg : string).

(** The manager, the calls made so far (newest first), the clock (the
    [k]-th reading of [datetime.utcnow()] is [clock k]) and the number of
    readings so far. *)
Record World := mkWorld {
  self : t;
  trace : list Event;
  clock : nat -> Z;
  readings : nat;
  interpreter : Interpreter
}.

Definition M (A : Type) : Type := World -> (Exn + A) * World.

Definition ret {A} (a : A) : M A := fun w => (inr a, w).
Definition raise {A} (e : Exn) : M A := fun w => (inl e, w).
Definition bind {A B} (m : M A) (k : A -> M B) : M B :=
  fun w => match m w with
           | (inr a, w') => k a w'
           | (inl e, w') => (inl e, w')
           end.
(** [try: m except Exception as e: h e] *)
Definition try_except {A} (m : M A) (h : Exn -> M A) : M A :=
  fun w => match m w with
           | (inl e, w') => h e w'
           | r => r
           end.

Declare Scope ctx_scope.
Delimit Scope ctx_scope with ctx.
Notation "x <- m ;; k" := (bind m (fun x => k))
  (at level 100, m at next level, right associativity) : ctx_scope.
Notation "m ;; k" := (bind m (fun _ => k))
  (at level 100, right associativity) : ctx_scope.
Local Open Scope ctx_scope.

Definition get : M t := fun w => (inr (self w), w).
Definition modify (f : t -> t) : M unit :=
  fun w => (inr tt, mkWorld (f (self w)) (trace w) (clock w) (readings w)
                      (interpreter w)).
Definition now : M nat := fun w => (inr (length (trace w)), w).
Definition emit (ev : Event) : M unit :=
  fun w => (inr tt, mkWorld (self w) (ev :: trace w) (clock w) (readings w)
                      (interpreter w)).
(** [datetime.utcnow()], in seconds *)
Definition utcnow : M Z :=
  fun w => (inr (clock w (readings w)),
            mkWorld (self w) (trace w) (clock w) (S (readings w)) (interpreter w)).
Definition interp : M Interpreter := fun w => (inr (interpreter w), w).

(** [t + timedelta(seconds=ttl)]: Python raises [OverflowError] when the
    sum is not a [datetime]. *)
Definition add_seconds (t ttl : Z) : M Z :=
  if representable (t + ttl) then ret (t + ttl)
  else
    py <- interp ;;
    raise (mkExn OtherError (overflow_error py t ttl)).

(** [logger.error(msg)] *)
Definition logger_error (msg : string) : M unit := emit (LoggerError msg).

(** ** Calls that leave the manager *)

Definition call_create_memory (session_id : string) : M Value :=
  s <- get ;;
  t <- now ;;
  let outcome := create_memory (memory_service s) t session_id in
  emit (CreateMemory session_id outcome) ;;
  match outcome with inl e => raise e | inr v => ret v end.

Definition call_get_session (session_id : string) : M (option Dict) :=
  s <- get ;;
  t <- now ;;
  let outcome := get_session (memory_service s) t session_id in
  emit (GetSession session_id outcome) ;;
  match outcome with inl e => raise e | inr v => ret v end.

Definition call_update_session (session_id : string) (data : Dict) : M unit :=
  s <- get ;;
  t <- now ;;
  let failure := update_session (memory_service s) t session_id data in
  emit (UpdateSession session_id data failure) ;;
  match failure with Some e => raise e | None => ret tt end.

Definition call_delete_session (session_id : string) : M unit :=
  s <- get ;;
  t <- now ;;
  let failure := delete_session (memory_service s) t session_id in
  emit (DeleteSession session_id failure) ;;
  match failure with Some e => raise e | None => ret tt end.

(** [LoggingService.log_audit_event]: a failure is re-raised as
    [LoggingError("Failed to log audit event: ...")]; nothing is logged
    when audit logging is disabled. *)
Definition log_audit_event (ls : LoggingService) (session_id action : string)
    (details : Dict) : M unit :=
  t <- now ;;
  let failure := if enable_audit_log ls then audit_logger ls t action else None in
  emit (AuditEvent session_id action details failure) ;;
  match failure with
  | Some m => raise (mkExn LoggingError ("Failed to log audit event: " +:+ m))
  | None => ret tt
  end.

(** ** The methods *)

(** [_audit_log]: [if self.logging_service: await ...log_audit_event(...)] *)
Definition _audit_log (session_id action : string) (details : Dict) : M unit :=
  s <- get ;;
  match logging_service s with
  | Some ls => log_audit_event ls session_id action details
  | None => ret tt
  end.

(** [_add_security_context] *)
Definition _add_security_context (session_id : string) : M unit :=
  s <- get ;;
  if decide (session_id ∈ dom (security_contexts s)) then ret tt
  else modify (set_security_contexts (<[session_id := ∅]> (security_contexts s))).

(** [_validate_security_context]: [pass] *)
Definition _validate_security_context (session_id : string) : M unit := ret tt.

(** [self.active_contexts[session_id] = context] *)
Definition store_active (session_id : string) (context : Dict) : M unit :=
  modify (fun s =>
    set_active_contexts (<[session_id := context]> (active_contexts s)) s).

(** The dictionary [create_context] builds. *)
Definition new_context (session_id : string) (context_type : ContextType.t)
    (security_level : SecurityLevel.t) (metadata : option Dict)
    (created_at last_updated expiry : Z) (memory : Value) : Dict :=
  [("session_id", VStr session_id);
   ("context_type", VStr (ContextType.value context_type));
   ("security_level", VStr (SecurityLevel.value security_level));
   ("created_at", VIso created_at);
   ("last_updated", VIso last_updated);
   ("expiry", VIso expiry);
   ("state", VDict [("status", VStr "initialized"); ("phase", VStr "setup");
                    ("artifacts", VList []); ("findings", VList []);
                    ("alerts", VList [])]);
   ("metadata", VDict (if truthy metadata then default [] metadata else []));
   ("memory", memory)].

Definition create_context (session_id : string) (context_type : ContextType.t)
    (security_level : SecurityLevel.t) (metadata : option Dict) : M Dict :=
  try_except
    (s <- get ;;
     t1 <- utcnow ;;
     t2 <- utcnow ;;
     t3 <- utcnow ;;
     expiry <- add_seconds t3 (context_ttl s) ;;
     memory <- call_create_memory session_id ;;
     let context :=
       new_context session_id context_type security_level metadata
         t1 t2 expiry memory in
     store_active session_id context ;;
     (match security_level with
      | SecurityLevel.HIGH | SecurityLevel.CRITICAL =>
          _add_security_context session_id
      | _ => ret tt
      end) ;;
     _audit_log session_id "context_created"
       [("context_type", VStr (ContextType.value context_type));
        ("security_level", VStr (SecurityLevel.value security_level))] ;;
     ret context)
    (fun e =>
       logger_error ("Failed to create context for session " +:+ session_id
                     +:+ ": " +:+ str e) ;;
       raise (mkExn ContextError ("Context creation failed: " +:+ str e))).

Definition clear_context (session_id : string) (audit_reason : option string)
    : M unit :=
  try_except
    (modify (fun s =>
       set_active_contexts (delete session_id (active_contexts s)) s) ;;
     (* [.clear()] empties the set before the key is deleted *)
     modify (fun s =>
       set_security_contexts (delete session_id (security_contexts s)) s) ;;
     call_delete_session session_id ;;
     _audit_log session_id "context_cleared"
       [("reason", VStr (str_or audit_reason "session_ended"))])
    (fun e =>
       logger_error ("Failed to clear context for session " +:+ session_id
                     +:+ ": " +:+ str e) ;;
       raise (mkExn ContextError ("Context clearing failed: " +:+ str e))).

(** [datetime.fromisoformat(context["expiry"])] *)
Definition expiry_of (context : Dict) : M Z :=
  match dict_get "expiry" context with
  | None => raise (key_error "expiry")
  | Some (VIso t) => ret t
  | Some v =>
      py <- interp ;;
      raise (mkExn OtherError (fromisoformat_error py v))
  end.

Definition get_context (session_id : string) (validate_security : bool)
    : M (option Dict) :=
  try_except
    (s <- get ;;
     let found := active_contexts s !! session_id in
     context <-
       (if truthy found then ret found
        else
          stored_context <- call_get_session session_id ;;
          match stored_context with
          | Some (kv :: rest) =>
              let stored := kv :: rest in
              store_active session_id stored ;;
              (if is_high_or_critical (dict_get "security_level" stored)
               then _add_security_context session_id
               else ret tt) ;;
              ret (Some stored)
          | _ => ret found
          end) ;;
     match context with
     | Some (kv :: rest) =>
         let c := kv :: rest in
         expiry <- expiry_of c ;;
         t <- utcnow ;;
         if expiry <? t then
           clear_context session_id None ;;
           ret None
         else
           s <- get ;;
           (if validate_security
               && bool_decide (session_id ∈ dom (security_contexts s))
            then _validate_security_context session_id
            else ret tt) ;;
           t' <- utcnow ;;
           let c' := dict_set "last_updated" (VIso t') c in
           store_active session_id c' ;;
           ret (Some c')
     | _ => ret context
     end)
    (fun e =>
       logger_error ("Failed to get context for session " +:+ session_id
                     +:+ ": " +:+ str e) ;;
       raise (mkExn ContextError ("Context retrieval failed: " +:+ str e))).

(** [context["state"].update(updates)], and [context["state"]["phase"] =
    phase] if [phase] is a non-empty string. *)
Definition update_state (context updates : Dict) (phase : option string)
    : M Dict :=
  match dict_get "state" context with
  | None => raise (key_error "state")
  | Some (VDict state) =>
      let state1 := dict_update state updates in
      let state2 :=
        match phase with
        | Some (String c p) => dict_set "phase" (VStr (String c p)) state1
        | _ => state1
        end in
      ret (dict_set "state" (VDict state2) context)
  | Some v =>
      py <- interp ;;
      raise (mkExn OtherError (no_update_error py v))
  end.

Definition update_context (session_id : string) (updates : Dict)
    (phase : option string) : M Dict :=
  try_except
    (context <- get_context session_id true ;;
     match context with
     | Some (kv :: rest) =>
         c1 <- update_state (kv :: rest) updates phase ;;
         store_active session_id c1 ;;
         t1 <- utcnow ;;
         let c2 := dict_set "last_updated" (VIso t1) c1 in
         store_active session_id c2 ;;
         s <- get ;;
         t2 <- utcnow ;;
         expiry <- add_seconds t2 (context_ttl s) ;;
         let c3 := dict_set "expiry" (VIso expiry) c2 in
         store_active session_id c3 ;;
         call_update_session session_id c3 ;;
         (if dict_has "findings" updates || dict_has "alerts" updates
          then _audit_log session_id "context_updated"
                 [("updates", VList (map VStr (dict_keys updates)))]
          else ret tt) ;;
         ret c3
     | _ =>
         raise (mkExn ContextError
                  ("Context not found for session " +:+ session_id))
     end)
    (fun e =>
       logger_error ("Failed to update context for session " +:+ session_id
                     +:+ ": " +:+ str e) ;;
       raise (mkExn ContextError ("Context update failed: " +:+ str e))).

End Ctx.

(** ** Observing a call of the context manager *)

(** The audit logger of the manager accepts [action] at the logical time
    [t] (a manager without a logging service logs nothing). *)
Definition audit_accepted (s : Ctx.t) (t : nat) (action : string) : Prop :=
  forall ls, Ctx.logging_service s = Some ls -> audit_failure ls t action = None.

(** What a call returns or raises, and the manager it leaves. *)
Definition ctx_outcome {A} (m : Ctx.M A) (w : Ctx.World) : Exn + A := (m w).1.
Definition ctx_final {A} (m : Ctx.M A) (w : Ctx.World) : Ctx.t := Ctx.self (m w).2.

(** What the audit logger of the manager answers at the logical time [t]:
    nothing is refused without a logging service. *)
Definition manager_audit_failure (s : Ctx.t) (t : nat) (action : string)
    : option string :=
  match Ctx.logging_service s with
  | Some ls => audit_failure ls t action
  | None => None
  end.

(** How [clear_context] ends when the deletion in the memory service and
    the [context_cleared] event end with these failures. *)
Definition cleared (deletion : option Exn) (audit : option string) : Exn + unit :=
  match deletion, audit with
  | Some e, _ =>
      inl (mkExn ContextError ("Context clearing failed: " +:+ str e))
  | None, Some m =>
      inl (mkExn ContextError
             ("Context clearing failed: Failed to log audit event: " +:+ m))
  | None, None => inr tt
  end.

(** The context [update_context] leaves for a context [c] whose state is
    [state]: the state updated and the phase set, then [last_updated] and
    [expiry] set. *)
Definition updated_context (c state updates : Ctx.Dict) (phase : option string)
    (last_updated expiry : Z) : Ctx.Dict :=
  let state1 := Ctx.dict_update state updates in
  let state2 :=
    match phase with
    | Some (String a p) => Ctx.dict_set "phase" (Ctx.VStr (String a p)) state1
    | _ => state1
    end in
  Ctx.dict_set "expiry" (Ctx.VIso expiry)
    (Ctx.dict_set "last_updated" (Ctx.VIso last_updated)
       (Ctx.dict_set "state" (Ctx.VDict state2) c)).

(** The calls a run adds, oldest first. *)
Definition ctx_calls {A} (m : Ctx.M A) (w : Ctx.World) : list Ctx.Event :=
  rev (take (length (Ctx.trace (m w).2) - length (Ctx.trace w))
            (Ctx.trace (m w).2)).

(** The security contexts after [_add_security_context] for a session of
    the level [level]. *)
Definition tracked (level : SecurityLevel.t) (session_id : string)
    (sc : gmap string (gset string)) : gmap string (gset string) :=
  match level with
  | SecurityLevel.HIGH | SecurityLevel.CRITICAL =>
      if decide (session_id ∈ dom sc) then sc else <[session_id := ∅]> sc
  | _ => sc
  end.

(** The audit event of a manager with a logging service, none without. *)
Definition audited (s : Ctx.t) (ev : Ctx.Event) : list Ctx.Event :=
  if Ctx.logging_service s is Some _ then [ev] else [].

(** A context that is there: not [None] and not [{}]. *)
Definition present (c : Ctx.Dict) : Prop := Ctx.truthy (Some c) = true.

(** ** Example memory services and managers *)

(** A memory service that knows no session and accepts every call. *)
Definition blank_memory : Ctx.MemoryService :=
  Ctx.mkMemoryService
    (fun _ session_id => inr (Ctx.VMemory session_id))
    (fun _ _ => inr None)
    (fun _ _ _ => None)
    (fun _ _ => None).

(** A memory service that cannot reach its store: every call fails. *)
Definition lost_memory : Ctx.MemoryService :=
  Ctx.mkMemoryService
    (fun _ _ => inl (mkExn OtherError "Memory creation failed: connection refused"))
    (fun _ _ => inl (mkExn OtherError "Session retrieval failed: connection refused"))
    (fun _ _ _ => Some (mkExn OtherError "Session update failed: connection refused"))
    (fun _ _ => Some (mkExn OtherError "Session deletion failed: connection refused")).

(** The session data [MemoryService.create_memory] writes: it has no
    ["expiry"]. *)
Definition session_data : Ctx.Dict :=
  [("created_at", Ctx.VIso 0); ("last_access", Ctx.VIso 5);
   ("message_count", Ctx.VInt 0)].

(** A memory service that holds this session data for every session. *)
Definition stale_memory : Ctx.MemoryService :=
  Ctx.mkMemoryService
    (fun _ session_id => inr (Ctx.VMemory session_id))
    (fun _ _ => inr (Some session_data))
    (fun _ _ _ => None)
    (fun _ _ => None).

(** [type(v).__name__] *)
Definition type_name (v : Ctx.Value) : string :=
  match v with
  | Ctx.VNone => "NoneType"
  | Ctx.VBool _ => "bool"
  | Ctx.VInt _ => "int"
  | Ctx.VStr _ | Ctx.VIso _ => "str"
  | Ctx.VList _ => "list"
  | Ctx.VDict _ => "dict"
  | Ctx.VMemory _ => "ConversationBufferMemory"
  end.

(** The interpreter of the example worlds, with the messages of CPython
    (for strings without quotes or escapes). *)
Definition python : Ctx.Interpreter :=
  Ctx.mkInterpreter
    (fun v => match v with
              | Ctx.VStr s => "Invalid isoformat string: '" +:+ s +:+ "'"
              | _ => "fromisoformat: argument must be str"
              end)
    (fun v => "'" +:+ type_name v +:+ "' object has no attribute 'update'")
    (fun _ _ => "date value out of range").

(** A new manager whose contexts are to live longer than [datetime.max]
    allows. *)
Definition eternal_world : Ctx.World :=
  Ctx.mkWorld (Ctx.init blank_memory (Some quiet_logging) 400000000000) []
    Z.of_nat 0 python.

(** A new manager with a TTL of an hour, and a clock that advances a
    second at every reading. *)
Definition manager_world (memory_service : Ctx.MemoryService)
    (logging_service : option LoggingService) : Ctx.World :=
  Ctx.mkWorld (Ctx.init memory_service logging_service 3600) [] Z.of_nat 0 python.

Definition new_world : Ctx.World := manager_world blank_memory (Some quiet_logging).
Definition lost_world : Ctx.World := manager_world lost_memory (Some quiet_logging).
Definition unheard_world : Ctx.World := manager_world blank_memory (Some deaf_sink).
Definition stale_world : Ctx.World := manager_world stale_memory None.

(** The context [create_context] returns in [new_world]. *)
Definition scan_context : Ctx.Dict :=
  Ctx.new_context "s1" ContextType.SECURITY_SCAN SecurityLevel.HIGH None
    0 1 3602 (Ctx.VMemory "s1").

(** A manager that holds [context] for the session ["s1"], with the clock
    at [start]. *)
Definition active_world (memory_service : Ctx.MemoryService)
    (context : Ctx.Dict) (start : Z) : Ctx.World :=
  Ctx.mkWorld
    (Ctx.set_active_contexts {["s1" := context]}
       (Ctx.init memory_service (Some quiet_logging) 3600))
    [] (fun k => start + Z.of_nat k) 0 python.

(** A context without a state. *)
Definition bare_context : Ctx.Dict :=
  [("session_id", Ctx.VStr "s1"); ("expiry", Ctx.VIso 3602)].

(** * Reasoning about runs *)

Lemma wp_elim {A} (m : M A) Q (w : World) :
  wp m Q (wf w) (trace w) ->
  exists new, trace (m w).2 = new ++ trace w /\ Q (m w).1 new (wf (m w).2).
Proof. destruct w; exact id. Qed.

Lemma wp_intro {A} (m : M A) Q (w : World) new :
  trace (m w).2 = new ++ trace w ->
  Q (m w).1 new (wf (m w).2) ->
  wp m Q (wf w) (trace w).
Proof. destruct w; intros; exists new; auto. Qed.

Lemma wp_mono {A} (m : M A) (Q Q' : Exn + A -> list Entry -> SecurityWorkflow.t -> Prop) s tr :
  wp m Q s tr -> (forall r new s', Q r new s' -> Q' r new s') -> wp m Q' s tr.
Proof. intros (new & H1 & H2) H; exists new; auto. Qed.

Lemma wp_ret {A} (a : A) Q s tr : Q (inr a) [] s -> wp (ret a) Q s tr.
Proof. intros H; exists []; auto. Qed.

Lemma wp_raise {A} (e : Exn) (Q : Exn + A -> _) s tr :
  Q (inl e) [] s -> wp (raise e) Q s tr.
Proof. intros H; exists []; auto. Qed.

Lemma wp_get Q s tr : Q (inr s) [] s -> wp get Q s tr.
Proof. intros H; exists []; auto. Qed.

Lemma wp_modify f Q s tr : Q (inr tt) [] (f s) -> wp (modify f) Q s tr.
Proof. intros H; exists []; auto. Qed.

Lemma wp_now Q s tr : (forall t, Q (inr t) [] s) -> wp now Q s tr.
Proof. intros H; exists []; split; [reflexivity | apply H]. Qed.

Lemma wp_emit ev Q s tr : Q (inr tt) [mkEntry s ev] s -> wp (emit ev) Q s tr.
Proof. intros H; exists [mkEntry s ev]; auto. Qed.

Lemma wp_bind {A B} (m : M A) (k : A -> M B) Q s tr :
  wp m (fun r new1 s1 =>
          match r with
          | inr a => wp (k a) (fun r' new2 s2 => Q r' (new2 ++ new1) s2) s1 (new1 ++ tr)
          | inl e => Q (inl e) new1 s1
          end) s tr ->
  wp (bind m k) Q s tr.
Proof.
  intros (new1 & Htr & H). unfold wp, bind.
  destruct (m (mkWorld s tr)) as [[e|a] [s1 tr1]]; cbn in *; subst tr1.
  - exists new1; auto.
  - destruct H as (new2 & Htr2 & H). exists (new2 ++ new1).
    rewrite <- app_assoc; auto.
Qed.

Lemma wp_try_except {A} (m : M A) (h : Exn -> M A) Q s tr :
  wp m (fun r new1 s1 =>
          match r with
          | inl e => wp (h e) (fun r' new2 s2 => Q r' (new2 ++ new1) s2) s1 (new1 ++ tr)
          | inr a => Q (inr a) new1 s1
          end) s tr ->
  wp (try_except m h) Q s tr.
Proof.
  intros (new1 & Htr & H). unfold wp, try_except.
  destruct (m (mkWorld s tr)) as [[e|a] [s1 tr1]]; cbn in *; subst tr1.
  - destruct H as (new2 & Htr2 & H). exists (new2 ++ new1).
    rewrite <- app_assoc; auto.
  - exists new1; auto.
Qed.

(** Rules for the calls that leave the engine.  The logical time [t] of
    the call is arbitrary in the premise. *)

Lemma wp_create_context Q s tr :
  (forall t failure,
     create_failure (SecurityWorkflow.context_manager s) t = failure ->
     Q (match failure with
        | Some m => inl (mkExn ContextError ("Context creation failed: " +:+ m))
        | None => inr tt
        end)
       [mkEntry s (CreateContext failure)] s) ->
  wp create_context Q s tr.
Proof.
  intros H. unfold create_context.
  apply wp_bind, wp_get, wp_bind, wp_now; intros t. specialize (H t _ eq_refl).
  cbv zeta in *. apply wp_bind, wp_emit.
  destruct (create_failure _ _); [apply wp_raise | apply wp_ret]; exact H.
Qed.

Lemma wp_update_context key value Q s tr :
  (forall t failure,
     update_failure (SecurityWorkflow.context_manager s) t = failure ->
     Q (match failure with
        | Some m => inl (mkExn ContextError ("Context update failed: " +:+ m))
        | None => inr tt
        end)
       [mkEntry s (UpdateContext key value failure)] s) ->
  wp (update_context key value) Q s tr.
Proof.
  intros H. unfold update_context.
  apply wp_bind, wp_get, wp_bind, wp_now; intros t. specialize (H t _ eq_refl).
  cbv zeta in *. apply wp_bind, wp_emit.
  destruct (update_failure _ _); [apply wp_raise | apply wp_ret]; exact H.
Qed.

Lemma wp_log_audit_event action details Q s tr :
  (forall t failure,
     audit_failure (SecurityWorkflow.logging_service s) t action = failure ->
     Q (match failure with
        | Some m => inl (mkExn LoggingError ("Failed to log audit event: " +:+ m))
        | None => inr tt
        end)
       [mkEntry s (AuditEvent action details failure)] s) ->
  wp (log_audit_event action details) Q s tr.
Proof.
  intros H. unfold log_audit_event.
  apply wp_bind, wp_get, wp_bind, wp_now; intros t. specialize (H t _ eq_refl).
  unfold audit_failure in H. cbv zeta in *. apply wp_bind, wp_emit.
  destruct (if enable_audit_log _ then _ else _); [apply wp_raise | apply wp_ret];
    exact H.
Qed.

Lemma wp_call_condition i cond Q s tr :
  (forall t outcome,
     cond t = outcome -> Q outcome [mkEntry s (ConditionCall i outcome)] s) ->
  wp (call_condition i cond) Q s tr.
Proof.
  intros H. unfold call_condition.
  apply wp_bind, wp_now; intros t. specialize (H t _ eq_refl).
  cbv zeta in *. apply wp_bind, wp_emit.
  destruct (cond t); [apply wp_raise | apply wp_ret]; exact H.
Qed.

Lemma wp_call_cleanup i cleanup Q s tr :
  (forall t failure,
     cleanup t = failure ->
     Q (match failure with Some e => inl e | None => inr tt end)
       [mkEntry s (CleanupCall i failure)] s) ->
  wp (call_cleanup i cleanup) Q s tr.
Proof.
  intros H. unfold call_cleanup.
  apply wp_bind, wp_now; intros t. specialize (H t _ eq_refl). apply wp_bind, wp_emit.
  destruct (cleanup _); [apply wp_raise | apply wp_ret]; exact H.
Qed.

Lemma wp_wait_for_execute i step Q s tr :
  (forall t outcome,
     WorkflowStep.tool step t (WorkflowStep.params step) = outcome ->
     Q outcome [mkEntry s (ToolExecute i (WorkflowStep.params step) outcome)] s) ->
  wp (wait_for_execute i step) Q s tr.
Proof.
  intros H. unfold wait_for_execute.
  apply wp_bind, wp_now; intros t. specialize (H t _ eq_refl).
  cbv zeta in *. apply wp_bind, wp_emit.
  destruct (WorkflowStep.tool _ _ _); [apply wp_raise | apply wp_ret]; exact H.
Qed.

Lemma wp_get_step i Q s tr :
  match SecurityWorkflow.steps s !! i with
  | Some step => Q (inr step) [] s
  | None => Q (inl (mkExn IndexError "list index out of range")) [] s
  end ->
  wp (get_step i) Q s tr.
Proof.
  intros H. unfold get_step. apply wp_bind, wp_get.
  destruct (_ !! _); [apply wp_ret | apply wp_raise]; exact H.
Qed.

Lemma wp_set_step_status i v Q s tr :
  Q (inr tt) [mkEntry s (StatusSet i v)]
    (SecurityWorkflow.set_steps
       (alter (WorkflowStep.set_status v) i (SecurityWorkflow.steps s)) s) ->
  wp (set_step_status i v) Q s tr.
Proof.
  intros H. unfold set_step_status, modify_step.
  apply wp_bind, wp_emit, wp_modify. exact H.
Qed.

(** Reduce the field projections of updated workflow and step objects. *)
Ltac simpl_goal :=
  cbn [SecurityWorkflow.workflow_id SecurityWorkflow.name
       SecurityWorkflow.description SecurityWorkflow.steps
       SecurityWorkflow.context_manager SecurityWorkflow.logging_service
       SecurityWorkflow.security_level SecurityWorkflow.status
       SecurityWorkflow.current_step SecurityWorkflow.start_time
       SecurityWorkflow.end_time SecurityWorkflow.results
       SecurityWorkflow.set_steps SecurityWorkflow.set_status
       SecurityWorkflow.set_current_step SecurityWorkflow.set_start_time
       SecurityWorkflow.set_end_time SecurityWorkflow.set_results
       WorkflowStep.name WorkflowStep.tool WorkflowStep.params
       WorkflowStep.conditions WorkflowStep.retry_count WorkflowStep.timeout
       WorkflowStep.cleanup WorkflowStep.status WorkflowStep.result
       WorkflowStep.error WorkflowStep.start_time WorkflowStep.end_time
       WorkflowStep.set_status WorkflowStep.set_result WorkflowStep.set_error
       WorkflowStep.set_start_time WorkflowStep.set_end_time
       with_step during at_state event wf trace exn_class str fst snd app].


(** Introduce the time of a call and split by the collaborator's answer. *)
Ltac intro_answer :=
  let H := fresh "Hanswer" in
  intros ?t ?answer H;
  cbn [SecurityWorkflow.context_manager SecurityWorkflow.logging_service
       SecurityWorkflow.set_steps SecurityWorkflow.set_status
       SecurityWorkflow.set_current_step SecurityWorkflow.set_start_time
       SecurityWorkflow.set_end_time SecurityWorkflow.set_results
       WorkflowStep.tool WorkflowStep.params
       WorkflowStep.set_status WorkflowStep.set_result WorkflowStep.set_error
       WorkflowStep.set_start_time WorkflowStep.set_end_time with_step during] in H;
  match type of H with
  | _ = ?a => destruct a
  end.

(** One step of symbolic execution.  A call that leaves the engine splits
    the goal by the collaborator's answer at a fresh time. *)
Ltac wp_step :=
  lazymatch goal with
  | |- wp (bind _ _) _ _ _ => apply wp_bind
  | |- wp (try_except _ _) _ _ _ => apply wp_try_except
  | |- wp (ret _) _ _ _ => apply wp_ret
  | |- wp (raise _) _ _ _ => apply wp_raise
  | |- wp get _ _ _ => apply wp_get
  | |- wp (modify _) _ _ _ => apply wp_modify
  | |- wp now _ _ _ => apply wp_now; intros ?t
  | |- wp utcnow _ _ _ => apply wp_now; intros ?t
  | |- wp (emit _) _ _ _ => apply wp_emit
  | |- wp (sleep _) _ _ _ => apply wp_emit
  | |- wp (logger_error _) _ _ _ => apply wp_emit
  | |- wp (modify_step _ _) _ _ _ => apply wp_modify
  | |- wp (set_step_status _ _) _ _ _ => apply wp_set_step_status
  | |- wp create_context _ _ _ => apply wp_create_context; intro_answer
  | |- wp (update_context _ _) _ _ _ => apply wp_update_context; intro_answer
  | |- wp (log_audit_event _ _) _ _ _ => apply wp_log_audit_event; intro_answer
  | |- wp (call_condition _ _) _ _ _ =>
      apply wp_call_condition; intros ?t [?e|[|]] ?Hcond
  | |- wp (call_cleanup _ ?c) _ _ _ => apply wp_call_cleanup; intro_answer
  | |- wp (wait_for_execute _ _) _ _ _ => apply wp_wait_for_execute; intro_answer
  | |- wp (get_step _) _ _ _ => apply wp_get_step; simpl_goal
  | |- wp (attempt _) _ _ _ => unfold attempt
  | |- wp (run_attempts _ _) _ _ _ => unfold run_attempts
  | |- wp (attempt_cleanup _ _ _) _ _ _ => unfold attempt_cleanup
  | |- wp (if ?b then _ else _) _ _ _ => destruct b eqn:?
  | |- wp (match exn_class (mkExn _ _) with _ => _ end) _ _ _ => cbn [exn_class]
  | |- wp (match exn_class ?e with _ => _ end) _ _ _ => destruct (exn_class e) eqn:?
  | |- wp (match WorkflowStep.cleanup ?s with _ => _ end) _ _ _ =>
      destruct (WorkflowStep.cleanup s) eqn:?
  end; cbv beta iota zeta.

Ltac wp_steps := repeat wp_step.

(** [l[i] = x] as an update of a list position that exists. *)
Lemma alter_lookup_insert {A} (f : A -> A) (l : list A) i x :
  l !! i = Some x -> alter f i l = <[i := f x]> l.
Proof.
  revert i; induction l as [|y l IH]; intros [|i] H; simplify_eq/=; auto.
  f_equal; auto.
Qed.

Lemma alter_insert_same {A} (f : A -> A) (l : list A) i x :
  alter f i (<[i := x]> l) = <[i := f x]> l.
Proof.
  revert i; induction l as [|y l IH]; intros [|i]; try reflexivity.
  cbn. f_equal. apply IH.
Qed.

Lemma wp_run {A} (m : M A) Q (w : World) :
  wp m Q (wf w) (trace w) ->
  Q (outcome m w) (new_entries m w) (final m w).
Proof.
  intros H. apply wp_elim in H as (new & Htr & H).
  unfold outcome, new_entries, final. rewrite Htr, length_app.
  replace (length new + length (trace w) - length (trace w))%nat
    with (length new) by lia.
  rewrite take_app_length. exact H.
Qed.

Lemma run_wp {A} (m : M A) (Q : Exn + A -> list Entry -> SecurityWorkflow.t -> Prop) s tr :
  (forall new, trace (m (mkWorld s tr)).2 = new ++ tr ->
               Q (m (mkWorld s tr)).1 new (wf (m (mkWorld s tr)).2)) ->
  wp m (fun _ _ _ => True) s tr ->
  wp m Q s tr.
Proof. intros H (new & Htr & _). exists new; auto. Qed.

(** ** C1: the retry bound *)

Lemma chronological_app (new2 new1 : list Entry) :
  chronological (new2 ++ new1) = chronological new1 ++ chronological new2.
Proof. unfold chronological. by rewrite map_app, rev_app_distr. Qed.

Lemma acts_app (evs1 evs2 : list Event) : acts (evs1 ++ evs2) = acts evs1 ++ acts evs2.
Proof. apply omap_app. Qed.

Lemma acts_chronological_cons e new :
  acts (chronological (e :: new))
  = acts (chronological new) ++ option_list (act_of (event e)).
Proof.
  change (e :: new) with ([e] ++ new). rewrite chronological_app, acts_app.
  f_equal.
Qed.

Lemma acts_chronological_app new2 new1 :
  acts (chronological (new2 ++ new1))
  = acts (chronological new1) ++ acts (chronological new2).
Proof. by rewrite chronological_app, acts_app. Qed.

(** Normalise the tool-and-clock view of a symbolic trace. *)
Ltac acts_norm :=
  simpl_goal;
  rewrite ?app_nil_r;
  repeat (rewrite acts_chronological_cons || rewrite acts_chronological_app);
  cbn [act_of event option_list app];
  rewrite ?app_nil_r.

Lemma remaining_schedule_step a k :
  remaining_schedule a (S (S k))
  = Invoke :: Wait (2 ^ Z.of_nat (S a)) :: remaining_schedule (S a) (S k).
Proof. reflexivity. Qed.

Section failing_tool.
Variable step : WorkflowStep.t.
Variable i : nat.
Hypothesis tool_fails : forall t p, raises (WorkflowStep.tool step t p).

End failing_tool.


Lemma schedule_views a k :
  let sched := Invoke :: flat_map (fun j => [Wait (2 ^ Z.of_nat j); Invoke]) (seq a k) in
  omap (fun a => match a with Invoke => Some tt | Wait _ => None end) sched
    = replicate (S k) tt
  /\ omap (fun a => match a with Wait seconds => Some seconds | Invoke => None end) sched
    = map (fun j => 2 ^ Z.of_nat j) (seq a k)
  /\ last sched = Some Invoke.
Proof.
  revert a; induction k as [|k IH]; intros a; [done|].
  destruct (IH (S a)) as (H1 & H2 & H3). cbn in *. split_and!.
  - by rewrite H1.
  - by rewrite H2.
  - exact H3.
Qed.





(** ** C10 and C5: [cancel] *)

(** C10. [cancel] on a Running workflow whose step list is empty raises
    [IndexError] at [self.steps[self.current_step]]: the status has already
    been set to Cancelled, but no [workflow_cancelled] event (nor any other)
    is emitted. *)
Theorem C10_cancel_empty_steps (w : World) :
  SecurityWorkflow.status (wf w) = WorkflowStatus.RUNNING ->
  SecurityWorkflow.steps (wf w) = [] ->
  outcome cancel w = inl (mkExn IndexError "list index out of range")
  /\ SecurityWorkflow.status (final cancel w) = WorkflowStatus.CANCELLED
  /\ events cancel w = [].
Proof.
  intros Hs Hl.
  refine (wp_run cancel
            (fun r new s' =>
               r = inl (mkExn IndexError "list index out of range")
               /\ SecurityWorkflow.status s' = WorkflowStatus.CANCELLED
               /\ chronological new = []) w _).
  unfold cancel. wp_steps; [|congruence].
  rewrite Hl, lookup_nil. cbn. auto.
Qed.

Lemma C10_cancel_empty_steps_witness :
  SecurityWorkflow.status (wf running_empty_world) = WorkflowStatus.RUNNING
  /\ SecurityWorkflow.steps (wf running_empty_world) = []
  /\ SecurityWorkflow.current_step (wf running_empty_world) = 0%nat
  /\ outcome cancel running_empty_world
     = inl (mkExn IndexError "list index out of range").
Proof.
  split_and!; [reflexivity | reflexivity | reflexivity |].
  apply (C10_cancel_empty_steps running_empty_world); reflexivity.
Defined.



(** ** The condition predicates of a step *)

Lemma Forall_chronological (P : Event -> Prop) (new : list Entry) :
  Forall (fun e => P (event e)) new -> Forall P (chronological new).
Proof. intros H. unfold chronological. by apply Forall_rev, Forall_map. Qed.

(** Split a statement about all entries of a symbolic trace. *)
Ltac split_entries :=
  simpl_goal;
  repeat first [ apply Forall_nil_2 | apply Forall_cons_2 | apply Forall_app_2 ].



(** ** One execution of a step *)

Lemma set_steps_set_steps l l' s :
  SecurityWorkflow.set_steps l (SecurityWorkflow.set_steps l' s)
  = SecurityWorkflow.set_steps l s.
Proof. reflexivity. Qed.

Lemma with_step_id s i st :
  SecurityWorkflow.steps s !! i = Some st -> with_step s i st = s.
Proof.
  intros H. unfold with_step. rewrite list_insert_id by done. by destruct s.
Qed.

Lemma with_step_lookup s i st :
  (i < length (SecurityWorkflow.steps s))%nat ->
  SecurityWorkflow.steps (with_step s i st) !! i = Some st.
Proof. intros H. cbn. by apply list_lookup_insert_eq. Qed.

Lemma same_policy_refl a : same_policy a a.
Proof. by repeat split. Qed.

Lemma same_policy_trans a b c : same_policy a b -> same_policy b c -> same_policy a c.
Proof.
  unfold same_policy. intros (?&?&?&?&?&?&?) (?&?&?&?&?&?&?).
  split_and!; congruence.
Qed.

(** The setters of the run state leave the policy alone. *)
Lemma same_policy_set a b :
  same_policy a b ->
  (forall v, same_policy a (WorkflowStep.set_status v b))
  /\ (forall v, same_policy a (WorkflowStep.set_result v b))
  /\ (forall v, same_policy a (WorkflowStep.set_error v b))
  /\ (forall v, same_policy a (WorkflowStep.set_start_time v b))
  /\ (forall v, same_policy a (WorkflowStep.set_end_time v b)).
Proof. intros H. split_and!; intros v; exact H. Qed.

(** The run-state setters leave the policy alone, so the goal is an
    instance of a hypothesis up to computation. *)
Ltac solve_policy :=
  match goal with
  | H : same_policy ?a _ |- same_policy ?a _ => exact H
  | |- same_policy ?a _ => exact (same_policy_refl a)
  end.

Ltac solve_in_flight :=
  simpl_goal; unfold in_flight;
  first [ assumption | by left | by right
        | match goal with H : in_flight _ |- _ => exact H end ].

(** An entry of a symbolic trace is an [exec_entry]. *)
Ltac solve_exec_entry :=
  eexists; split_and!;
  [ reflexivity | solve_policy | econstructor; solve_in_flight ].

(** Bring an updated workflow object to the form [with_step s i _]. *)
Ltac norm_state :=
  unfold with_step; simpl_goal;
  rewrite ?alter_insert_same, ?set_steps_set_steps.

Lemma retry_loop_spec (i : nat) (step0 : WorkflowStep.t) (s : SecurityWorkflow.t)
    (fuel : nat) :
  (i < length (SecurityWorkflow.steps s))%nat ->
  forall tries last_error st1 tr,
  same_policy step0 st1 ->
  in_flight (WorkflowStep.status st1) ->
  wp (retry_loop fuel i tries last_error)
     (fun r new s' =>
        exists st',
          s' = with_step s i st'
          /\ same_policy step0 st'
          /\ Forall (exec_entry s i step0) new
          /\ match r with
             | inr (inl v) =>
                 WorkflowStep.status st' = WorkflowStepStatus.COMPLETED
                 /\ WorkflowStep.result st' = Some v
             | inr (inr _) => in_flight (WorkflowStep.status st')
             | inl _ => False
             end)
     (with_step s i st1) tr.
Proof.
  intros Hi. induction fuel as [|fuel IH]; intros tries le st1 tr Hpol Hfl;
    cbn [retry_loop].
  - wp_steps. exists st1. split_and!; [done|done|constructor|done].
  - repeat (progress (wp_steps; norm_state;
                       rewrite ?list_lookup_insert_eq by done)).
    all: try (eapply wp_mono;
              [apply IH; [solve_policy|solve_in_flight] |];
              intros r' new s' (st' & -> & Hpol' & Hall & Hr);
              exists st'; split_and!; [done|done| |done];
              split_entries; try done; solve_exec_entry).
    all: eexists; (split; [reflexivity|]); (split; [solve_policy|]);
      (split; [|by simpl_goal]).
    all: split_entries; solve_exec_entry.
Qed.

(** Symbolic execution of code that works on step [i], which exists. *)
Ltac wp_exec Hi :=
  repeat (progress (wp_steps; norm_state;
                    rewrite ?list_lookup_insert_eq by exact Hi)).

Lemma str_nonempty_audit m : "Failed to log audit event: " +:+ m <> "".
Proof. done. Qed.

Lemma execute_step_spec (i : nat) (step0 : WorkflowStep.t) s tr :
  SecurityWorkflow.steps s !! i = Some step0 ->
  wp (_execute_step i)
     (fun r new s' =>
        exists st',
          s' = with_step s i st'
          /\ same_policy step0 st'
          /\ Forall (exec_entry s i step0) new
          /\ match r with
             | inr v =>
                 WorkflowStep.status st' = WorkflowStepStatus.COMPLETED
                 /\ WorkflowStep.result st' = Some v
             | inl e =>
                 str e <> ""
                 /\ ((WorkflowStep.status st' = WorkflowStepStatus.RUNNING
                      /\ exn_class e = LoggingError)
                     \/ (WorkflowStep.status st' = WorkflowStepStatus.FAILED
                         /\ exn_class e <> ContextError))
             end)
     s tr.
Proof.
  intros Hst. assert (Hi := lookup_lt_Some _ _ _ Hst).
  unfold _execute_step. wp_steps.
  rewrite (alter_lookup_insert _ _ _ _ Hst). wp_exec Hi.
  - eexists; (split; [reflexivity|]); (split; [solve_policy|]); split.
    + split_entries; solve_exec_entry.
    + simpl_goal. split; [done|]. left. done.
  - eapply wp_mono; [apply (retry_loop_spec i step0 s _ Hi); [solve_policy|solve_in_flight] |].
    intros r new s' (st' & -> & Hpol' & Hall & Hr).
    destruct r as [e|[v|[tries le]]]; [done| |].
    + wp_steps. exists st'. split_and!; try done; try apply Hr.
      split_entries; try done; solve_exec_entry.
    + wp_exec Hi.
      all: eexists; (split; [reflexivity|]); (split; [solve_policy|]); split.
      all: try (split_entries; try done; solve_exec_entry).
      all: simpl_goal; split; [done|]; right; done.
Qed.

(** ** One iteration of the loop of [execute] *)

Lemma chronological_cons e new :
  chronological (e :: new) = chronological new ++ [event e].
Proof. reflexivity. Qed.

Lemma update_events_app evs1 evs2 :
  update_events (evs1 ++ evs2) = update_events evs1 ++ update_events evs2.
Proof. apply omap_app. Qed.

Lemma count_events_app p evs1 evs2 :
  count_events p (evs1 ++ evs2) = (count_events p evs1 + count_events p evs2)%nat.
Proof. unfold count_events. by rewrite List.filter_app, length_app. Qed.

Lemma cleanup_calls_app evs1 evs2 :
  cleanup_calls (evs1 ++ evs2) = cleanup_calls evs1 ++ cleanup_calls evs2.
Proof. apply omap_app. Qed.

Lemma quiet_events (new : list Entry) :
  Forall (fun e => quiet (event e)) new ->
  update_events (chronological new) = []
  /\ cleanup_calls (chronological new) = [].
Proof.
  induction 1 as [|e new He _ [IH1 IH2]]; [done|].
  rewrite chronological_cons, update_events_app, cleanup_calls_app, IH1, IH2.
  by destruct (event e).
Qed.

Lemma exec_entry_quiet s i step0 e : exec_entry s i step0 e -> quiet (event e).
Proof. intros (st & _ & _ & H). by destruct H. Qed.

Lemma condition_call_quiet i ev : is_condition_call i ev -> quiet ev.
Proof. by intros [b ->]. Qed.

Lemma during_results s i st :
  with_step (SecurityWorkflow.set_current_step i s) i st
  = during s i st (SecurityWorkflow.results s).
Proof. by destruct s. Qed.

Lemma during_id s i st :
  SecurityWorkflow.steps s !! i = Some st ->
  SecurityWorkflow.set_current_step i s = during s i st (SecurityWorkflow.results s).
Proof.
  intros H. rewrite <- during_results. symmetry. by apply with_step_id.
Qed.

Lemma exec_entry_iter_entry s i step0 e :
  exec_entry (SecurityWorkflow.set_current_step i s) i step0 e ->
  iter_entry s i step0 e.
Proof.
  intros (st & Hat & Hpol & Hph). exists st, (SecurityWorkflow.results s).
  split_and!; [by rewrite Hat, during_results|done|by constructor].
Qed.

(** The conditions of a step leave the workflow object alone. *)
Lemma all_conditions_frame (i : nat) (conds : list Condition) s tr :
  wp (all_conditions i conds)
     (fun r new s' =>
        s' = s
        /\ Forall (fun e => at_state e = s /\ is_condition_call i (event e)) new
        /\ match r with
           | inr _ => True
           | inl e =>
               (exists cond t, cond ∈ conds /\ cond t = inl e)
               /\ ConditionCall i (inl e) ∈ chronological new
           end)
     s tr.
Proof.
  revert tr; induction conds as [|cond conds IH]; intros tr; cbn [all_conditions].
  - wp_steps. split_and!; [done|constructor|done].
  - wp_steps.
    + split; [done|split].
      * split_entries. split; [done|by eexists].
      * split; [|by apply list_elem_of_singleton].
        exists cond, t. split; [by left|done].
    + eapply wp_mono; [apply IH|]. intros r new s' (-> & Hall & Hr).
      split; [done|split].
      * split_entries; [done|]. split; [done|by eexists].
      * destruct r as [e|b]; [|done]. destruct Hr as [(c & t' & Hc & He) Hin].
        split; [exists c, t'; split; [by right|done]|].
        rewrite chronological_app. apply elem_of_app. by right.
    + split_and!; [done| |done].
      split_entries. split; [done|by eexists].
Qed.

Lemma workflow_ext (a b : SecurityWorkflow.t) :
  SecurityWorkflow.workflow_id a = SecurityWorkflow.workflow_id b ->
  SecurityWorkflow.name a = SecurityWorkflow.name b ->
  SecurityWorkflow.description a = SecurityWorkflow.description b ->
  SecurityWorkflow.steps a = SecurityWorkflow.steps b ->
  SecurityWorkflow.context_manager a = SecurityWorkflow.context_manager b ->
  SecurityWorkflow.logging_service a = SecurityWorkflow.logging_service b ->
  SecurityWorkflow.security_level a = SecurityWorkflow.security_level b ->
  SecurityWorkflow.status a = SecurityWorkflow.status b ->
  SecurityWorkflow.current_step a = SecurityWorkflow.current_step b ->
  SecurityWorkflow.start_time a = SecurityWorkflow.start_time b ->
  SecurityWorkflow.end_time a = SecurityWorkflow.end_time b ->
  SecurityWorkflow.results a = SecurityWorkflow.results b ->
  a = b.
Proof. destruct a, b; cbn; intros; congruence. Qed.

(** Two workflow objects built by setters are equal field by field. *)
Ltac solve_workflow_eq := apply workflow_ext; simpl_goal; reflexivity.

(** Normalise the views of a symbolic trace in chronological order. *)
Ltac events_norm :=
  simpl_goal; rewrite ?app_nil_r;
  repeat (rewrite chronological_cons || rewrite chronological_app);
  rewrite ?update_events_app, ?count_events_app, ?cleanup_calls_app.

Lemma step_failed_handler_spec (i : nat) (step0 : WorkflowStep.t) s st res e tr :
  (i < length (SecurityWorkflow.steps s))%nat ->
  same_policy step0 st ->
  caught step0 (SecurityWorkflow.results s) st res ->
  marked_failed step0 (SecurityWorkflow.results s)
    (WorkflowStep.set_error (Some (str e))
       (WorkflowStep.set_status WorkflowStepStatus.FAILED st)) res ->
  wp (step_failed_handler i step0 e)
     (fun r new s' =>
        s' = during s i (WorkflowStep.set_error (Some (str e))
                           (WorkflowStep.set_status WorkflowStepStatus.FAILED st))
               res
        /\ Forall (iter_entry s i step0) new
        /\ r = inl (mkExn WorkflowError
                      ("Workflow failed at step " +:+ WorkflowStep.name step0
                       +:+ ": " +:+ str e))
        /\ update_events (chronological new) = []
        /\ cleanup_calls (chronological new) = cleanup_of i step0)
     (during s i st res) tr.
Proof.
  intros Hi Hpol Hcaught Hmarked. unfold step_failed_handler, cleanup_of.
  wp_steps; simpl_goal; rewrite !alter_insert_same.
  all: split_and!; [solve_workflow_eq| |done| |].
  all: try (split_entries;
            (eexists _, _; split_and!;
               [solve_workflow_eq | solve_policy
               | first [ by apply iter_caught_log | by apply iter_caught_mark
                       | by apply iter_cleanup | by apply iter_cleanup_log ] ])).
  all: by events_norm.
Qed.

(** The [except] clause of the loop body after a condition predicate of
    the step raised [e]. *)
Lemma step_failed_handler_gate (i : nat) (step0 : WorkflowStep.t) s e tr :
  SecurityWorkflow.steps s !! i = Some step0 ->
  gate_raised step0 e ->
  wp (step_failed_handler i step0 e)
     (fun r new s' =>
        s' = during s i (WorkflowStep.set_error (Some (str e))
                           (WorkflowStep.set_status WorkflowStepStatus.FAILED step0))
               (SecurityWorkflow.results s)
        /\ Forall (iter_entry s i step0) new
        /\ r = inl (mkExn WorkflowError
                      ("Workflow failed at step " +:+ WorkflowStep.name step0
                       +:+ ": " +:+ str e))
        /\ update_events (chronological new) = []
        /\ cleanup_calls (chronological new) = cleanup_of i step0)
     (SecurityWorkflow.set_current_step i s) tr.
Proof.
  intros Hst Hraised.
  assert (Hgate : gate_failed step0 e
                    (WorkflowStep.set_error (Some (str e))
                       (WorkflowStep.set_status WorkflowStepStatus.FAILED step0)))
    by (split; [exact Hraised|reflexivity]).
  unfold step_failed_handler, cleanup_of.
  wp_steps; simpl_goal; rewrite (alter_lookup_insert _ _ _ _ Hst), ?alter_insert_same.
  all: split_and!; [solve_workflow_eq| |done| |].
  all: try (split_entries;
            first
              [ (exists step0, (SecurityWorkflow.results s); split_and!;
                   [by apply during_id | solve_policy
                   | first [ by eapply iter_gate_log | by eapply iter_gate_mark ] ])
              | (eexists _, _; split_and!;
                   [solve_workflow_eq | solve_policy
                   | first [ by eapply iter_gate_cleanup
                           | by eapply iter_gate_cleanup_log ] ]) ]).
  all: by events_norm.
Qed.

Lemma execute_iteration_spec (i : nat) (step0 : WorkflowStep.t) s tr :
  SecurityWorkflow.steps s !! i = Some step0 ->
  wp (execute_iteration i)
     (fun r new s' =>
        exists st' res',
          s' = during s i st' res'
          /\ same_policy step0 st'
          /\ Forall (iter_entry s i step0) new
          /\ iteration_outcome i step0 (SecurityWorkflow.results s) r
               (chronological new) st' res')
     s tr.
Proof.
  intros Hst. assert (Hi := lookup_lt_Some _ _ _ Hst).
  unfold execute_iteration. wp_steps. rewrite Hst. wp_steps.
  eapply wp_mono; [apply all_conditions_frame|].
  intros r new s' (-> & Hconds & Hr).
  assert (Hconds' : Forall (iter_entry s i step0) new).
  { eapply Forall_impl; [exact Hconds|]. intros e [Hat [b' Hev]].
    exists step0, (SecurityWorkflow.results s).
    split_and!; [by rewrite Hat; apply during_id|done|rewrite Hev; constructor]. }
  assert (Hquiet : Forall (fun e => quiet (event e)) new).
  { eapply Forall_impl; [exact Hconds|]. intros e [_ He].
    by eapply condition_call_quiet. }
  destruct r as [e|b]; [|clear Hr; destruct b; cbn [negb]; wp_steps].
  - (* a condition raised: the step is marked Failed *)
    destruct Hr as [Hraised Hin].
    destruct (quiet_events _ Hquiet) as [Hu Hc].
    eapply wp_mono; [by apply (step_failed_handler_gate i step0 s e)|].
    intros r new2 s' (-> & Hall & -> & Hu2 & Hc2).
    eexists _, _. split_and!; [reflexivity|solve_policy| |].
    + split_entries; done.
    + events_norm. apply it_gate_raised.
      * by split.
      * apply elem_of_app. by left.
      * by rewrite !update_events_app, Hu, Hu2.
      * by rewrite !cleanup_calls_app, Hc, Hc2.
  - (* the conditions hold: the step is executed *)
    eapply wp_mono; [apply (execute_step_spec i step0); exact Hst|].
    intros r new1 s' (st' & -> & Hpol & Hexec & Hr).
    assert (Hexec' : Forall (iter_entry s i step0) new1)
      by (eapply Forall_impl; [exact Hexec|]; apply exec_entry_iter_entry).
    assert (Hquiet1 : Forall (fun e => quiet (event e)) new1)
      by (eapply Forall_impl; [exact Hexec|]; apply exec_entry_quiet).
    destruct (quiet_events _ Hquiet) as [Hu Hc].
    destruct (quiet_events _ Hquiet1) as [Hu1 Hc1].
    destruct r as [e|v].
    + (* [_execute_step] raised *)
      destruct Hr as [Hne Hstatus]. rewrite during_results.
      eapply wp_mono.
      { apply (step_failed_handler_spec i step0 s st'); [done|done| |].
        - left. split; [done|]. destruct Hstatus as [[? _]|[? _]]; auto.
        - split; [done|]. exists (str e). split_and!; [done|done|by left]. }
      intros r new2 s' (-> & Hall & -> & Hu2 & Hc2).
      eexists _, _. split_and!; [reflexivity|solve_policy| |].
      * split_entries; done.
      * events_norm. apply it_failed; try done.
        -- by rewrite !update_events_app, Hu, Hu1, Hu2.
        -- by rewrite !cleanup_calls_app, Hc, Hc1, Hc2.
    + (* [_execute_step] returned [v] *)
      destruct Hr as [Hcompleted Hresult]. wp_steps.
      * (* the context store refuses the update *)
        eapply wp_mono.
        { apply (step_failed_handler_spec i step0 s st'); [done|done| |].
          - right. by exists v.
          - split; [done|]. eexists. split_and!; [done|done|].
            right. by eexists _, _. }
        intros r new2 s' (-> & Hall & -> & Hu2 & Hc2).
        eexists _, _. split_and!; [reflexivity|solve_policy| |].
        -- split_entries; try done.
           eexists _, _. split_and!; [solve_workflow_eq|done|by constructor].
        -- events_norm. apply it_store_failed; try done.
           ++ by rewrite !update_events_app, Hu, Hu1, Hu2.
           ++ by rewrite !cleanup_calls_app, Hc, Hc1, Hc2.
      * (* the update is accepted *)
        eexists _, _. split_and!; [solve_workflow_eq|done| |].
        -- split_entries; try done.
           eexists _, _. split_and!; [solve_workflow_eq|done|by constructor].
        -- events_norm. apply it_completed; try done.
           ++ by rewrite !update_events_app, Hu, Hu1.
           ++ by rewrite !cleanup_calls_app, Hc, Hc1.
  - (* a condition is false: the step is skipped *)
    destruct (quiet_events _ Hquiet) as [Hu Hc].
    rewrite (alter_lookup_insert _ _ _ _ Hst).
    eexists _, _. split_and!; [solve_workflow_eq|solve_policy| |].
    + split_entries; try done.
      eexists _, _. split_and!; [by apply during_id|solve_policy|constructor].
    + events_norm. apply it_skipped.
      * by rewrite !update_events_app, Hu.
      * by rewrite !cleanup_calls_app, Hc.
Qed.

(** ** The loop and [execute] *)

Lemma during_length s i st res :
  length (SecurityWorkflow.steps (during s i st res))
  = length (SecurityWorkflow.steps s).
Proof. cbn. by rewrite length_insert. Qed.

Lemma execute_steps_run (indices : list nat) :
  forall s tr,
  Forall (fun i => (i < length (SecurityWorkflow.steps s))%nat) indices ->
  wp (execute_steps indices) (loop_run indices s) s tr.
Proof.
  induction indices as [|i rest IH]; intros s tr Hvalid; cbn [execute_steps].
  - wp_steps. constructor.
  - apply Forall_cons in Hvalid as [Hi Hrest].
    destruct (lookup_lt_is_Some_2 _ _ Hi) as [step0 Hst].
    wp_step. eapply wp_mono; [by apply (execute_iteration_spec i step0)|].
    intros r new1 s' (st & res & -> & Hpol & Hentries & Hout).
    destruct r as [e|[]].
    + by eapply loop_abort.
    + eapply wp_mono.
      { apply IH. eapply Forall_impl; [exact Hrest|].
        intros j Hj. by rewrite during_length. }
      intros r new2 s' Hrun. by eapply loop_next.
Qed.

Lemma execute_spec s tr : wp execute (execute_run s) s tr.
Proof.
  unfold execute. wp_steps.
  all: lazymatch goal with
       | |- wp _ _ _ _ => idtac
       | |- _ =>
           apply run_not_entered;
           [split_entries; by repeat split | done | done | done]
       end.
  eapply wp_mono.
  { apply execute_steps_run. simpl_goal. apply Forall_forall.
    intros i Hi%elem_of_seq. lia. }
  intros r new_loop s2 Hrun. simpl_goal.
  destruct r as [e|[]]; wp_steps.
  all: simpl_goal; rewrite ?app_nil_r, <- ?app_assoc; simpl_goal.
  all: first [ eapply (run_loop _ _ _ _ _ [_]) | eapply (run_loop _ _ _ _ _ [_; _]) ].
  all: try exact Hrun.
  all: try (split_entries; by repeat split).
  all: try done.
  all: try (by intros view [= <-]).
Qed.

(** ** C9: the context store refuses an update *)

Lemma elem_of_chronological ev (new : list Entry) :
  ev ∈ chronological new <-> exists e, e ∈ new /\ event e = ev.
Proof.
  unfold chronological. rewrite list_elem_of_In, <- in_rev, in_map_iff.
  split; intros (e & H1 & H2); exists e; by rewrite ?list_elem_of_In in *.
Qed.

Lemma elem_of_update_events key v failure evs :
  UpdateContext key v failure ∈ evs -> (key, v, failure) ∈ update_events evs.
Proof.
  intros H. unfold update_events. apply list_elem_of_omap.
  by exists (UpdateContext key v failure).
Qed.

Lemma workflow_entries_quiet s new :
  Forall (workflow_entry s) new -> Forall (fun e => quiet (event e)) new.
Proof.
  intros H. eapply Forall_impl; [exact H|].
  intros e [He _]. by destruct (event e).
Qed.

Lemma iter_entry_update s i step0 e key v failure :
  (i < length (SecurityWorkflow.steps s))%nat ->
  iter_entry s i step0 e ->
  event e = UpdateContext key v failure ->
  stored_and_completed (at_state e) v.
Proof.
  intros Hi (st & res & Hat & Hpol & Hph) Hev. rewrite Hev in Hph.
  inversion Hph as [| |? ? Hex| | | | | | | | |]; subst.
  - inversion Hex.
  - exists st. rewrite Hat. simpl_goal.
    rewrite list_lookup_insert_eq by done. split_and!; [done|done|].
    destruct Hpol as [<- _]. apply lookup_insert_eq.
Qed.

Lemma cleanup_of_policy i a b : same_policy a b -> cleanup_of i a = cleanup_of i b.
Proof. intros (_&_&_&_&_&_&H). unfold cleanup_of. by rewrite H. Qed.

Lemma loop_run_store_failure indices s r new s' :
  loop_run indices s r new s' ->
  Forall (fun i => (i < length (SecurityWorkflow.steps s))%nat) indices ->
  (r = inr tt -> cleanup_calls (chronological new) = [])
  /\ forall key v m,
       UpdateContext key v (Some m) ∈ chronological new ->
       raises r
       /\ (exists e, e ∈ new /\ event e = UpdateContext key v (Some m)
                     /\ stored_and_completed (at_state e) v)
       /\ failed_by_store s' (chronological new) key v m.
Proof.
  induction 1 as [s|i rest s step0 st res new1 r new2 s' Hst Hpol Hentries Hout Hrun IH
                  |i rest s step0 st res new1 e Hst Hpol Hentries Hout];
    intros Hvalid.
  - split; [done|]. intros key v m H. by apply elem_of_nil in H.
  - apply Forall_cons in Hvalid as [Hi Hrest].
    destruct IH as [IHc IHu].
    { eapply Forall_impl; [exact Hrest|]. intros j Hj. by rewrite during_length. }
    assert (Hc1 : cleanup_calls (chronological new1) = [])
      by (inversion Hout; done).
    rewrite chronological_app, cleanup_calls_app, Hc1. split; [done|].
    intros key v m [Hin|Hin]%elem_of_app.
    + apply elem_of_update_events in Hin.
      inversion Hout as [? Hu| ? ? ? ? ? Hu| | |]; subst; rewrite Hu in Hin.
      * by apply elem_of_nil in Hin.
      * apply list_elem_of_singleton in Hin. congruence.
    + destruct (IHu key v m Hin)
        as (Hr & (e & He & Hev & Hsnap) & i' & step' & Hf).
      split_and!; [done| |].
      * exists e. split_and!; [|done|done]. apply elem_of_app. by left.
      * exists i', step'. by rewrite cleanup_calls_app, Hc1.
  - apply Forall_cons in Hvalid as [Hi _]. split; [done|].
    intros key v m Hin. pose proof Hin as Hin'.
    apply elem_of_update_events in Hin'.
    apply elem_of_chronological in Hin as (e0 & He0 & Hev0).
    inversion Hout as [| |? ? ? ? ? ? Hu|? ? ? ? Hfail Hres Herr Hu Hc
                       |? ? ? ? ? Hu]; subst;
      rewrite Hu in Hin'.
    + by apply elem_of_nil in Hin'.
    + apply list_elem_of_singleton in Hin'. injection Hin' as -> -> ->.
      split_and!; [done| |].
      * exists e0. split_and!; [done|done|].
        eapply iter_entry_update; [exact Hi| |exact Hev0].
        eapply Forall_forall in Hentries; [exact Hentries|done].
      * exists i, st. simpl_goal. rewrite list_lookup_insert_eq by done.
        split_and!; try done.
        -- destruct Hpol as [<- _]. apply lookup_insert_eq.
        -- rewrite Hc. by apply cleanup_of_policy.
    + by apply elem_of_nil in Hin'.
Qed.

Lemma quiet_not_update (new : list Entry) key v failure :
  Forall (fun e => quiet (event e)) new ->
  UpdateContext key v failure ∈ chronological new -> False.
Proof.
  intros Hq (e & He & Hev)%elem_of_chronological.
  eapply Forall_forall in Hq; [|exact He]. by rewrite Hev in Hq.
Qed.

(** C9. Whenever a run of [execute] contains a context update that the
    store refused: at that moment the current step was Completed and its
    result was stored in [results]; the run ends with an exception and the
    workflow Failed; that step is now Failed, its error is the store's
    failure message, its result and its entry in [results] are still
    there, and its cleanup hook (if it has one) is the only cleanup call of
    the run. *)
Theorem C9_context_store_failure (w : World) (key : string) (v : Result)
    (m : string) :
  UpdateContext key v (Some m) ∈ events execute w ->
  (exists e, e ∈ new_entries execute w
             /\ event e = UpdateContext key v (Some m)
             /\ stored_and_completed (at_state e) v)
  /\ raises (outcome execute w)
  /\ SecurityWorkflow.status (final execute w) = WorkflowStatus.FAILED
  /\ failed_by_store (final execute w) (events execute w) key v m.
Proof.
  unfold events. pose proof (wp_run execute _ w (execute_spec _ _)) as Hrun.
  destruct Hrun as [e new s' Hentries _ _ _
                   |s1 r_loop new_pre new_loop new_post s2 r s'
                      Hsteps1 Hres1 Hpre Hloop Hpost Hsteps Hres Hstatus Hraises _].
  - intros Hin. exfalso. eapply quiet_not_update; [|exact Hin].
    by eapply workflow_entries_quiet.
  - apply workflow_entries_quiet in Hpre, Hpost.
    destruct (quiet_events _ Hpre) as [_ Hcpre].
    destruct (quiet_events _ Hpost) as [_ Hcpost].
    rewrite !chronological_app.
    intros [[Hin|Hin]%elem_of_app|Hin]%elem_of_app.
    1, 3: exfalso; eapply quiet_not_update; [|exact Hin]; done.
    destruct (loop_run_store_failure _ _ _ _ _ Hloop) as [_ Hfail].
    { rewrite Hsteps1. apply Forall_forall. intros i Hi%elem_of_seq. lia. }
    destruct (Hfail key v m Hin)
      as (Hr & (e & He & Hev & Hsnap) & i & step & H1 & H2 & H3 & H4 & H5 & H6 & H7).
    specialize (Hraises Hr). destruct r as [e'|]; [|done].
    split_and!; [|done|done|].
    + exists e. split_and!; [|done|done].
      apply elem_of_app; right; apply elem_of_app; by left.
    + exists i, step. rewrite Hsteps, Hres.
      split_and!; try done.
      by rewrite !cleanup_calls_app, Hcpre, Hcpost, app_nil_r.
Qed.

Lemma C9_context_store_failure_witness :
  UpdateContext "step_0_result" [("status", "ok")] (Some "store down")
    ∈ events execute store_failure_world
  /\ SecurityWorkflow.status (final execute store_failure_world)
     = WorkflowStatus.FAILED
  /\ failed_by_store (final execute store_failure_world)
       (events execute store_failure_world)
       "step_0_result" [("status", "ok")] "store down".
Proof.
  assert (H : UpdateContext "step_0_result" [("status", "ok")] (Some "store down")
                ∈ events execute store_failure_world).
  { apply (list_elem_of_lookup_2 _ 7). vm_compute. reflexivity. }
  destruct (C9_context_store_failure store_failure_world _ _ _ H)
    as (_ & _ & Hstatus & Hfailed).
  split_and!; [exact H | exact Hstatus | exact Hfailed].
Defined.

(** ** Invariants of a run

    A rule for properties of the steps and the results that hold at every
    entry of a run of [execute] and at its end: [I indices] is what holds
    when the loop is about to run the steps [indices], [F] what holds once
    an iteration has raised, and [G] what is claimed of every entry. *)

Section invariants.
Variable I : list nat -> list WorkflowStep.t -> gmap string Result -> Prop.
Variable F : list WorkflowStep.t -> gmap string Result -> Prop.
Variable G : list WorkflowStep.t -> gmap string Result -> Event -> Prop.

Hypothesis iteration_entries :
  forall i rest l res step0 st res1 ev,
    I (i :: rest) l res -> l !! i = Some step0 -> same_policy step0 st ->
    iter_phase i step0 res st res1 ev ->
    G (<[i := st]> l) res1 ev.
Hypothesis iteration_returns :
  forall i rest l res step0 st res1 evs,
    I (i :: rest) l res -> l !! i = Some step0 -> same_policy step0 st ->
    iteration_outcome i step0 res (inr tt) evs st res1 ->
    I rest (<[i := st]> l) res1.
Hypothesis iteration_raises :
  forall i rest l res step0 st res1 evs e,
    I (i :: rest) l res -> l !! i = Some step0 -> same_policy step0 st ->
    iteration_outcome i step0 res (inl e) evs st res1 ->
    F (<[i := st]> l) res1.

Lemma loop_run_invariant indices s r new s' :
  loop_run indices s r new s' ->
  I indices (SecurityWorkflow.steps s) (SecurityWorkflow.results s) ->
  Forall (holds_at G) new
  /\ match r with
     | inr _ => I [] (SecurityWorkflow.steps s') (SecurityWorkflow.results s')
     | inl _ => F (SecurityWorkflow.steps s') (SecurityWorkflow.results s')
     end.
Proof.
  induction 1 as [s|i rest s step0 st res new1 r new2 s' Hst Hpol Hentries Hout Hrun IH
                  |i rest s step0 st res new1 e Hst Hpol Hentries Hout];
    intros HI.
  - by split.
  - assert (H1 : Forall (holds_at G) new1).
    { eapply Forall_impl; [exact Hentries|].
      intros e (st1 & res1 & Hat & Hpol1 & Hph). unfold holds_at. rewrite Hat.
      by eapply iteration_entries. }
    destruct IH as [H2 Hr]; [by eapply iteration_returns|].
    split; [by apply Forall_app|done].
  - split.
    + eapply Forall_impl; [exact Hentries|].
      intros e0 (st1 & res1 & Hat & Hpol1 & Hph). unfold holds_at. rewrite Hat.
      by eapply iteration_entries.
    + by eapply iteration_raises.
Qed.

Hypothesis workflow_entries_I :
  forall indices l res ev, workflow_event ev -> I indices l res -> G l res ev.
Hypothesis workflow_entries_F :
  forall l res ev, workflow_event ev -> F l res -> G l res ev.

Lemma execute_run_invariant s r new s' :
  execute_run s r new s' ->
  I (seq 0 (length (SecurityWorkflow.steps s)))
    (SecurityWorkflow.steps s) (SecurityWorkflow.results s) ->
  Forall (holds_at G) new
  /\ ((exists indices,
         I indices (SecurityWorkflow.steps s') (SecurityWorkflow.results s'))
      \/ F (SecurityWorkflow.steps s') (SecurityWorkflow.results s')).
Proof.
  intros Hrun HI.
  destruct Hrun as [e new s' Hentries Hsteps Hres _
                   |s1 r_loop new_pre new_loop new_post s2 r s'
                      Hsteps1 Hres1 Hpre Hloop Hpost Hsteps Hres _ _ _].
  - split.
    + eapply Forall_impl; [exact Hentries|]. intros e0 (Hev & Hs & Hr).
      unfold holds_at. rewrite Hs, Hr. by eapply workflow_entries_I.
    + left. eexists. by rewrite Hsteps, Hres.
  - destruct (loop_run_invariant _ _ _ _ _ Hloop) as [Hall Hend].
    { by rewrite Hsteps1, Hres1. }
    assert (Hend' : (exists indices,
         I indices (SecurityWorkflow.steps s2) (SecurityWorkflow.results s2))
      \/ F (SecurityWorkflow.steps s2) (SecurityWorkflow.results s2))
      by (destruct r_loop; eauto).
    split; [|by rewrite Hsteps, Hres].
    repeat apply Forall_app_2; [|done|].
    + eapply Forall_impl; [exact Hpost|]. intros e0 (Hev & Hs & Hr).
      unfold holds_at. rewrite Hs, Hr.
      destruct Hend' as [[indices Hend']|Hend'];
        [by eapply workflow_entries_I|by eapply workflow_entries_F].
    + eapply Forall_impl; [exact Hpre|]. intros e0 (Hev & Hs & Hr).
      unfold holds_at. rewrite Hs, Hr. by eapply workflow_entries_I.
Qed.
End invariants.

Lemma execute_invariant
    (I : list nat -> list WorkflowStep.t -> gmap string Result -> Prop)
    (F : list WorkflowStep.t -> gmap string Result -> Prop)
    (G : list WorkflowStep.t -> gmap string Result -> Event -> Prop) :
  (forall i rest l res step0 st res1 ev,
     I (i :: rest) l res -> l !! i = Some step0 -> same_policy step0 st ->
     iter_phase i step0 res st res1 ev -> G (<[i := st]> l) res1 ev) ->
  (forall i rest l res step0 st res1 evs,
     I (i :: rest) l res -> l !! i = Some step0 -> same_policy step0 st ->
     iteration_outcome i step0 res (inr tt) evs st res1 ->
     I rest (<[i := st]> l) res1) ->
  (forall i rest l res step0 st res1 evs e,
     I (i :: rest) l res -> l !! i = Some step0 -> same_policy step0 st ->
     iteration_outcome i step0 res (inl e) evs st res1 ->
     F (<[i := st]> l) res1) ->
  (forall indices l res ev, workflow_event ev -> I indices l res -> G l res ev) ->
  (forall l res ev, workflow_event ev -> F l res -> G l res ev) ->
  forall s tr,
  I (seq 0 (length (SecurityWorkflow.steps s)))
    (SecurityWorkflow.steps s) (SecurityWorkflow.results s) ->
  wp execute
     (fun r new s' =>
        Forall (holds_at G) new
        /\ ((exists indices,
               I indices (SecurityWorkflow.steps s') (SecurityWorkflow.results s'))
            \/ F (SecurityWorkflow.steps s') (SecurityWorkflow.results s')))
     s tr.
Proof.
  intros H1 H2 H3 H4 H5 s tr HI.
  eapply wp_mono; [apply execute_spec|].
  intros r new s' Hrun. by eapply (execute_run_invariant I F G).
Qed.

(** ** C8: status transitions *)

Lemma holds_at_assignment_allowed allowed e :
  holds_at (assignment_allowed allowed) e ->
  assignment_within allowed e = true.
Proof.
  unfold holds_at, assignment_allowed, assignment_within, status_before.
  destruct (event e); try done. intros (step & -> & [H|H]); cbn.
  - by rewrite bool_decide_eq_true_2.
  - rewrite H. apply orb_true_r.
Qed.

Lemma gates_raise_only_insert P l i step0 st :
  l !! i = Some step0 -> same_policy step0 st ->
  gates_raise_only P l -> gates_raise_only P (<[i := st]> l).
Proof.
  intros Hst Hpol Hret step cond t e Hin Hcond.
  apply list_elem_of_lookup in Hin as [j Hj].
  destruct (decide (j = i)) as [->|Hne].
  - rewrite list_lookup_insert_eq in Hj by by eapply lookup_lt_Some.
    injection Hj as <-. destruct Hpol as (_ & _ & _ & Hconds & _).
    rewrite <- Hconds in Hcond.
    eapply Hret; [|exact Hcond]. by eapply list_elem_of_lookup_2.
  - rewrite list_lookup_insert_ne in Hj by done.
    eapply Hret; [|exact Hcond]. by eapply list_elem_of_lookup_2.
Qed.

Lemma transitions_of_a_fresh_run (quiet_gates : bool) s tr :
  all_pending s ->
  (quiet_gates = true -> gates_return (SecurityWorkflow.steps s)) ->
  wp execute
     (fun _ new _ =>
        forallb (assignment_within (transitions quiet_gates)) new = true)
     s tr.
Proof.
  intros Hfresh Hgates.
  eapply wp_mono.
  { apply (execute_invariant
             (fun indices l res =>
                pending_ahead indices l res
                /\ (quiet_gates = true -> gates_return l))
             (fun _ _ => True)
             (assignment_allowed (transitions quiet_gates))).
    - (* the entries of an iteration *)
      intros i rest l res step0 st res1 ev [[Hnd Hpending] Hret] Hst Hpol Hph.
      assert (Hi := lookup_lt_Some _ _ _ Hst).
      assert (H0 : WorkflowStep.status step0 = WorkflowStepStatus.PENDING)
        by (eapply Hpending; [by left|done]).
      unfold assignment_allowed.
      destruct Hph as [b| |st ev Hex|st v key f|st res1 msg Hc|st res1 Hc
                       |st res1 f Hm|st res1 msg Hm
                       |e msg Hraised|e Hraised|st e f Hg|st e msg Hg]; try done.
      + exists step0. rewrite list_lookup_insert_eq by done.
        split; [done|]. right. rewrite H0. by destruct quiet_gates.
      + inversion Hex as [Hb| |? ? ? Hfl|? Hfl| |? ? Hfl|? Hfl|]; subst; try done.
        all: exists st; rewrite list_lookup_insert_eq by done; split; [done|].
        1: right; rewrite <- Hb, H0; by destruct quiet_gates.
        all: destruct Hfl as [-> | ->]; destruct quiet_gates; auto.
      + exists st. rewrite list_lookup_insert_eq by done. split; [done|].
        destruct Hc as [[_ [-> | ->]]|(v & _ & -> & _)]; destruct quiet_gates; auto.
      + exists step0. rewrite list_lookup_insert_eq by done. split; [done|].
        right. rewrite H0. destruct quiet_gates; [|done].
        destruct Hraised as (cond & t & Hcond & Ht).
        exfalso. eapply (Hret eq_refl); [|exact Hcond|exact Ht].
        by eapply list_elem_of_lookup_2.
    - (* an iteration returns *)
      intros i rest l res step0 st res1 evs [[Hnd Hpending] Hret] Hst Hpol Hout.
      apply NoDup_cons in Hnd as [Hnotin Hnd]. split; [split; [done|]|].
      + intros j step Hj Hlookup.
        rewrite list_lookup_insert_ne in Hlookup by (intros ->; done).
        eapply Hpending; [by right|done].
      + intros Hq. by eapply gates_raise_only_insert; [| |apply Hret].
    - done.
    - intros indices l res ev Hev _. by destruct ev.
    - intros l res ev Hev _. by destruct ev.
    - split; [|done]. split; [apply NoDup_seq|]. intros i step _ Hlookup.
      eapply Forall_forall in Hfresh; [exact Hfresh|].
      by eapply list_elem_of_lookup_2. }
  intros r new s' [Hall _]. apply forallb_forall. intros e He.
  apply holds_at_assignment_allowed.
  eapply Forall_forall in Hall; [exact Hall|]. by apply list_elem_of_In.
Qed.

(** C8 (as amended). In a run of [execute] on a workflow whose steps are
    all Pending, which no other call on the workflow interleaves, every
    assignment to a step's status that changes it is one of Pending to
    Running, Running to Completed, Running to Failed, Pending to Skipped,
    Completed to Failed and Pending to Failed; and Pending to Failed does
    not occur in a workflow none of whose condition predicates raises.  So
    Skipped is reached from Pending only, and Completed is left for Failed
    only. *)
Theorem C8_status_transitions (w : World) :
  all_pending (wf w) ->
  forallb (assignment_within permitted_transition) (new_entries execute w) = true
  /\ (gates_return (SecurityWorkflow.steps (wf w)) ->
      forallb (assignment_within settled_transition) (new_entries execute w)
      = true).
Proof.
  intros Hfresh. split.
  - assert (H : wp execute
                  (fun _ new _ =>
                     forallb (assignment_within (transitions false)) new = true)
                  (wf w) (trace w))
      by by apply transitions_of_a_fresh_run.
    exact (wp_run execute _ w H).
  - intros Hgates.
    assert (H : wp execute
                  (fun _ new _ =>
                     forallb (assignment_within (transitions true)) new = true)
                  (wf w) (trace w))
      by by apply transitions_of_a_fresh_run.
    exact (wp_run execute _ w H).
Qed.

Lemma C8_status_transitions_witness :
  (all_pending (wf raising_gate_world)
   /\ forallb (assignment_within permitted_transition)
              (new_entries execute raising_gate_world) = true)
  /\ (all_pending (wf store_failure_world)
      /\ gates_return (SecurityWorkflow.steps (wf store_failure_world))
      /\ forallb (assignment_within settled_transition)
                 (new_entries execute store_failure_world) = true).
Proof.
  assert (H1 : all_pending (wf raising_gate_world)) by (repeat constructor).
  assert (H2 : all_pending (wf store_failure_world)) by (repeat constructor).
  assert (H3 : gates_return (SecurityWorkflow.steps (wf store_failure_world))).
  { intros step cond t e Hstep Hcond.
    apply list_elem_of_singleton in Hstep as ->. by apply elem_of_nil in Hcond. }
  split; [split; [exact H1|]|split; [exact H2|split; [exact H3|]]].
  - exact (proj1 (C8_status_transitions raising_gate_world H1)).
  - exact (proj2 (C8_status_transitions store_failure_world H2) H3).
Defined.

(** C8 as stated fails: when the context store refuses the update, the
    step goes from Completed to Failed; and when a condition predicate
    raises, the step goes from Pending to Failed. *)
Lemma C8_transitions_outside_the_claim :
  (all_pending (wf store_failure_world)
   /\ forallb (assignment_within claimed_transition)
              (new_entries execute store_failure_world) = false)
  /\ (all_pending (wf raising_gate_world)
      /\ forallb (assignment_within settled_transition)
                 (new_entries execute raising_gate_world) = false).
Proof.
  split; (split; [repeat constructor|vm_compute; reflexivity]).
Qed.

(** ** C7: the error of a Failed step *)

Lemma forallb_insert {A} (p : A -> bool) (l : list A) i x :
  forallb p l = true -> p x = true -> forallb p (<[i := x]> l) = true.
Proof.
  revert i; induction l as [|y l IH]; intros i Hl Hx; [done|].
  cbn in Hl. apply andb_true_iff in Hl as [Hy Hl].
  destruct i; cbn; apply andb_true_iff; auto.
Qed.

Lemma forallb_lookup {A} (p : A -> bool) (l : list A) i x :
  forallb p l = true -> l !! i = Some x -> p x = true.
Proof.
  intros Hl Hx. eapply forallb_forall in Hl; [exact Hl|].
  apply list_elem_of_In. by eapply list_elem_of_lookup_2.
Qed.

Lemma error_reported_not_failed step :
  WorkflowStep.status step <> WorkflowStepStatus.FAILED ->
  error_reported step = true.
Proof. unfold error_reported. by destruct (WorkflowStep.status step). Qed.

Lemma error_reported_message step m :
  WorkflowStep.error step = Some m -> m <> "" -> error_reported step = true.
Proof.
  unfold error_reported. intros -> Hm.
  destruct (WorkflowStep.status step); try done.
  apply negb_true_iff. by apply String.eqb_neq.
Qed.

Lemma error_reported_in_flight step :
  in_flight (WorkflowStep.status step) -> error_reported step = true.
Proof. intros [H|H]; apply error_reported_not_failed; by rewrite H. Qed.

Lemma error_reported_marked step0 res0 st res :
  marked_failed step0 res0 st res -> error_reported st = true.
Proof. intros (_ & m & Hm & Hne & _). by eapply error_reported_message. Qed.

Lemma error_reported_gate l i step0 e st :
  gates_explain l -> l !! i = Some step0 -> gate_failed step0 e st ->
  error_reported st = true.
Proof.
  intros Hgates Hst [(cond & t & Hcond & Ht) ->].
  eapply error_reported_message; [reflexivity|].
  eapply Hgates; [|exact Hcond|exact Ht]. by eapply list_elem_of_lookup_2.
Qed.

Lemma execute_explains s tr :
  errors_reported s = true ->
  gates_explain (SecurityWorkflow.steps s) ->
  wp execute
     (fun _ new s' =>
        Forall (holds_at explained_at) new /\ errors_reported s' = true)
     s tr.
Proof.
  intros Hinit Hgates.
  eapply wp_mono.
  { apply (execute_invariant
             (fun _ l _ => forallb error_reported l = true /\ gates_explain l)
             (fun l _ => forallb error_reported l = true)
             explained_at).
    - intros i rest l res step0 st res1 ev [Hl Hg] Hst Hpol Hph Hev.
      apply forallb_insert; [done|].
      destruct Hph as [b| |st ev Hex|st v key f Hc|st res1 msg Hc|st res1 Hc
                       |st res1 f Hm|st res1 msg Hm
                       |e msg Hraised|e Hraised|st e f Hgate|st e msg Hgate];
        try done.
      + by eapply forallb_lookup.
      + inversion Hex; subst; try done; by apply error_reported_in_flight.
      + apply error_reported_not_failed. by rewrite Hc.
      + by eapply error_reported_marked.
      + by eapply error_reported_gate.
    - intros i rest l res step0 st res1 evs [Hl Hg] Hst Hpol Hout.
      split; [|by eapply gates_raise_only_insert].
      apply forallb_insert; [done|].
      inversion Hout as [|? ? ? Hc| | |]; subst.
      + by apply error_reported_not_failed.
      + apply error_reported_not_failed. by rewrite Hc.
    - intros i rest l res step0 st res1 evs e [Hl Hg] Hst Hpol Hout.
      apply forallb_insert; [done|].
      inversion Hout as [| |? ? ? ? Herr Hne|? ? ? ? ? ? Herr|? ? ? Hgate]; subst.
      + by eapply error_reported_message.
      + by eapply error_reported_message.
      + by eapply error_reported_gate.
    - by intros indices l res ev _ [Hl _] _.
    - by intros l res ev _ Hl _.
    - by split. }
  intros r new s' [Hall [[_ [Hend _]]|Hend]]; by split.
Qed.

(** Close a goal about the entries made and the final steps. *)
Ltac finish_explained :=
  split;
  [ split_entries; try done; unfold holds_at, explained_at; simpl_goal;
    try done
  | unfold errors_reported in *; simpl_goal; try done ].

Lemma cancel_explains s tr :
  errors_reported s = true ->
  wp cancel
     (fun _ new s' =>
        Forall (holds_at explained_at) new /\ errors_reported s' = true)
     s tr.
Proof.
  intros Hinit. unfold cancel. wp_steps.
  2: by finish_explained.
  destruct (SecurityWorkflow.steps s !! SecurityWorkflow.current_step s)
    as [step|] eqn:Hst; [|by finish_explained].
  wp_steps; simpl_goal.
  all: rewrite ?(alter_lookup_insert _ _ _ _ Hst), ?alter_insert_same.
  all: finish_explained.
  all: try intros _.
  all: by apply forallb_insert.
Qed.

Lemma resume_explains s tr :
  errors_reported s = true ->
  gates_explain (SecurityWorkflow.steps s) ->
  wp resume
     (fun _ new s' =>
        Forall (holds_at explained_at) new /\ errors_reported s' = true)
     s tr.
Proof.
  intros Hinit Hgates. unfold resume. wp_steps.
  1, 3: by finish_explained.
  eapply wp_mono; [apply execute_explains; [exact Hinit|exact Hgates]|].
  intros r new s' [Hall Hend]. destruct r; wp_steps.
  all: by finish_explained.
Qed.

Lemma holds_at_explained e :
  holds_at explained_at e ->
  implb (hands_over (event e)) (errors_reported (at_state e)) = true.
Proof.
  unfold holds_at, explained_at, errors_reported.
  destruct (hands_over (event e)); [|done]. intros H. by rewrite H.
Qed.

Lemma explains_run {A} (m : M A) (w : World) :
  wp m (fun _ new s' =>
          Forall (holds_at explained_at) new /\ errors_reported s' = true)
     (wf w) (trace w) ->
  failures_explained m w.
Proof.
  intros H. apply wp_run in H as [Hall Hend]. split; [|done].
  apply forallb_forall. intros e He. apply holds_at_explained.
  eapply Forall_forall in Hall; [exact Hall|]. by apply list_elem_of_In.
Qed.

(** C7 (as amended). From a workflow in which every Failed step has a
    non-empty error (a new workflow is one) and no condition predicate
    raises an exception whose message is empty, [execute], [cancel] and
    [resume] keep every Failed step with a non-empty error at every moment
    they hand control to a tool, to the event loop, to a condition, to a
    cleanup hook or to the context store, and when they end: whatever the
    tool raised, with whatever message, and for any [retry_count]. *)
Theorem C7_failed_steps_have_errors (w : World) :
  errors_reported (wf w) = true ->
  gates_explain (SecurityWorkflow.steps (wf w)) ->
  failures_explained execute w
  /\ failures_explained cancel w
  /\ failures_explained resume w.
Proof.
  intros Hinit Hgates. split_and!; apply explains_run.
  - by apply execute_explains.
  - by apply cancel_explains.
  - by apply resume_explains.
Qed.

Lemma C7_failed_steps_have_errors_witness :
  errors_reported (wf speaking_gate_world) = true
  /\ gates_explain (SecurityWorkflow.steps (wf speaking_gate_world))
  /\ failures_explained execute speaking_gate_world.
Proof.
  assert (H : errors_reported (wf speaking_gate_world) = true) by reflexivity.
  assert (Hg : gates_explain (SecurityWorkflow.steps (wf speaking_gate_world))).
  { intros step cond t e Hstep Hcond.
    apply list_elem_of_singleton in Hstep as ->.
    apply list_elem_of_singleton in Hcond as ->.
    intros [= <-]. discriminate. }
  split; [exact H|]. split; [exact Hg|].
  exact (proj1 (C7_failed_steps_have_errors speaking_gate_world H Hg)).
Defined.

(** C7 as stated fails.  A tool raises an exception whose message is
    empty: when [_execute_step] has marked the step Failed and emits
    [step_failed], the step's error is the empty string.  A condition
    predicate raises an exception whose message is empty: the step is Failed
    with the empty string as its error when its cleanup hook is called and
    when [execute] ends. *)
Lemma C7_failed_with_empty_error :
  (errors_reported (wf failing_world) = true
   /\ forallb (fun e => errors_reported (at_state e))
              (new_entries execute failing_world) = false)
  /\ (errors_reported (wf raising_gate_world) = true
      /\ forallb (fun e => implb (hands_over (event e))
                                (errors_reported (at_state e)))
                 (new_entries execute raising_gate_world) = false
      /\ errors_reported (final execute raising_gate_world) = false).
Proof.
  split; [split; [reflexivity|vm_compute; reflexivity]|].
  split; [reflexivity|]. split; vm_compute; reflexivity.
Qed.


(** ** C2: results and statuses *)

Lemma prefix_append (a b : string) : String.prefix a (a +:+ b) = true.
Proof.
  induction a as [|c a IH]; [by destruct b|].
  change (String c a +:+ b) with (String c (a +:+ b)).
  change (String.prefix (String c a) (String c (a +:+ b)))
    with (if Ascii.ascii_dec c c then String.prefix a (a +:+ b) else false).
  destruct (Ascii.ascii_dec c c); [exact IH|done].
Qed.

Lemma has_entry_none res step :
  res !! WorkflowStep.name step = None -> has_entry res step = false.
Proof.
  intros H. unfold has_entry. rewrite H. apply bool_decide_eq_false_2.
  by intros [? ?].
Qed.

Lemma has_entry_some res step v :
  res !! WorkflowStep.name step = Some v -> has_entry res step = true.
Proof. intros H. unfold has_entry. rewrite H. by apply bool_decide_eq_true_2. Qed.

Lemma entry_sound_none res step :
  res !! WorkflowStep.name step = None -> entry_sound res step = true.
Proof.
  intros H. unfold entry_sound. rewrite (has_entry_none _ _ H).
  by destruct (WorkflowStep.status step).
Qed.

Lemma entry_sound_completed res step :
  WorkflowStep.status step = WorkflowStepStatus.COMPLETED ->
  entry_sound res step = true.
Proof. intros H. unfold entry_sound. by rewrite H. Qed.

Lemma done_ok_sound res step : done_ok res step -> entry_sound res step = true.
Proof.
  intros [(H & _)|(_ & H)];
    [by apply entry_sound_completed|by apply entry_sound_none].
Qed.

Lemma pending_ok_sound res step : pending_ok res step -> entry_sound res step = true.
Proof. intros [_ H]. by apply entry_sound_none. Qed.

Lemma failed_ok_sound res step : failed_ok res step -> entry_sound res step = true.
Proof.
  intros [Hs [H|H]]; [by apply entry_sound_none|].
  unfold entry_sound. rewrite Hs, H. apply implb_true_r.
Qed.

Lemma done_ok_complete res step : done_ok res step -> entry_complete res step = true.
Proof.
  unfold entry_complete. intros [(-> & [v Hv] & H)|(-> & _)]; [|done].
  rewrite Hv in H. rewrite (has_entry_some _ _ _ H), H, Hv.
  by rewrite bool_decide_eq_true_2.
Qed.

(** Distinct names: another step has another name. *)
Lemma other_name (l : list WorkflowStep.t) i j a b :
  NoDup (WorkflowStep.name <$> l) ->
  l !! i = Some a -> l !! j = Some b -> i <> j ->
  WorkflowStep.name a <> WorkflowStep.name b.
Proof.
  intros Hnd Ha Hb Hij Heq. apply Hij.
  eapply (NoDup_lookup _ i j (WorkflowStep.name a)); [exact Hnd| |].
  - by rewrite list_lookup_fmap, Ha.
  - by rewrite list_lookup_fmap, Hb, Heq.
Qed.

Lemma names_insert (l : list WorkflowStep.t) i step0 st :
  l !! i = Some step0 ->
  WorkflowStep.name st = WorkflowStep.name step0 ->
  WorkflowStep.name <$> <[i := st]> l = WorkflowStep.name <$> l.
Proof.
  intros Hst Hname. rewrite list_fmap_insert, Hname.
  apply list_insert_id. by rewrite list_lookup_fmap, Hst.
Qed.

Lemma lookup_other_name step0 res res1 step :
  results_of_iteration step0 res res1 ->
  WorkflowStep.name step0 <> WorkflowStep.name step ->
  res1 !! WorkflowStep.name step = res !! WorkflowStep.name step.
Proof. intros [->|[v ->]] Hne; [done|]. by rewrite lookup_insert_ne. Qed.

Lemma done_ok_other step0 res res1 step :
  results_of_iteration step0 res res1 ->
  WorkflowStep.name step0 <> WorkflowStep.name step ->
  done_ok res step -> done_ok res1 step.
Proof.
  intros Hres Hne. unfold done_ok.
  by rewrite (lookup_other_name _ _ _ _ Hres Hne).
Qed.

Lemma pending_ok_other step0 res res1 step :
  results_of_iteration step0 res res1 ->
  WorkflowStep.name step0 <> WorkflowStep.name step ->
  pending_ok res step -> pending_ok res1 step.
Proof.
  intros Hres Hne. unfold pending_ok.
  by rewrite (lookup_other_name _ _ _ _ Hres Hne).
Qed.

(** The profile after the iteration for step [i] has changed that step to
    [st] and the results to [res1]. *)
Lemma profile_step i broken' l res step0 st res1 (k' : nat) :
  profile i false l res ->
  l !! i = Some step0 ->
  same_policy step0 st ->
  results_of_iteration step0 res res1 ->
  (k' = i \/ k' = S i) ->
  (k' = S i -> done_ok res1 st) ->
  (k' = i -> current_ok broken' res1 st) ->
  (k' = S i -> broken' = false) ->
  profile k' broken' (<[i := st]> l) res1.
Proof.
  intros [Hnd Hprof] Hst [Hname _] Hres Hk Hdone Hcur Hbroken. split.
  - by rewrite (names_insert _ _ step0).
  - intros j step Hj. destruct (decide (j = i)) as [->|Hne].
    + rewrite list_lookup_insert_eq in Hj by (by eapply lookup_lt_Some).
      injection Hj as <-. split_and!.
      * intros Hlt. apply Hdone. lia.
      * intros Heq. rewrite <- Heq in Hcur. by apply Hcur.
      * intros Hlt. lia.
    + rewrite list_lookup_insert_ne in Hj by done.
      destruct (Hprof j step Hj) as (H1 & H2 & H3).
      assert (Hother : WorkflowStep.name step0 <> WorkflowStep.name step)
        by (by eapply (other_name l i j)).
      split_and!.
      * intros Hlt. eapply done_ok_other; [done|done|]. apply H1. lia.
      * intros Heq. assert (k' = S i) as Hk' by lia.
        rewrite (Hbroken Hk'). unfold current_ok.
        eapply pending_ok_other; [done|done|].
        apply H3. lia.
      * intros Hlt. eapply pending_ok_other; [done|done|]. apply H3. lia.
Qed.

Lemma profile_sound k broken l res :
  profile k broken l res -> forallb (entry_sound res) l = true.
Proof.
  intros [_ Hprof]. apply forallb_forall. intros step Hin.
  apply list_elem_of_In, list_elem_of_lookup in Hin as [j Hj].
  destruct (Hprof j step Hj) as (H1 & H2 & H3).
  destruct (lt_eq_lt_dec j k) as [[Hlt|Heq]|Hgt].
  - by apply done_ok_sound, H1.
  - specialize (H2 Heq). unfold current_ok in H2. destruct broken;
      [by apply failed_ok_sound|by apply pending_ok_sound].
  - by apply pending_ok_sound, H3.
Qed.

Lemma profile_complete k broken l res :
  profile k broken l res -> forallb (entry_complete res) l = true.
Proof.
  intros [_ Hprof]. apply forallb_forall. intros step Hin.
  apply list_elem_of_In, list_elem_of_lookup in Hin as [j Hj].
  destruct (Hprof j step Hj) as (H1 & H2 & H3).
  destruct (lt_eq_lt_dec j k) as [[Hlt|Heq]|Hgt].
  - by apply done_ok_complete, H1.
  - specialize (H2 Heq). unfold entry_complete, current_ok in *.
    destruct broken; destruct H2 as [-> _]; done.
  - destruct (H3 Hgt) as [Hs _]. unfold entry_complete. by rewrite Hs.
Qed.

Lemma profile_current i l res step0 :
  profile i false l res -> l !! i = Some step0 -> pending_ok res step0.
Proof. intros [_ H] Hst. destruct (H i step0 Hst) as (_ & H2 & _). by apply H2. Qed.

Lemma seq_head k n i rest :
  seq k n = i :: rest -> i = k /\ rest = seq (S k) (n - 1).
Proof. destruct n; cbn; [done|]. intros [= <- <-]. by rewrite Nat.sub_0_r. Qed.

Lemma sound_during i l res step0 st res1 :
  profile i false l res ->
  l !! i = Some step0 ->
  same_policy step0 st ->
  results_of_iteration step0 res res1 ->
  entry_sound res1 st = true ->
  forallb (entry_sound res1) (<[i := st]> l) = true.
Proof.
  intros [Hnd Hprof] Hst Hpol Hres Hsound.
  apply forallb_forall. intros step Hin.
  apply list_elem_of_In, list_elem_of_lookup in Hin as [j Hj].
  destruct (decide (j = i)) as [->|Hne].
  - rewrite list_lookup_insert_eq in Hj by (by eapply lookup_lt_Some).
    by injection Hj as <-.
  - rewrite list_lookup_insert_ne in Hj by done.
    destruct (Hprof j step Hj) as (H1 & H2 & H3).
    assert (Hother : WorkflowStep.name step0 <> WorkflowStep.name step)
      by (by eapply (other_name l i j)).
    destruct (lt_eq_lt_dec j i) as [[Hlt|Heq]|Hgt]; [|done|].
    + eapply done_ok_sound, done_ok_other; [done|done|by apply H1].
    + eapply pending_ok_sound, pending_ok_other; [done|done|by apply H3].
Qed.

Lemma results_of_a_fresh_run s tr :
  as_constructed s ->
  wp execute
     (fun _ new s' =>
        Forall (fun e => results_sound (at_state e) = true) new
        /\ results_sound s' = true /\ results_complete s' = true)
     s tr.
Proof.
  intros (Hpending & Hnames & Hempty).
  eapply wp_mono.
  { apply (execute_invariant loop_at loop_broken sound_at).
    - (* the entries of an iteration *)
      intros i rest l res step0 st res1 ev (k & Hseq & Hprof) Hst Hpol Hph.
      symmetry in Hseq; apply seq_head in Hseq as [<- _].
      assert (Hcur : pending_ok res step0) by (by eapply profile_current).
      destruct Hcur as [H0 Hnone].
      assert (Hname : WorkflowStep.name st = WorkflowStep.name step0)
        by (symmetry; apply Hpol).
      unfold sound_at.
      assert (Hquiet : res !! WorkflowStep.name st = None) by (by rewrite Hname).
      destruct Hph as [b| |st ev Hex|st v key f Hs Hr|st res1 msg Hc|st res1 Hc
                       |st res1 f Hm|st res1 msg Hm
                       |e msg Hraised|e Hraised|st e f Hgate|st e msg Hgate].
      9-12: eapply sound_during;
              [done|done|done|by left|by apply entry_sound_none].
      + eapply sound_during; [done|done|done|by left|by apply entry_sound_none].
      + eapply sound_during; [done|done|done|by left|by apply entry_sound_none].
      + eapply sound_during; [done|done|done|by left|by apply entry_sound_none].
      + eapply sound_during; [done|done|done|right; by eexists|].
        by apply entry_sound_completed.
      + destruct Hc as [[-> _]|(v & -> & Hs & _)].
        * eapply sound_during; [done|done|done|by left|by apply entry_sound_none].
        * eapply sound_during; [done|done|done|right; by eexists|].
          by apply entry_sound_completed.
      + destruct Hc as [[-> _]|(v & -> & Hs & _)].
        * eapply sound_during; [done|done|done|by left|by apply entry_sound_none].
        * eapply sound_during; [done|done|done|right; by eexists|].
          by apply entry_sound_completed.
      + destruct Hm as (Hs & m & Herr & _ & [->|(v & m' & -> & _ & ->)]).
        * eapply sound_during; [done|done|done|by left|by apply entry_sound_none].
        * eapply sound_during; [done|done|done|right; by eexists|].
          unfold entry_sound, store_refused. rewrite Hs, Herr, prefix_append.
          apply implb_true_r.
      + destruct Hm as (Hs & m & Herr & _ & [->|(v & m' & -> & _ & ->)]).
        * eapply sound_during; [done|done|done|by left|by apply entry_sound_none].
        * eapply sound_during; [done|done|done|right; by eexists|].
          unfold entry_sound, store_refused. rewrite Hs, Herr, prefix_append.
          apply implb_true_r.
    - (* an iteration returns *)
      intros i rest l res step0 st res1 evs (k & Hseq & Hprof) Hst Hpol Hout.
      symmetry in Hseq; apply seq_head in Hseq as [<- ->].
      assert (Hcur : pending_ok res step0) by (by eapply profile_current).
      destruct Hcur as [H0 Hnone].
      exists (S i). split.
      { rewrite length_insert. f_equal. lia. }
      inversion Hout as [evs' Hup Hcl|evs' st' v Hs Hr Hup Hcl| | |]; subst.
      + eapply (profile_step i false); [done|done|done|by left|by right| |lia|done].
        intros _. right. by split.
      + eapply (profile_step i false); [done|done|done|right; by eexists|by right| |lia|done].
        intros _. left. split; [done|]. split; [by rewrite Hr|].
        destruct Hpol as [<- _]. by rewrite lookup_insert_eq.
    - (* an iteration raises *)
      intros i rest l res step0 st res1 evs e (k & Hseq & Hprof) Hst Hpol Hout.
      symmetry in Hseq; apply seq_head in Hseq as [<- _].
      assert (Hcur : pending_ok res step0) by (by eapply profile_current).
      destruct Hcur as [H0 Hnone].
      exists i.
      inversion Hout as [| |evs' st' m Hs Herr Hm Hup Hcl
                         |evs' st' v m Hs Hr Herr Hup Hcl
                         |evs' st' e' Hgate Hin Hup Hcl]; subst.
      3: { eapply (profile_step i true);
             [done|done|done|by left|by left|lia| |lia].
           intros _. destruct Hgate as [_ ->]. split; [done|]. by left. }
      + eapply (profile_step i true); [done|done|done|by left|by left|lia| |lia].
        intros _. split; [done|]. left. destruct Hpol as [<- _]. done.
      + eapply (profile_step i true); [done|done|done|right; by eexists|by left|lia| |lia].
        intros _. split; [done|]. right.
        unfold store_refused. by rewrite Herr, prefix_append.
    - intros indices l res ev _ (k & _ & Hprof). by eapply profile_sound.
    - intros l res ev _ (k & Hprof). by eapply profile_sound.
    - exists 0%nat. split; [by rewrite Nat.sub_0_r|]. split; [done|].
      intros j step Hj.
      assert (Hp : pending_ok (SecurityWorkflow.results s) step).
      { split; [|by rewrite Hempty, lookup_empty].
        eapply Forall_forall in Hpending; [exact Hpending|].
        by eapply list_elem_of_lookup_2. }
      split_and!; [lia|done|done]. }
  intros r new s' [Hall Hend]. split.
  - eapply Forall_impl; [exact Hall|]. by intros e He.
  - unfold results_sound, results_complete.
    destruct Hend as [(indices & k & _ & Hprof)|(k & Hprof)];
      (split; [by eapply profile_sound|by eapply profile_complete]).
Qed.

Lemma entry_sound_interrupted res step st :
  entry_sound res step = true ->
  WorkflowStep.status step = WorkflowStepStatus.RUNNING ->
  WorkflowStep.name st = WorkflowStep.name step ->
  entry_sound res st = true.
Proof.
  unfold entry_sound, has_entry. intros H Hs Hname. rewrite Hs in H.
  rewrite Hname. apply negb_true_iff in H. rewrite H.
  by destruct (WorkflowStep.status st).
Qed.

Lemma cancel_keeps_results_sound s tr :
  results_sound s = true ->
  wp cancel
     (fun _ new s' =>
        Forall (fun e => results_sound (at_state e) = true) new
        /\ results_sound s' = true)
     s tr.
Proof.
  intros Hinit. unfold cancel. wp_steps.
  2: by (split; [split_entries|]).
  destruct (SecurityWorkflow.steps s !! SecurityWorkflow.current_step s)
    as [step|] eqn:Hst.
  2: { split; [split_entries|]; done. }
  wp_steps; simpl_goal.
  all: rewrite ?(alter_lookup_insert _ _ _ _ Hst), ?alter_insert_same.
  all: split; [split_entries|]; unfold results_sound in *; simpl_goal; try done.
  all: try intros _.
  all: apply forallb_insert; [done|].
  all: eapply entry_sound_interrupted; [by eapply forallb_lookup|done|done].
Qed.

Lemma forallb_states {A} (m : M A) (p : SecurityWorkflow.t -> bool) (w : World) :
  Forall (fun e => p (at_state e) = true) (new_entries m w) ->
  p (final m w) = true ->
  forallb p (states m w) = true.
Proof.
  intros Hall Hend. unfold states. apply forallb_forall. intros s Hin.
  apply in_app_or in Hin as [Hin|[<-|[]]]; [|done].
  apply in_rev, in_map_iff in Hin as (e & <- & He).
  eapply Forall_forall in Hall; [exact Hall|]. by apply list_elem_of_In.
Qed.

(** C2 (as amended). In a run of [execute] on a workflow as constructed,
    with steps of distinct names, at every event and at the end the results
    have no entry for a step that is Pending, Running or Skipped, and an
    entry for a Failed step only if the step's error is the context store's
    refusal of the update; when the run ends, the entry of every Completed
    step is there and is the step's result.  The first part still holds
    during and after a [cancel] called at any event of the run. *)
Theorem C2_results_and_statuses (w : World) :
  as_constructed (wf w) ->
  forallb results_sound (states execute w) = true
  /\ results_complete (final execute w) = true
  /\ forall e tr,
       In e (new_entries execute w) ->
       forallb results_sound (states cancel (mkWorld (at_state e) tr)) = true.
Proof.
  intros Hinit.
  destruct (wp_run execute _ w (results_of_a_fresh_run _ _ Hinit))
    as (Hall & Hsound & Hcomplete).
  split; [by apply forallb_states|]. split; [done|].
  intros e tr He.
  assert (Hsound_e : results_sound (at_state e) = true).
  { eapply Forall_forall in Hall; [exact Hall|]. by apply list_elem_of_In. }
  destruct (wp_run cancel _ (mkWorld (at_state e) tr)
              (cancel_keeps_results_sound _ _ Hsound_e)) as [Hall' Hend'].
  by apply forallb_states.
Qed.

Lemma store_failure_world_as_constructed : as_constructed (wf store_failure_world).
Proof.
  split; [repeat constructor|]. split; [|reflexivity].
  apply NoDup_singleton.
Qed.

Lemma C2_results_and_statuses_witness :
  as_constructed (wf store_failure_world)
  /\ forallb results_sound (states execute store_failure_world) = true
  /\ results_complete (final execute store_failure_world) = true.
Proof.
  assert (H : as_constructed (wf store_failure_world)).
  { split; [repeat constructor|]. split; [apply NoDup_singleton|reflexivity]. }
  split; [exact H|].
  destruct (C2_results_and_statuses store_failure_world H) as (H1 & H2 & _).
  by split.
Defined.

(** C2 as stated fails: when the context store refuses the update, the
    run ends with a Failed step whose result is in the results. *)
Lemma C2_failed_step_keeps_its_entry :
  as_constructed (wf store_failure_world)
  /\ results_exact (final execute store_failure_world) = false.
Proof.
  split; [exact store_failure_world_as_constructed|]. vm_compute. reflexivity.
Qed.


(** ** C4: failures of the audit sink *)

Lemma wp_conj {A} (m : M A) Q1 Q2 s tr :
  wp m Q1 s tr -> wp m Q2 s tr ->
  wp m (fun r new s' => Q1 r new s' /\ Q2 r new s') s tr.
Proof.
  intros (new1 & Htr1 & H1) (new2 & Htr2 & H2). exists new1.
  split; [done|]. split; [done|].
  rewrite Htr1 in Htr2. apply app_inv_tail in Htr2. by rewrite Htr2.
Qed.

Ltac solve_contained :=
  split_entries; try done; try (unfold contained; by simpl_goal).

(** Go on in both cases of a step lookup. *)
Ltac wp_lookups :=
  repeat (match goal with
          | |- match ?o with Some _ => _ | None => _ end => destruct o
          end; wp_steps).

Lemma retry_loop_contained (fuel : nat) (i : nat) :
  forall tries last_error s tr,
  wp (retry_loop fuel i tries last_error)
     (fun _ new _ => Forall contained new) s tr.
Proof.
  induction fuel as [|fuel IH]; intros tries le s tr; cbn [retry_loop].
  - wp_steps. constructor.
  - wp_steps.
    destruct (SecurityWorkflow.steps s !! i) as [step|]; [|constructor].
    repeat (progress wp_steps).
    all: wp_lookups.
    all: try (eapply wp_mono; [apply IH|]; intros r' new s' Hall).
    all: solve_contained.
Qed.

Lemma execute_step_contained (i : nat) s tr :
  wp (_execute_step i) (fun r new _ => contained_if_returned r new) s tr.
Proof.
  unfold _execute_step. wp_steps. wp_lookups.
  all: try done.
  all: try (eapply wp_mono; [apply retry_loop_contained|];
            intros r new s' Hall; destruct r as [e|[v|[tries le]]]; wp_steps;
            wp_lookups).
  all: unfold contained_if_returned; try done.
  all: solve_contained.
Qed.

Lemma step_failed_handler_raises (i : nat) (step : WorkflowStep.t) e s tr :
  wp (step_failed_handler i step e)
     (fun r _ _ => if r is inl _ then True else False) s tr.
Proof. unfold step_failed_handler. wp_steps; done. Qed.

Lemma execute_iteration_contained (i : nat) s tr :
  wp (execute_iteration i) (fun r new _ => contained_if_returned r new) s tr.
Proof.
  unfold execute_iteration. wp_steps. wp_lookups; [|done].
  eapply wp_mono; [apply all_conditions_frame|].
  intros r new s' (-> & Hconds & Hr).
  assert (Hquiet : Forall contained new).
  { eapply Forall_impl; [exact Hconds|]. intros e [_ [b' He]].
    unfold contained. by rewrite He. }
  destruct r as [e|b]; [|clear Hr; destruct b; cbn [negb]; wp_steps].
  - eapply wp_mono; [apply step_failed_handler_raises|].
    by intros [?|?] ? ? ?.
  - eapply wp_mono; [apply execute_step_contained|].
    intros r new1 s' Hall. destruct r as [e|v]; wp_steps.
    all: try (eapply wp_mono; [apply step_failed_handler_raises|];
              by intros [?|?] ? ? ?).
    unfold contained_if_returned in *. solve_contained.
  - unfold contained_if_returned. solve_contained.
Qed.


Lemma execute_steps_contained (indices : list nat) :
  forall s tr,
  Forall (fun i => (i < length (SecurityWorkflow.steps s))%nat) indices ->
  wp (execute_steps indices)
     (fun r new s' =>
        match r with
        | inr _ => Forall contained new
        | inl _ => current_step_failed s'
        end)
     s tr.
Proof.
  induction indices as [|i rest IH]; intros s tr Hvalid; cbn [execute_steps].
  - wp_steps. constructor.
  - apply Forall_cons in Hvalid as [Hi Hrest].
    destruct (lookup_lt_is_Some_2 _ _ Hi) as [step0 Hst].
    wp_step. eapply wp_mono.
    { apply wp_conj;
        [by apply (execute_iteration_spec i step0)
        |apply execute_iteration_contained]. }
    intros r new1 s' [(st & res & -> & Hpol & Hentries & Hout) Hcontained].
    destruct r as [e|[]].
    + exists st. unfold during, with_step. simpl_goal.
      rewrite list_lookup_insert_eq by done. split; [done|].
      inversion Hout as [| | | |? ? ? Hgate]; subst; try done.
      by destruct Hgate as [_ ->].
    + eapply wp_mono.
      { apply IH. eapply Forall_impl; [exact Hrest|].
        intros j Hj. by rewrite during_length. }
      intros r new2 s' Hrun. destruct r; [done|]. by apply Forall_app.
Qed.

Lemma refused_step_event_aborts s tr :
  wp execute
     (fun r new s' =>
        Forall contained new
        \/ (raises r
            /\ SecurityWorkflow.status s' = WorkflowStatus.FAILED
            /\ current_step_failed s'))
     s tr.
Proof.
  unfold execute. wp_steps.
  all: try (left; by solve_contained).
  eapply wp_mono.
  { apply execute_steps_contained. simpl_goal. apply Forall_forall.
    intros i Hi%elem_of_seq. lia. }
  intros r new_loop s2 Hrun. simpl_goal.
  destruct r as [e|[]]; wp_steps.
  all: try (left; by solve_contained).
  all: right; unfold current_step_failed in *; simpl_goal; done.
Qed.

(** C4 (as amended). A failure of the audit logger on a [step_started] or
    a [step_failed] event is not contained: in a run of [execute] in which
    the audit logger refuses such an event, the step the loop is at ends
    Failed, the workflow's status ends Failed and [execute] raises. *)
Theorem C4_audit_failure_propagates (w : World) :
  existsb refused_step_event (events execute w) = true ->
  raises (outcome execute w)
  /\ SecurityWorkflow.status (final execute w) = WorkflowStatus.FAILED
  /\ current_step_failed (final execute w).
Proof.
  intros Hrefused.
  destruct (wp_run execute _ w (refused_step_event_aborts _ _)) as [Hall|H];
    [|exact H].
  apply existsb_exists in Hrefused as (ev & Hin & Hev).
  unfold events, chronological in Hin.
  apply in_rev, in_map_iff in Hin as (e & <- & He).
  eapply Forall_forall in Hall; [|by apply list_elem_of_In].
  unfold contained in Hall. congruence.
Qed.

Lemma C4_audit_failure_propagates_witness :
  existsb refused_step_event (events execute sink_failure_world) = true
  /\ raises (outcome execute sink_failure_world)
  /\ SecurityWorkflow.status (final execute sink_failure_world)
     = WorkflowStatus.FAILED
  /\ current_step_failed (final execute sink_failure_world).
Proof.
  split; [reflexivity|].
  apply (C4_audit_failure_propagates sink_failure_world). reflexivity.
Defined.

(** C4 as stated fails: with an audit logger that refuses [step_started],
    the tool of the only step is never called, the step and the workflow end
    Failed and [execute] raises; with an audit logger that accepts every
    event, the same workflow calls the tool once, and the step and the
    workflow end Completed. *)
Lemma C4_refused_step_started_fails_the_run :
  ~ sink_failures_contained sink_failure_world.
Proof. unfold sink_failures_contained. vm_compute. intros H. discriminate H. Qed.


(** ** C3: [resume] *)

(** The paused workflow is what [pause] leaves when it is called while
    [execute] awaits the tool of the second step. *)
Lemma paused_workflow_reachable :
  option_map (fun e => final pause (mkWorld (at_state e) []))
    (tool_call_entry 1 (new_entries execute (fresh two_step_workflow)))
  = Some paused_workflow.
Proof. vm_compute. reflexivity. Qed.

(** C3 (the code at a paused workflow). [resume] on the paused workflow
    sets the status to Running and emits [workflow_resumed], and then runs
    the whole of [execute]: the tool of the first step, which is Completed,
    is called again, its [step_started] and [step_completed] events are
    emitted again, and its entry in the results is replaced by the new
    result. *)
Theorem C3_resume_restarts_from_the_first_step :
  SecurityWorkflow.status paused_workflow = WorkflowStatus.PAUSED
  /\ SecurityWorkflow.current_step paused_workflow = 1%nat
  /\ WorkflowStep.status <$> SecurityWorkflow.steps paused_workflow
     = [WorkflowStepStatus.COMPLETED; WorkflowStepStatus.RUNNING]
  /\ head (events resume paused_world)
     = Some (AuditEvent "workflow_resumed"
               [("name", DStr "assessment"); ("step", DInt 1)] None)
  /\ count_events (is_tool_call_of 0) (events resume paused_world) = 1%nat
  /\ count_events (is_audit_of_step "first") (events resume paused_world) = 2%nat
  /\ SecurityWorkflow.results paused_workflow !! "first"
     = Some [("finished_at", "4")]
  /\ SecurityWorkflow.results (final resume paused_world) !! "first"
     = Some [("finished_at", "5")].
Proof. repeat split; vm_compute; reflexivity. Qed.


(** ** [pause], [resume] and [cancel] *)

Lemma pause_spec s tr :
  SecurityWorkflow.status s = WorkflowStatus.RUNNING ->
  wp pause
     (fun r new s' =>
        s' = SecurityWorkflow.set_status WorkflowStatus.PAUSED s
        /\ exists failure,
             chronological new
             = [AuditEvent "workflow_paused"
                  [("name", DStr (SecurityWorkflow.name s));
                   ("step", DInt (Z.of_nat (SecurityWorkflow.current_step s)))]
                  failure]
             /\ r = audit_outcome failure)
     s tr.
Proof.
  intros Hs. unfold pause. wp_steps; try done.
  all: split; [done|]; eexists; split; reflexivity.
Qed.

(** [pause] on a Running workflow sets the status to Paused and emits one
    [workflow_paused] event that names the current step; the steps, the
    current step, the results and the times are as they were, and [pause]
    raises only if the audit logger refuses the event.  On a workflow that
    is not Running it does nothing. *)
Theorem pause_changes_the_status_only (w : World) :
  let self := wf w in
  (SecurityWorkflow.status self = WorkflowStatus.RUNNING ->
   final pause w = SecurityWorkflow.set_status WorkflowStatus.PAUSED self
   /\ exists failure,
        events pause w
        = [AuditEvent "workflow_paused"
             [("name", DStr (SecurityWorkflow.name self));
              ("step", DInt (Z.of_nat (SecurityWorkflow.current_step self)))]
             failure]
        /\ outcome pause w = audit_outcome failure)
  /\ (SecurityWorkflow.status self <> WorkflowStatus.RUNNING ->
      pause w = (inr tt, w)).
Proof.
  intros self. split.
  - intros Hs. exact (wp_run pause _ w (pause_spec _ _ Hs)).
  - intros Hs. destruct w as [s tr]. unfold pause, bind, get. cbn in *.
    by destruct (decide _).
Qed.

(** [resume] on a workflow that is not Paused does nothing.  On a Paused
    workflow whose [workflow_resumed] event the audit logger refuses,
    [resume] raises the logging error after it has set the status to
    Running: nothing else is changed, no other event happens and
    [execute] is not called. *)
Theorem resume_refused (w : World) :
  let self := wf w in
  (SecurityWorkflow.status self <> WorkflowStatus.PAUSED ->
   resume w = (inr tt, w))
  /\ (forall m,
        SecurityWorkflow.status self = WorkflowStatus.PAUSED ->
        audit_failure (SecurityWorkflow.logging_service self)
          (length (trace w)) "workflow_resumed" = Some m ->
        outcome resume w
        = inl (mkExn LoggingError ("Failed to log audit event: " +:+ m))
        /\ final resume w
           = SecurityWorkflow.set_status WorkflowStatus.RUNNING self
        /\ events resume w
           = [AuditEvent "workflow_resumed"
                [("name", DStr (SecurityWorkflow.name self));
                 ("step", DInt (Z.of_nat (SecurityWorkflow.current_step self)))]
                (Some m)]).
Proof.
  intros self. split.
  - intros Hs. destruct w as [s tr]. unfold resume, bind, get. cbn in *.
    by destruct (decide _).
  - intros m Hs Hrefused. destruct w as [s tr]. subst self. cbn in *.
    unfold audit_failure in Hrefused.
    unfold outcome, final, events, new_entries, resume.
    unfold bind, get, modify, log_audit_event, bind, get, now, emit, raise.
    cbn. destruct (decide _) as [_|Hne]; [|done]. cbn.
    rewrite Hrefused. cbn.
    replace (S (length tr) - length tr)%nat with 1%nat by lia.
    done.
Qed.

Lemma cancel_idle_step s tr step :
  SecurityWorkflow.status s = WorkflowStatus.RUNNING ->
  SecurityWorkflow.steps s !! SecurityWorkflow.current_step s = Some step ->
  WorkflowStep.status step <> WorkflowStepStatus.RUNNING ->
  wp cancel
     (fun r new s' =>
        exists t failure,
          s' = SecurityWorkflow.set_end_time (Some t)
                 (SecurityWorkflow.set_status WorkflowStatus.CANCELLED s)
          /\ chronological new = [cancelled_event s failure]
          /\ r = audit_outcome failure)
     s tr.
Proof.
  intros Hs Hst Hidle. unfold cancel. wp_steps; try done.
  all: rewrite Hst in *; wp_steps; try done.
  all: do 2 eexists; split_and!; reflexivity.
Qed.

(** [cancel] on a Running workflow whose current step is not Running (it
    is Pending, Completed, Failed or Skipped): the workflow becomes
    Cancelled and gets an end time, the steps are left as they are, the
    step's cleanup hook is not called, and the only event is
    [workflow_cancelled]. *)
Theorem cancel_leaves_an_idle_step (w : World) (step : WorkflowStep.t) :
  let self := wf w in
  SecurityWorkflow.status self = WorkflowStatus.RUNNING ->
  SecurityWorkflow.steps self !! SecurityWorkflow.current_step self = Some step ->
  WorkflowStep.status step <> WorkflowStepStatus.RUNNING ->
  exists t failure,
    final cancel w
    = SecurityWorkflow.set_end_time (Some t)
        (SecurityWorkflow.set_status WorkflowStatus.CANCELLED self)
    /\ events cancel w = [cancelled_event self failure]
    /\ outcome cancel w = audit_outcome failure.
Proof.
  intros self Hs Hst Hidle.
  exact (wp_run cancel _ w (cancel_idle_step _ _ _ Hs Hst Hidle)).
Qed.

Lemma cancel_outcome s tr step :
  SecurityWorkflow.status s = WorkflowStatus.RUNNING ->
  SecurityWorkflow.steps s !! SecurityWorkflow.current_step s = Some step ->
  wp cancel
     (fun r new s' =>
        exists failure,
          last (chronological new) = Some (cancelled_event s failure)
          /\ r = audit_outcome failure
          /\ forall e,
               CleanupCall (SecurityWorkflow.current_step s) (Some e)
                 ∈ chronological new ->
               LoggerError ("Cleanup failed for cancelled step "
                            +:+ WorkflowStep.name step +:+ ": " +:+ str e)
                 ∈ chronological new)
     s tr.
Proof.
  intros Hs Hst. unfold cancel. wp_steps; try done.
  all: rewrite Hst in *; wp_steps; try done.
  all: eexists; split_and!; [reflexivity|reflexivity|].
  all: intros e' He'; cbn in He' |- *.
  all: rewrite ?elem_of_cons, ?elem_of_nil in He' |- *.
  all: repeat (destruct He' as [He'|He'];
               [try discriminate He';
                try (injection He' as ->;
                     repeat (first [left; reflexivity | right]))|]).
  all: done.
Qed.

(** [cancel] on a Running workflow never raises what the cleanup hook of
    the cancelled step raises: a failing hook is reported to the module
    logger, the [workflow_cancelled] event is still the last thing that
    happens, and [cancel] raises only if the audit logger refuses that
    event. *)
Theorem cancel_swallows_cleanup_failures (w : World) (step : WorkflowStep.t) :
  let self := wf w in
  SecurityWorkflow.status self = WorkflowStatus.RUNNING ->
  SecurityWorkflow.steps self !! SecurityWorkflow.current_step self = Some step ->
  exists failure,
    last (events cancel w) = Some (cancelled_event self failure)
    /\ outcome cancel w = audit_outcome failure
    /\ forall e,
         CleanupCall (SecurityWorkflow.current_step self) (Some e)
           ∈ events cancel w ->
         LoggerError ("Cleanup failed for cancelled step "
                      +:+ WorkflowStep.name step +:+ ": " +:+ str e)
           ∈ events cancel w.
Proof.
  intros self Hs Hst.
  exact (wp_run cancel _ w (cancel_outcome _ _ _ Hs Hst)).
Qed.

(** ** The retry schedule of any tool *)

Lemma retry_loop_schedule (i : nat) (step0 : WorkflowStep.t) (s : SecurityWorkflow.t)
    (fuel : nat) :
  (i < length (SecurityWorkflow.steps s))%nat ->
  forall tries last_error st1 tr,
  same_policy step0 st1 ->
  0 <= tries ->
  fuel = Z.to_nat (WorkflowStep.retry_count step0 - tries) ->
  wp (retry_loop fuel i tries last_error)
     (fun r new s' =>
        exists st' n,
          s' = with_step s i st'
          /\ same_policy step0 st'
          /\ (n <= fuel)%nat
          /\ ((1 <= fuel)%nat -> (1 <= n)%nat)
          /\ acts (chronological new) = remaining_schedule (Z.to_nat tries) n
          /\ match r with
             | inr (inl v) => (1 <= n)%nat
             | inr (inr (tries', _)) => n = fuel /\ tries' = tries + Z.of_nat fuel
             | inl _ => False
             end)
     (with_step s i st1) tr.
Proof.
  intros Hi. induction fuel as [|fuel IH]; intros tries le st1 tr Hpol Htries Hfuel;
    cbn [retry_loop].
  - wp_steps. exists st1, 0%nat. split_and!; try done; lia.
  - assert (Hrc : WorkflowStep.retry_count st1 = WorkflowStep.retry_count step0)
      by (symmetry; apply Hpol).
    wp_steps; norm_state; rewrite ?list_lookup_insert_eq by done.
    rewrite Hrc.
    replace (tries <? WorkflowStep.retry_count step0) with true
      by (symmetry; apply Z.ltb_lt; lia).
    repeat (progress (wp_steps; norm_state;
                       rewrite ?list_lookup_insert_eq by done)).
    all: try (apply Z.ltb_lt in Heqb).
    all: try (apply Z.ltb_ge in Heqb).
    all: try (eapply wp_mono;
              [apply (IH (tries + 1)); [solve_policy|lia|lia] |];
              intros r' new s' (st' & n & -> & Hpol' & Hn & H1 & Hacts & Hr);
              exists st', (S n); split_and!; [done|done|lia|lia| |];
              [ acts_norm; rewrite Hacts;
                change (acts (chronological [])) with (@nil Act);
                cbv [option_list option_rect]; cbn [app];
                replace (Z.to_nat (tries + 1)) with (S (Z.to_nat tries)) by lia;
                try (destruct n as [|n]; [lia|]);
                try (replace n with 0%nat by lia);
                cbn [remaining_schedule seq flat_map app];
                repeat f_equal; lia
              | destruct r' as [?|[?|[? ?]]]; [done|lia|];
                destruct Hr as [-> ->]; split; lia ]).
    all: eexists; exists 1%nat; split_and!; [reflexivity|solve_policy|lia|lia| |lia].
    all: by acts_norm.
Qed.

Lemma execute_step_schedule (i : nat) (step0 : WorkflowStep.t) s tr :
  SecurityWorkflow.steps s !! i = Some step0 ->
  wp (_execute_step i)
     (fun r new s' =>
        exists n,
          (n <= Z.to_nat (WorkflowStep.retry_count step0))%nat
          /\ acts (chronological new) = remaining_schedule 0 n
          /\ match r with
             | inr _ => (1 <= n)%nat
             | inl e =>
                 exn_class e = WorkflowError ->
                 n = Z.to_nat (WorkflowStep.retry_count step0)
             end)
     s tr.
Proof.
  intros Hst. assert (Hi := lookup_lt_Some _ _ _ Hst).
  unfold _execute_step. wp_steps.
  rewrite (alter_lookup_insert _ _ _ _ Hst). wp_exec Hi.
  - exists 0%nat. split_and!; [lia|by acts_norm|done].
  - eapply wp_mono.
    { apply (retry_loop_schedule i step0 s _ Hi); [solve_policy|lia|].
      simpl_goal. f_equal. lia. }
    intros r new s' (st' & n & -> & Hpol' & Hn & H1 & Hacts & Hr).
    destruct r as [e|[v|[tries le]]]; [done| |].
    + wp_steps. exists n. split_and!; [done| |done].
      acts_norm. by rewrite Hacts.
    + destruct Hr as [-> ->]. wp_exec Hi.
      all: eexists; split_and!; [done| |done].
      all: acts_norm; by rewrite Hacts.
Qed.

(** Whatever the tool and the audit logger do, [_execute_step] follows
    the back-off schedule: it invokes the tool [n] times for some [n] that
    is at most [retry_count], sleeps [2^k] seconds after the [k]-th attempt
    for every attempt but the last, and does nothing else to the tool or
    the clock.  It returns only after at least one invocation, and it
    raises its [WorkflowError] only after [retry_count] invocations. *)
Theorem retry_schedule_of_any_tool (w : World) (i : nat) (step : WorkflowStep.t) :
  SecurityWorkflow.steps (wf w) !! i = Some step ->
  let evs := events (_execute_step i) w in
  exists n,
    (n <= Z.to_nat (WorkflowStep.retry_count step))%nat
    /\ acts evs = remaining_schedule 0 n
    /\ invocations evs = n
    /\ delays evs = map (fun k => 2 ^ Z.of_nat k) (seq 1 (n - 1))
    /\ match outcome (_execute_step i) w with
       | inr _ => (1 <= n)%nat
       | inl e =>
           exn_class e = WorkflowError ->
           n = Z.to_nat (WorkflowStep.retry_count step)
       end.
Proof.
  intros Hst evs.
  destruct (wp_run (_execute_step i) _ w (execute_step_schedule i step _ _ Hst))
    as (n & Hn & Hacts & Hr).
  exists n. subst evs. unfold events. split_and!; [done|done| | |done].
  - unfold invocations. rewrite Hacts. destruct n as [|n]; [done|].
    destruct (schedule_views 1 n) as (H1 & _ & _). cbn [remaining_schedule].
    rewrite H1. by rewrite length_replicate.
  - unfold delays. rewrite Hacts. destruct n as [|n]; [done|].
    destruct (schedule_views 1 n) as (_ & H2 & _). cbn [remaining_schedule].
    rewrite H2. by rewrite Nat.sub_succ, Nat.sub_0_r.
Qed.

(** No refusal from an audit logger that accepts every event. *)
Ltac accepted Hq :=
  exfalso;
  match goal with
  | H : audit_failure _ _ _ = Some _ |- _ =>
      revert H; simpl_goal; rewrite Hq; discriminate
  end.

Lemma execute_step_no_attempts (i : nat) (step0 : WorkflowStep.t) s tr :
  SecurityWorkflow.steps s !! i = Some step0 ->
  WorkflowStep.retry_count step0 <= 0 ->
  wp (_execute_step i)
     (fun r new s' =>
        raises r
        /\ acts (chronological new) = []
        /\ (sink_accepts s ->
            r = inl (mkExn WorkflowError
                       ("Step " +:+ WorkflowStep.name step0
                        +:+ " failed after 0 attempts: None"))
            /\ exists t t', s' = with_step s i (exhausted t t' None step0)))
     s tr.
Proof.
  intros Hst Hrc. assert (Hi := lookup_lt_Some _ _ _ Hst).
  unfold _execute_step. wp_steps.
  rewrite (alter_lookup_insert _ _ _ _ Hst). wp_exec Hi.
  - split_and!; [done|by acts_norm|]. intros Hq. accepted Hq.
  - replace (Z.to_nat (WorkflowStep.retry_count step0)) with 0%nat by lia.
    cbn [retry_loop]. wp_exec Hi.
    all: split_and!; [done|by acts_norm|]; intros Hq; try accepted Hq.
    split; [done|]. by do 2 eexists.
Qed.

(** A step whose [retry_count] is zero or negative cannot succeed: its tool
    is never invoked and nothing is slept, and [_execute_step] raises.
    With a working audit logger it raises the [WorkflowError] "Step <name>
    failed after 0 attempts: None" and leaves the step Failed with no
    error message. *)
Theorem step_without_attempts (w : World) (i : nat) (step : WorkflowStep.t) :
  SecurityWorkflow.steps (wf w) !! i = Some step ->
  WorkflowStep.retry_count step <= 0 ->
  raises (outcome (_execute_step i) w)
  /\ acts (events (_execute_step i) w) = []
  /\ (sink_accepts (wf w) ->
      outcome (_execute_step i) w
      = inl (mkExn WorkflowError
               ("Step " +:+ WorkflowStep.name step
                +:+ " failed after 0 attempts: None"))
      /\ exists t t',
           final (_execute_step i) w
           = with_step (wf w) i (exhausted t t' None step)).
Proof.
  intros Hst Hrc.
  exact (wp_run (_execute_step i) _ w (execute_step_no_attempts i step _ _ Hst Hrc)).
Qed.

Section persistent_failure.
Variable step : WorkflowStep.t.
Variable i : nat.
Variable msg : string.
Hypothesis tool_fails :
  forall t p, exists e,
    WorkflowStep.tool step t p = inl e /\ failure_message step e = msg.

Lemma retry_loop_last_error (fuel : nat) :
  forall (tries : Z) last_error s tr,
  SecurityWorkflow.steps s !! i = Some step ->
  0 <= tries ->
  Z.of_nat fuel = WorkflowStep.retry_count step - tries ->
  wp (retry_loop fuel i tries last_error)
     (fun r new s' =>
        s' = s
        /\ r = inr (inr (WorkflowStep.retry_count step,
                         if fuel is O then last_error else Some msg)))
     s tr.
Proof.
  induction fuel as [|fuel IH]; intros tries last_error s tr Hst Htries Hfuel.
  - cbn [retry_loop]. apply wp_ret. split; [done|]. do 3 f_equal. lia.
  - cbn [retry_loop]. wp_steps. rewrite Hst.
    replace (tries <? WorkflowStep.retry_count step) with true
      by (symmetry; apply Z.ltb_lt; lia).
    wp_steps. rewrite Hst. wp_steps.
    all: match goal with
         | H : WorkflowStep.tool step ?t ?p = _ |- _ =>
             destruct (tool_fails t p) as (e' & Hf & Hmsg);
             rewrite H in Hf; try discriminate Hf; injection Hf as <-
         end.
    all: unfold failure_message in Hmsg;
      match goal with H : exn_class _ = _ |- _ => rewrite H in Hmsg end;
      rewrite Hmsg.
    all: (eapply wp_mono; [apply (IH (tries + 1) (Some msg)); [done|lia|lia] |]).
    all: intros r new s' (-> & ->); split; [done|].
    all: by destruct fuel.
Qed.
End persistent_failure.

Lemma execute_step_persistent_failure (i : nat) (step0 : WorkflowStep.t)
    (msg : string) s tr :
  SecurityWorkflow.steps s !! i = Some step0 ->
  1 <= WorkflowStep.retry_count step0 ->
  (forall t p, exists e,
     WorkflowStep.tool step0 t p = inl e /\ failure_message step0 e = msg) ->
  sink_accepts s ->
  wp (_execute_step i)
     (fun r new s' =>
        r = inl (mkExn WorkflowError
                   ("Step " +:+ WorkflowStep.name step0 +:+ " failed after "
                    +:+ str_int (WorkflowStep.retry_count step0)
                    +:+ " attempts: " +:+ msg))
        /\ exists t t', s' = with_step s i (exhausted t t' (Some msg) step0))
     s tr.
Proof.
  intros Hst Hrc Hfail Hq. assert (Hi := lookup_lt_Some _ _ _ Hst).
  unfold _execute_step. wp_steps.
  rewrite (alter_lookup_insert _ _ _ _ Hst). wp_exec Hi.
  { accepted Hq. }
  eapply wp_mono.
  { eapply (retry_loop_last_error _ i msg); [|by apply list_lookup_insert_eq|lia|].
    - exact Hfail.
    - simpl_goal. lia. }
  intros r new s' (-> & ->). simpl_goal.
  destruct (Z.to_nat (WorkflowStep.retry_count step0)) eqn:Hn; [lia|].
  wp_exec Hi.
  { accepted Hq. }
  split; [done|]. by do 2 eexists.
Qed.

(** A tool that fails on every attempt with the same [last_error] (a tool
    that always times out: "Step timed out after <timeout> seconds",
    whatever the message of the timeout exception): with a working audit
    logger and [retry_count >= 1], [_execute_step] raises the
    [WorkflowError] "Step <name> failed after <retry_count> attempts:
    <last_error>" and leaves the step Failed with that [last_error] as its
    error; its result and everything else in the workflow are as before. *)
Theorem persistent_failure_is_reported (w : World) (i : nat)
    (step : WorkflowStep.t) (msg : string) :
  SecurityWorkflow.steps (wf w) !! i = Some step ->
  1 <= WorkflowStep.retry_count step ->
  (forall t p, exists e,
     WorkflowStep.tool step t p = inl e /\ failure_message step e = msg) ->
  sink_accepts (wf w) ->
  outcome (_execute_step i) w
  = inl (mkExn WorkflowError
           ("Step " +:+ WorkflowStep.name step +:+ " failed after "
            +:+ str_int (WorkflowStep.retry_count step)
            +:+ " attempts: " +:+ msg))
  /\ exists t t',
       final (_execute_step i) w
       = with_step (wf w) i (exhausted t t' (Some msg) step).
Proof.
  intros Hst Hrc Hfail Hq.
  exact (wp_run (_execute_step i) _ w
           (execute_step_persistent_failure i step msg _ _ Hst Hrc Hfail Hq)).
Qed.

Lemma execute_step_first_attempt (i : nat) (step0 : WorkflowStep.t) s tr :
  SecurityWorkflow.steps s !! i = Some step0 ->
  1 <= WorkflowStep.retry_count step0 ->
  (forall t p, exists v, WorkflowStep.tool step0 t p = inr v) ->
  sink_accepts s ->
  wp (_execute_step i)
     (fun r new s' =>
        exists v t t',
          r = inr v
          /\ s' = with_step s i (succeeded t t' v step0)
          /\ omap (fun ev => match ev with
                             | ToolExecute j p outcome => Some (j, p, outcome)
                             | _ => None
                             end) (chronological new)
             = [(i, WorkflowStep.params step0, inr v)]
          /\ acts (chronological new) = [Invoke])
     s tr.
Proof.
  intros Hst Hrc Hok Hq. assert (Hi := lookup_lt_Some _ _ _ Hst).
  unfold _execute_step. wp_steps.
  rewrite (alter_lookup_insert _ _ _ _ Hst). wp_exec Hi.
  { accepted Hq. }
  destruct (Z.to_nat (WorkflowStep.retry_count step0)) eqn:Hn; [lia|].
  cbn [retry_loop]. wp_exec Hi.
  all: try lia.
  all: try accepted Hq.
  all: try match goal with
       | H : WorkflowStep.tool _ ?t ?p = inl _ |- _ =>
           destruct (Hok t p) as [v' Hv']; rewrite H in Hv'; discriminate Hv'
       end.
  all: try (match goal with
            | H : (_ <? _) = false |- _ => apply Z.ltb_ge in H; cbn in H; lia
            end).
  do 3 eexists. split_and!; [reflexivity|reflexivity| |by acts_norm].
  simpl_goal. unfold chronological. cbn. reflexivity.
Qed.

(** A tool that succeeds whenever it is called, with a working audit
    logger and [retry_count >= 1]: [_execute_step] calls the tool once,
    with the step's parameters, sleeps nothing, returns what the tool
    returned and leaves the step Completed with that result. *)
Theorem first_attempt_succeeds (w : World) (i : nat) (step : WorkflowStep.t) :
  SecurityWorkflow.steps (wf w) !! i = Some step ->
  1 <= WorkflowStep.retry_count step ->
  (forall t p, exists v, WorkflowStep.tool step t p = inr v) ->
  sink_accepts (wf w) ->
  exists v t t',
    outcome (_execute_step i) w = inr v
    /\ final (_execute_step i) w = with_step (wf w) i (succeeded t t' v step)
    /\ omap (fun ev => match ev with
                       | ToolExecute j p outcome => Some (j, p, outcome)
                       | _ => None
                       end) (events (_execute_step i) w)
       = [(i, WorkflowStep.params step, inr v)]
    /\ acts (events (_execute_step i) w) = [Invoke].
Proof.
  intros Hst Hrc Hok Hq.
  exact (wp_run (_execute_step i) _ w
           (execute_step_first_attempt i step _ _ Hst Hrc Hok Hq)).
Qed.

(** ** How [execute] ends *)




Lemma execute_without_context s tr :
  wp execute
     (fun r new s' =>
        exists failure,
          head (chronological new) = Some (CreateContext failure)
          /\ forall m,
               failure = Some m ->
               SecurityWorkflow.steps s' = SecurityWorkflow.steps s
               /\ SecurityWorkflow.results s' = SecurityWorkflow.results s
               /\ SecurityWorkflow.current_step s' = SecurityWorkflow.current_step s
               /\ SecurityWorkflow.status s' = WorkflowStatus.FAILED
               /\ exists failure',
                    chronological new
                    = [CreateContext (Some m);
                       failed_event s (SecurityWorkflow.current_step s)
                         ("Context creation failed: " +:+ m) failure']
                    /\ r = failed_outcome ("Context creation failed: " +:+ m)
                             failure')
     s tr.
Proof.
  unfold execute. wp_steps.
  all: lazymatch goal with
       | |- wp _ _ _ _ => idtac
       | |- _ => eexists; split; [reflexivity|]; intros m' [= <-] || intros m' [=];
                 simpl_goal; split_and!; try done; by eexists
       end.
  eapply wp_mono.
  { apply execute_steps_run. simpl_goal. apply Forall_forall.
    intros i Hi%elem_of_seq. lia. }
  intros r new_loop s2 Hrun. simpl_goal.
  destruct r as [e|[]]; wp_steps.
  all: exists None; split; [|done].
  all: rewrite !chronological_app; by simpl_goal.
Qed.

(** When the context store refuses to create the context, [execute]
    touches no step: the steps, the results and the current step are as
    they were, the workflow is Failed, the only events are the refused
    creation and the [workflow_failed] event that carries the store's
    message, and [execute] raises the [WorkflowError] with that message
    (or the logging error, if [workflow_failed] is refused too). *)
Theorem no_step_runs_without_a_context (w : World) (m : string) :
  head (events execute w) = Some (CreateContext (Some m)) ->
  let s := wf w in
  let s' := final execute w in
  SecurityWorkflow.steps s' = SecurityWorkflow.steps s
  /\ SecurityWorkflow.results s' = SecurityWorkflow.results s
  /\ SecurityWorkflow.current_step s' = SecurityWorkflow.current_step s
  /\ SecurityWorkflow.status s' = WorkflowStatus.FAILED
  /\ exists failure,
       events execute w
       = [CreateContext (Some m);
          failed_event s (SecurityWorkflow.current_step s)
            ("Context creation failed: " +:+ m) failure]
       /\ outcome execute w
          = failed_outcome ("Context creation failed: " +:+ m) failure.
Proof.
  intros Hhead s s'.
  destruct (wp_run execute _ w (execute_without_context _ _))
    as (failure & Hfirst & H).
  unfold events in Hhead. rewrite Hfirst in Hhead. injection Hhead as ->.
  by apply H.
Qed.

Lemma execute_no_steps s tr :
  SecurityWorkflow.steps s = [] ->
  store_creates s ->
  sink_accepts s ->
  wp execute
     (fun r new s' =>
        exists t t',
          s' = SecurityWorkflow.set_end_time (Some t')
                 (SecurityWorkflow.set_status WorkflowStatus.COMPLETED
                    (SecurityWorkflow.set_status WorkflowStatus.RUNNING
                       (SecurityWorkflow.set_start_time (Some t) s)))
          /\ r = inr (get_results s')
          /\ map event_label (chronological new)
             = ["create_context"; "workflow_started"; "workflow_completed"])
     s tr.
Proof.
  intros Hsteps Hstore Hq. unfold execute. wp_steps.
  all: try accepted Hq.
  all: try (exfalso;
            match goal with
            | H : create_failure _ _ = Some _ |- _ =>
                revert H; simpl_goal; rewrite Hstore; discriminate
            end).
  all: try (revert Hanswer0; simpl_goal; rewrite Hsteps; cbn [length seq execute_steps];
            intros Hanswer0; wp_steps).
  all: try accepted Hq.
  all: try (exfalso;
            match goal with
            | H : audit_failure _ _ _ = Some _ |- _ =>
                revert H; simpl_goal; rewrite Hq; discriminate
            end).
  do 2 eexists. split_and!; reflexivity.
Qed.

(** A workflow without steps, with a working context store and a working
    audit logger: [execute] creates the context, emits [workflow_started]
    and [workflow_completed] and nothing else, sets the start and end
    times and the status Completed, and returns [get_results] of that
    workflow; the results are as they were. *)
Theorem execute_without_steps (w : World) :
  SecurityWorkflow.steps (wf w) = [] ->
  store_creates (wf w) ->
  sink_accepts (wf w) ->
  exists t t',
    final execute w
    = SecurityWorkflow.set_end_time (Some t')
        (SecurityWorkflow.set_status WorkflowStatus.COMPLETED
           (SecurityWorkflow.set_status WorkflowStatus.RUNNING
              (SecurityWorkflow.set_start_time (Some t) (wf w))))
    /\ outcome execute w = inr (get_results (final execute w))
    /\ map event_label (events execute w)
       = ["create_context"; "workflow_started"; "workflow_completed"].
Proof.
  intros Hsteps Hstore Hq.
  exact (wp_run execute _ w (execute_no_steps _ _ Hsteps Hstore Hq)).
Qed.

(** ** What [execute] leaves alone *)

Lemma policy_refl_list (l : list WorkflowStep.t) : Forall2 same_policy l l.
Proof.
  apply Forall_Forall2_diag, Forall_forall. intros x _. apply same_policy_refl.
Qed.

Lemma policy_insert (l : list WorkflowStep.t) i a st :
  l !! i = Some a -> same_policy a st -> Forall2 same_policy l (<[i := st]> l).
Proof.
  intros Hl Hpol. rewrite <- (list_insert_id l i a Hl) at 1.
  apply Forall2_insert; [apply policy_refl_list|done].
Qed.

Lemma policy_trans_list (l1 l2 l3 : list WorkflowStep.t) :
  Forall2 same_policy l1 l2 -> Forall2 same_policy l2 l3 ->
  Forall2 same_policy l1 l3.
Proof.
  intros H12. revert l3. induction H12 as [|a b l1 l2 Hab _ IH]; intros l3 H23.
  - by inversion H23.
  - inversion H23 as [|? c ? l3' Hbc H23']; subst. constructor.
    + by eapply same_policy_trans.
    + by apply IH.
Qed.

Lemma loop_run_frame indices s r new s' :
  loop_run indices s r new s' ->
  forall k n, indices = seq k n ->
  Forall2 same_policy (SecurityWorkflow.steps s) (SecurityWorkflow.steps s')
  /\ (n = 0%nat -> s' = s)
  /\ (n <> 0%nat ->
      (k <= SecurityWorkflow.current_step s')%nat
      /\ forall j, (SecurityWorkflow.current_step s' < j)%nat ->
                   SecurityWorkflow.steps s' !! j = SecurityWorkflow.steps s !! j).
Proof.
  induction 1 as [s|i rest s step0 st res new1 r new2 s' Hst Hpol Hentries Hout Hrun IH
                  |i rest s step0 st res new1 e Hst Hpol Hentries Hout];
    intros k n Hseq.
  - destruct n; [|done]. split_and!; [apply policy_refl_list|done|done].
  - destruct n as [|n]; [done|]. cbn in Hseq. injection Hseq as -> ->.
    destruct (IH (S k) n eq_refl) as (Hpols & Hzero & Hmore).
    split_and!; [|done|intros _].
    + eapply policy_trans_list; [|exact Hpols]. by eapply policy_insert.
    + destruct n as [|n].
      * rewrite (Hzero eq_refl). cbn. split; [done|].
        intros j Hj. apply list_lookup_insert_ne. lia.
      * destruct Hmore as [Hk Hlater]; [done|]. split; [lia|].
        intros j Hj. rewrite (Hlater j Hj). cbn.
        apply list_lookup_insert_ne. lia.
  - destruct n as [|n]; [done|]. cbn in Hseq. injection Hseq as -> ->.
    split_and!; [by eapply policy_insert|done|intros _].
    cbn. split; [done|]. intros j Hj. apply list_lookup_insert_ne. lia.
Qed.

Lemma execute_frame s tr :
  wp execute
     (fun r new s' =>
        Forall2 same_policy (SecurityWorkflow.steps s) (SecurityWorkflow.steps s')
        /\ forall j, (SecurityWorkflow.current_step s' < j)%nat ->
                     SecurityWorkflow.steps s' !! j = SecurityWorkflow.steps s !! j)
     s tr.
Proof.
  unfold execute. wp_steps.
  all: lazymatch goal with
       | |- wp _ _ _ _ => idtac
       | |- _ => simpl_goal; split; [apply policy_refl_list|done]
       end.
  eapply wp_mono.
  { apply execute_steps_run. simpl_goal. apply Forall_forall.
    intros i Hi%elem_of_seq. lia. }
  intros r new_loop s2 Hrun. simpl_goal.
  destruct (loop_run_frame _ _ _ _ _ Hrun 0%nat _ eq_refl) as (Hpols & Hzero & Hmore).
  revert Hpols Hzero Hmore. simpl_goal. intros Hpols Hzero Hmore.
  assert (Hlater : forall j, (SecurityWorkflow.current_step s2 < j)%nat ->
                     SecurityWorkflow.steps s2 !! j = SecurityWorkflow.steps s !! j).
  { destruct (length (SecurityWorkflow.steps s)) as [|n] eqn:Hlen.
    - intros j _. by rewrite (Hzero eq_refl).
    - by apply Hmore. }
  destruct r as [e|[]]; wp_steps.
  all: simpl_goal; by split.
Qed.

(** [execute] keeps the plan: the workflow has the same number of steps
    afterwards, each with the name, tool, parameters, conditions,
    [retry_count], timeout and cleanup hook it had; and a step that comes
    after the step [execute] stopped at is exactly as it was. *)
Theorem execute_keeps_the_plan (w : World) :
  Forall2 same_policy (SecurityWorkflow.steps (wf w))
    (SecurityWorkflow.steps (final execute w))
  /\ forall j,
       (SecurityWorkflow.current_step (final execute w) < j)%nat ->
       SecurityWorkflow.steps (final execute w) !! j
       = SecurityWorkflow.steps (wf w) !! j.
Proof. exact (wp_run execute _ w (execute_frame _ _)). Qed.

(** ** The order of the steps *)

Lemma steps_touched_app evs1 evs2 :
  steps_touched (evs1 ++ evs2) = steps_touched evs1 ++ steps_touched evs2.
Proof. apply omap_app. Qed.

Lemma iter_entry_step s i step0 e :
  iter_entry s i step0 e -> step_of (event e) = Some i \/ step_of (event e) = None.
Proof.
  intros (st & res & _ & _ & Hph).
  destruct Hph as [b| |st ev Hex|st v key f Hs Hr|st res1 msg Hc|st res1 Hc
                   |st res1 f Hm|st res1 msg Hm
                   |e' msg Hraised|e' Hraised|st e' f Hgate|st e' msg Hgate];
    cbn; auto.
  destruct Hex; cbn; auto.
Qed.

Lemma iteration_steps s i step0 new :
  Forall (iter_entry s i step0) new ->
  Forall (eq i) (steps_touched (chronological new)).
Proof.
  intros Hall. apply Forall_forall. intros j Hj.
  apply list_elem_of_omap in Hj as (ev & Hev & Hstep).
  apply elem_of_chronological in Hev as (e & He & <-).
  eapply Forall_forall in Hall; [|exact He].
  destruct (iter_entry_step _ _ _ _ Hall) as [H|H]; congruence.
Qed.

Lemma sorted_after (i : nat) (l1 l2 : list nat) :
  Forall (eq i) l1 -> Forall (lt i) l2 -> StronglySorted le l2 ->
  StronglySorted le (l1 ++ l2).
Proof.
  intros H1 H2 Hs. induction H1 as [|x l1 <- Hl1 IH]; [done|].
  cbn. constructor; [exact IH|].
  apply Forall_app. split.
  - eapply Forall_impl; [exact Hl1|]. intros y <-. lia.
  - eapply Forall_impl; [exact H2|]. intros y Hy. lia.
Qed.

Lemma loop_run_order indices s r new s' :
  loop_run indices s r new s' ->
  StronglySorted lt indices ->
  Forall (fun j => j ∈ indices) (steps_touched (chronological new))
  /\ StronglySorted le (steps_touched (chronological new)).
Proof.
  induction 1 as [s|i rest s step0 st res new1 r new2 s' Hst Hpol Hentries Hout Hrun IH
                  |i rest s step0 st res new1 e Hst Hpol Hentries Hout];
    intros Hsorted.
  - split; constructor.
  - apply StronglySorted_inv in Hsorted as [Hrest Hlt].
    destruct (IH Hrest) as [Hin Hord].
    pose proof (iteration_steps _ _ _ _ Hentries) as Hhere.
    rewrite chronological_app, steps_touched_app. split.
    + apply Forall_app. split.
      * eapply Forall_impl; [exact Hhere|]. intros j <-. by left.
      * eapply Forall_impl; [exact Hin|]. intros j Hj. by right.
    + apply (sorted_after i); [done| |done].
      apply Forall_forall. intros j Hj.
      eapply Forall_forall in Hin; [|exact Hj].
      eapply Forall_forall in Hlt; [exact Hlt|done].
  - pose proof (iteration_steps _ _ _ _ Hentries) as Hhere. split.
    + eapply Forall_impl; [exact Hhere|]. intros j <-. by left.
    + rewrite <- (app_nil_r (steps_touched _)).
      apply (sorted_after i); [done|constructor|constructor].
Qed.

Lemma seq_sorted k n : StronglySorted lt (seq k n).
Proof.
  revert k; induction n as [|n IH]; intros k; cbn; constructor; [apply IH|].
  apply Forall_forall. intros j Hj%elem_of_seq. lia.
Qed.

Lemma execute_order s tr :
  wp execute
     (fun r new s' =>
        StronglySorted le (steps_touched (chronological new))
        /\ Forall (fun j => (j < length (SecurityWorkflow.steps s))%nat)
                  (steps_touched (chronological new)))
     s tr.
Proof.
  unfold execute. wp_steps.
  all: lazymatch goal with
       | |- wp _ _ _ _ => idtac
       | |- _ => simpl_goal; split; constructor
       end.
  eapply wp_mono.
  { apply execute_steps_run. simpl_goal. apply Forall_forall.
    intros i Hi%elem_of_seq. lia. }
  intros r new_loop s2 Hrun. revert Hrun. simpl_goal. intros Hrun.
  destruct (loop_run_order _ _ _ _ _ Hrun (seq_sorted _ _)) as [Hin Hord].
  assert (Hbound : Forall (fun j => (j < length (SecurityWorkflow.steps s))%nat)
                     (steps_touched (chronological new_loop))).
  { eapply Forall_impl; [exact Hin|]. intros j Hj%elem_of_seq. lia. }
  destruct r as [e|[]]; wp_steps.
  all: rewrite !chronological_app, !steps_touched_app.
  all: simpl_goal; cbn [chronological steps_touched omap map rev event step_of app];
    rewrite ?app_nil_r.
  all: by split.
Qed.

(** [execute] deals with the steps in the order of the list and never
    returns to an earlier one: the steps its events are about (the
    condition calls, status assignments, tool calls and cleanup calls)
    come in non-decreasing order of their index, and every one of them is
    a step of the workflow. *)
Theorem steps_run_in_order (w : World) :
  StronglySorted le (steps_touched (events execute w))
  /\ Forall (fun j => (j < length (SecurityWorkflow.steps (wf w)))%nat)
            (steps_touched (events execute w)).
Proof. exact (wp_run execute _ w (execute_order _ _)). Qed.

(** ** No more attempts than [retry_count] *)

Lemma invocations_app evs1 evs2 :
  invocations (evs1 ++ evs2) = (invocations evs1 + invocations evs2)%nat.
Proof. unfold invocations. by rewrite acts_app, omap_app, length_app. Qed.

Lemma invocations_schedule evs n :
  acts evs = remaining_schedule 0 n -> invocations evs = n.
Proof.
  intros Hacts. unfold invocations. rewrite Hacts. destruct n as [|n]; [done|].
  destruct (schedule_views 1 n) as (H1 & _ & _). cbn [remaining_schedule].
  rewrite H1. by rewrite length_replicate.
Qed.

Lemma invocations_no_acts evs : acts evs = [] -> invocations evs = 0%nat.
Proof. unfold invocations. by intros ->. Qed.

Lemma tool_calls_le_invocations j evs :
  (count_events (is_tool_call_of j) evs <= invocations evs)%nat.
Proof.
  induction evs as [|ev evs IH]; [done|].
  change (ev :: evs) with ([ev] ++ evs).
  rewrite count_events_app, invocations_app.
  destruct ev; cbn; try lia. destruct (Nat.eqb _ _); cbn; lia.
Qed.

Lemma condition_calls_no_acts i (new : list Entry) s :
  Forall (fun e => at_state e = s /\ is_condition_call i (event e)) new ->
  acts (chronological new) = [].
Proof.
  induction 1 as [|e new [_ [b He]] _ IH]; [done|].
  rewrite acts_chronological_cons, IH, He. done.
Qed.

Lemma step_failed_handler_no_acts (i : nat) (step : WorkflowStep.t) e s tr :
  wp (step_failed_handler i step e)
     (fun r new _ => acts (chronological new) = []) s tr.
Proof. unfold step_failed_handler. wp_steps; by acts_norm. Qed.

Lemma execute_iteration_attempts (i : nat) (step0 : WorkflowStep.t) s tr :
  SecurityWorkflow.steps s !! i = Some step0 ->
  wp (execute_iteration i)
     (fun r new _ =>
        (invocations (chronological new)
         <= Z.to_nat (WorkflowStep.retry_count step0))%nat)
     s tr.
Proof.
  intros Hst. unfold execute_iteration. wp_steps. rewrite Hst. wp_steps.
  eapply wp_mono; [apply all_conditions_frame|].
  intros r new s' (-> & Hconds & Hr).
  pose proof (condition_calls_no_acts _ _ _ Hconds) as Hnone.
  destruct r as [e|b]; [|clear Hr; destruct b; cbn [negb]; wp_steps].
  - eapply wp_mono; [apply step_failed_handler_no_acts|].
    intros r' new2 s2 Hacts2.
    rewrite ?app_nil_r, ?chronological_app, ?invocations_app.
    rewrite (invocations_no_acts _ Hnone), (invocations_no_acts _ Hacts2).
    cbn. lia.
  - eapply wp_mono; [apply (execute_step_schedule i step0); exact Hst|].
    intros r new1 s' (n & Hn & Hacts & _).
    apply invocations_schedule in Hacts.
    destruct r as [e|v]; wp_steps.
    all: try (eapply wp_mono; [apply step_failed_handler_no_acts|];
              intros r' new2 s2 Hacts2).
    all: rewrite ?app_nil_r, ?chronological_app, ?invocations_app.
    all: rewrite ?(invocations_no_acts _ Hnone), ?Hacts.
    all: try rewrite (invocations_no_acts _ Hacts2).
    all: cbn; lia.
  - rewrite ?app_nil_r, ?chronological_app, ?invocations_app.
    rewrite (invocations_no_acts _ Hnone). cbn. lia.
Qed.

Lemma iteration_tool_calls s i step0 new j :
  Forall (iter_entry s i step0) new ->
  j <> i ->
  count_events (is_tool_call_of j) (chronological new) = 0%nat.
Proof.
  intros Hall Hne. induction Hall as [|e new He _ IH]; [done|].
  rewrite chronological_cons, count_events_app, IH.
  assert (Heq : (i =? j)%nat = false) by (apply Nat.eqb_neq; congruence).
  destruct (iter_entry_step _ _ _ _ He) as [H|H];
    destruct (event e); cbn in *; try done.
  injection H as ->. by rewrite Heq.
Qed.

Lemma attempts_allowed_during s i step0 st res j :
  SecurityWorkflow.steps s !! i = Some step0 ->
  same_policy step0 st ->
  attempts_allowed (during s i st res) j = attempts_allowed s j.
Proof.
  intros Hst Hpol. unfold attempts_allowed. cbn.
  destruct (decide (j = i)) as [->|Hne].
  - rewrite list_lookup_insert_eq by (by eapply lookup_lt_Some).
    rewrite Hst. f_equal. symmetry. apply Hpol.
  - by rewrite list_lookup_insert_ne.
Qed.

Lemma execute_steps_attempts (indices : list nat) :
  forall s tr,
  NoDup indices ->
  Forall (fun i => (i < length (SecurityWorkflow.steps s))%nat) indices ->
  wp (execute_steps indices)
     (fun r new s' =>
        forall j,
          (count_events (is_tool_call_of j) (chronological new)
           <= if decide (j ∈ indices) then attempts_allowed s j else 0)%nat)
     s tr.
Proof.
  induction indices as [|i rest IH]; intros s tr Hnd Hvalid; cbn [execute_steps].
  - wp_steps. intros j. change (chronological []) with (@nil Event).
    cbn [count_events List.filter length]. lia.
  - apply Forall_cons in Hvalid as [Hi Hrest].
    apply NoDup_cons in Hnd as [Hnotin Hnd].
    destruct (lookup_lt_is_Some_2 _ _ Hi) as [step0 Hst].
    wp_step. eapply wp_mono.
    { apply wp_conj;
        [by apply (execute_iteration_spec i step0)
        |by apply (execute_iteration_attempts i step0)]. }
    intros r new1 s' [(st & res & -> & Hpol & Hentries & Hout) Hattempts].
    assert (Hhere : forall j,
              (count_events (is_tool_call_of j) (chronological new1)
               <= if decide (j = i) then attempts_allowed s j else 0)%nat).
    { intros j. destruct (decide (j = i)) as [->|Hne].
      - unfold attempts_allowed. rewrite Hst.
        etrans; [apply tool_calls_le_invocations|done].
      - by rewrite (iteration_tool_calls _ _ _ _ _ Hentries Hne). }
    destruct r as [e|[]].
    + intros j. specialize (Hhere j).
      destruct (decide (j = i)) as [->|Hne].
      * rewrite decide_True by (by left). done.
      * lia.
    + eapply wp_mono.
      { apply IH; [done|]. eapply Forall_impl; [exact Hrest|].
        intros j Hj. by rewrite during_length. }
      intros r new2 s' Hlater j. specialize (Hhere j). specialize (Hlater j).
      rewrite (attempts_allowed_during _ _ _ _ _ _ Hst Hpol) in Hlater.
      rewrite chronological_app, count_events_app.
      destruct (decide (j = i)) as [->|Hne].
      * rewrite decide_False in Hlater by done.
        rewrite decide_True by (by left). lia.
      * destruct (decide (j ∈ rest)) as [Hin|Hnin].
        -- rewrite decide_True by (by right). lia.
        -- rewrite decide_False by (rewrite not_elem_of_cons; by split). lia.
Qed.

Lemma execute_attempts s tr :
  wp execute
     (fun r new s' =>
        forall j,
          (count_events (is_tool_call_of j) (chronological new)
           <= attempts_allowed s j)%nat)
     s tr.
Proof.
  unfold execute. wp_steps.
  all: lazymatch goal with
       | |- wp _ _ _ _ => idtac
       | |- _ => intros j; simpl_goal; cbn; lia
       end.
  eapply wp_mono.
  { apply execute_steps_attempts; [apply NoDup_seq|].
    simpl_goal. apply Forall_forall. intros i Hi%elem_of_seq. lia. }
  intros r new_loop s2 Hloop.
  assert (Hbound : forall j,
            (count_events (is_tool_call_of j) (chronological new_loop)
             <= attempts_allowed s j)%nat).
  { intros j. specialize (Hloop j). revert Hloop.
    unfold attempts_allowed. simpl_goal. destruct (decide _); [done|].
    intros H. lia. }
  destruct r as [e|[]]; wp_steps.
  all: intros j; specialize (Hbound j).
  all: rewrite !chronological_app, !count_events_app.
  all: simpl_goal; cbn [chronological count_events List.filter is_tool_call_of
                        map rev event app length];
    lia.
Qed.

(** Whatever the tools, the conditions, the context store and the audit
    logger do, a run of [execute] invokes the tool of step [j] at most
    [retry_count] times (never, if [retry_count] is zero or negative), and
    invokes nothing for an index that is not a step. *)
Theorem attempts_are_bounded (w : World) (j : nat) :
  (count_events (is_tool_call_of j) (events execute w)
   <= attempts_allowed (wf w) j)%nat.
Proof. exact (wp_run execute _ w (execute_attempts _ _) j). Qed.

(** ** Cleanup hooks and context updates of a run *)

Lemma loop_run_elsewhere indices s r new s' :
  loop_run indices s r new s' ->
  forall j, j ∉ indices ->
  SecurityWorkflow.steps s' !! j = SecurityWorkflow.steps s !! j.
Proof.
  induction 1 as [s|i rest s step0 st res new1 r new2 s' Hst Hpol Hentries Hout Hrun IH
                  |i rest s step0 st res new1 e Hst Hpol Hentries Hout];
    intros j Hj; [done| |].
  - apply not_elem_of_cons in Hj as [Hne Hj]. rewrite (IH j Hj). cbn.
    by apply list_lookup_insert_ne.
  - apply not_elem_of_cons in Hj as [Hne Hj]. cbn.
    by apply list_lookup_insert_ne.
Qed.

Lemma loop_run_cleanup indices s r new s' :
  loop_run indices s r new s' ->
  Forall (fun i => (i < length (SecurityWorkflow.steps s))%nat) indices ->
  match r with
  | inr _ => cleanup_calls (chronological new) = []
  | inl _ => cleaned_up s' (cleanup_calls (chronological new))
  end.
Proof.
  induction 1 as [s|i rest s step0 st res new1 r new2 s' Hst Hpol Hentries Hout Hrun IH
                  |i rest s step0 st res new1 e Hst Hpol Hentries Hout];
    intros Hvalid; [done| |].
  - apply Forall_cons in Hvalid as [Hi Hrest].
    assert (Hc1 : cleanup_calls (chronological new1) = [])
      by (inversion Hout; done).
    rewrite chronological_app, cleanup_calls_app, Hc1. apply IH.
    eapply Forall_impl; [exact Hrest|]. intros j Hj. by rewrite during_length.
  - apply Forall_cons in Hvalid as [Hi _].
    exists st. cbn. rewrite list_lookup_insert_eq by done.
    inversion Hout as [| |? ? ? Hs ? ? ? Hc|? ? ? ? Hs ? ? ? Hc
                       |? ? ? Hgate ? ? Hc]; subst.
    all: split_and!; [done| |].
    all: try done.
    all: try (rewrite Hc; by apply cleanup_of_policy).
    by destruct Hgate as [_ ->].
Qed.

Lemma execute_cleanup s tr :
  wp execute
     (fun r new s' =>
        cleanup_calls (chronological new) = []
        \/ (raises r /\ cleaned_up s' (cleanup_calls (chronological new))))
     s tr.
Proof.
  unfold execute. wp_steps.
  all: lazymatch goal with
       | |- wp _ _ _ _ => idtac
       | |- _ => by left
       end.
  eapply wp_mono.
  { apply execute_steps_run. simpl_goal. apply Forall_forall.
    intros i Hi%elem_of_seq. lia. }
  intros r new_loop s2 Hrun.
  pose proof (loop_run_cleanup _ _ _ _ _ Hrun) as Hc.
  destruct r as [e|[]]; wp_steps.
  all: rewrite !chronological_app, !cleanup_calls_app.
  all: simpl_goal;
    cbn [chronological cleanup_calls omap map rev event app]; rewrite ?app_nil_r.
  all: try (left; apply Hc; simpl_goal; apply Forall_forall;
            intros i Hi%elem_of_seq; lia).
  all: right; (split; [done|]).
  all: unfold cleaned_up in *; simpl_goal; apply Hc; simpl_goal;
    apply Forall_forall; intros i Hi%elem_of_seq; lia.
Qed.

(** The only cleanup hook a run of [execute] calls is the hook of the step
    it failed at, and it calls it once: either no cleanup hook is called,
    or [execute] raises, the step it stopped at is Failed and has a hook,
    and that hook's single call is the only cleanup call of the run. *)
Theorem cleanup_runs_at_most_once (w : World) :
  cleanup_calls (events execute w) = []
  \/ (raises (outcome execute w)
      /\ cleaned_up (final execute w) (cleanup_calls (events execute w))).
Proof. exact (wp_run execute _ w (execute_cleanup _ _)). Qed.

Lemma loop_run_updates indices s r new s' :
  loop_run indices s r new s' ->
  NoDup indices ->
  Forall (fun i => (i < length (SecurityWorkflow.steps s))%nat) indices ->
  Forall (update_of_step s') (update_events (chronological new))
  /\ (r = inr tt ->
      Forall (fun u => u.2 = None) (update_events (chronological new))).
Proof.
  induction 1 as [s|i rest s step0 st res new1 r new2 s' Hst Hpol Hentries Hout Hrun IH
                  |i rest s step0 st res new1 e Hst Hpol Hentries Hout];
    intros Hnd Hvalid.
  - split; [constructor|]. intros _. constructor.
  - apply Forall_cons in Hvalid as [Hi Hrest].
    apply NoDup_cons in Hnd as [Hnotin Hnd].
    destruct IH as [IHu IHr]; [done| |].
    { eapply Forall_impl; [exact Hrest|]. intros j Hj. by rewrite during_length. }
    assert (Hkept : SecurityWorkflow.steps s' !! i = Some st).
    { rewrite (loop_run_elsewhere _ _ _ _ _ Hrun i Hnotin). cbn.
      by apply list_lookup_insert_eq. }
    rewrite chronological_app, update_events_app.
    inversion Hout as [? Hu|? ? v Hs Hr Hu|?|?|?]; subst; rewrite Hu.
    + split; [done|]. intros Hret. by apply IHr.
    + split.
      * apply Forall_cons. split; [|done]. by exists i, st.
      * intros Hret. apply Forall_cons. split; [done|by apply IHr].
  - apply Forall_cons in Hvalid as [Hi _]. split; [|done].
    assert (Hkept : SecurityWorkflow.steps (during s i st res) !! i = Some st)
      by (cbn; by apply list_lookup_insert_eq).
    inversion Hout as [| |? ? ? ? ? ? Hu|? ? v m ? Hr ? Hu|? ? ? ? ? Hu];
      subst; rewrite Hu; [constructor| |constructor].
    apply Forall_cons. split; [|constructor]. by exists i, st.
Qed.

Lemma execute_updates s tr :
  wp execute
     (fun r new s' =>
        Forall (update_of_step s') (update_events (chronological new))
        /\ (returns r ->
            Forall (fun u => u.2 = None) (update_events (chronological new))))
     s tr.
Proof.
  unfold execute. wp_steps.
  all: lazymatch goal with
       | |- wp _ _ _ _ => idtac
       | |- _ => split; [constructor|done]
       end.
  eapply wp_mono.
  { apply execute_steps_run. simpl_goal. apply Forall_forall.
    intros i Hi%elem_of_seq. lia. }
  intros r new_loop s2 Hrun.
  destruct (loop_run_updates _ _ _ _ _ Hrun) as [Hu Hr].
  { apply NoDup_seq. }
  { simpl_goal. apply Forall_forall. intros i Hi%elem_of_seq. lia. }
  destruct r as [e|[]]; wp_steps.
  all: rewrite !chronological_app, !update_events_app.
  all: simpl_goal;
    cbn [chronological update_events omap map rev event app]; rewrite ?app_nil_r.
  all: unfold update_of_step in *; simpl_goal.
  all: split; [done|]; try done.
  all: intros _; by apply Hr.
Qed.

(** What [execute] sends to the context store: every update is the result
    of a step of the workflow, sent under the key "step_<i>_result" of that
    step's index; and when [execute] returns, the store has accepted every
    one of them. *)
Theorem updates_are_step_results (w : World) :
  Forall (update_of_step (final execute w)) (update_events (events execute w))
  /\ (returns (outcome execute w) ->
      Forall (fun u => u.2 = None) (update_events (events execute w))).
Proof. exact (wp_run execute _ w (execute_updates _ _)). Qed.

(** ** The properties above at example workflows *)

Lemma pause_changes_the_status_only_witness :
  SecurityWorkflow.status (wf running_world) = WorkflowStatus.RUNNING
  /\ final pause running_world
     = SecurityWorkflow.set_status WorkflowStatus.PAUSED (wf running_world).
Proof.
  split; [reflexivity|].
  apply (pause_changes_the_status_only running_world). reflexivity.
Defined.

Lemma resume_refused_witness :
  SecurityWorkflow.status (wf paused_unheard_world) = WorkflowStatus.PAUSED
  /\ audit_failure (SecurityWorkflow.logging_service (wf paused_unheard_world))
       (length (trace paused_unheard_world)) "workflow_resumed"
     = Some "disk full"
  /\ final resume paused_unheard_world
     = SecurityWorkflow.set_status WorkflowStatus.RUNNING (wf paused_unheard_world).
Proof.
  split; [reflexivity|]. split; [reflexivity|].
  destruct (resume_refused paused_unheard_world) as [_ H].
  destruct (H "disk full" eq_refl eq_refl) as (_ & H2 & _). exact H2.
Defined.

Lemma cancel_leaves_an_idle_step_witness :
  exists step,
    SecurityWorkflow.status (wf idle_world) = WorkflowStatus.RUNNING
    /\ SecurityWorkflow.steps (wf idle_world)
         !! SecurityWorkflow.current_step (wf idle_world) = Some step
    /\ WorkflowStep.status step <> WorkflowStepStatus.RUNNING
    /\ exists t failure,
         final cancel idle_world
         = SecurityWorkflow.set_end_time (Some t)
             (SecurityWorkflow.set_status WorkflowStatus.CANCELLED (wf idle_world))
         /\ events cancel idle_world = [cancelled_event (wf idle_world) failure]
         /\ outcome cancel idle_world = audit_outcome failure.
Proof.
  eexists. split; [reflexivity|]. split; [reflexivity|]. split; [discriminate|].
  apply (cancel_leaves_an_idle_step idle_world
           (WorkflowStep.init "scan" succeeding_tool [] [] 3 300
              (Some (fun _ => None))));
    [reflexivity|reflexivity|discriminate].
Defined.

Lemma cancel_swallows_cleanup_failures_witness :
  SecurityWorkflow.status (wf running_world) = WorkflowStatus.RUNNING
  /\ SecurityWorkflow.steps (wf running_world)
       !! SecurityWorkflow.current_step (wf running_world) = Some in_flight_step
  /\ exists failure,
       last (events cancel running_world)
       = Some (cancelled_event (wf running_world) failure).
Proof.
  split; [reflexivity|]. split; [reflexivity|].
  destruct (cancel_swallows_cleanup_failures running_world in_flight_step
              eq_refl eq_refl) as (failure & H & _).
  by exists failure.
Defined.

Lemma retry_schedule_of_any_tool_witness :
  SecurityWorkflow.steps (wf failing_world) !! 0%nat = Some failing_step
  /\ exists n,
       (n <= Z.to_nat (WorkflowStep.retry_count failing_step))%nat
       /\ acts (events (_execute_step 0) failing_world) = remaining_schedule 0 n.
Proof.
  split; [reflexivity|].
  destruct (retry_schedule_of_any_tool failing_world 0 failing_step eq_refl)
    as (n & Hn & Hacts & _).
  by exists n.
Defined.

Lemma step_without_attempts_witness :
  SecurityWorkflow.steps (wf no_attempt_world) !! 0%nat
  = Some (example_step "scan" succeeding_tool 0)
  /\ WorkflowStep.retry_count (example_step "scan" succeeding_tool 0) <= 0
  /\ raises (outcome (_execute_step 0) no_attempt_world)
  /\ acts (events (_execute_step 0) no_attempt_world) = [].
Proof.
  split; [reflexivity|]. split; [cbn; lia|].
  destruct (step_without_attempts no_attempt_world 0
              (example_step "scan" succeeding_tool 0) eq_refl)
    as (H1 & H2 & _); [cbn; lia|].
  by split.
Defined.

Lemma persistent_failure_is_reported_witness :
  SecurityWorkflow.steps (wf slow_world) !! 0%nat
  = Some (example_step "scan" slow_tool 2)
  /\ 1 <= WorkflowStep.retry_count (example_step "scan" slow_tool 2)
  /\ (forall t p, exists e,
        WorkflowStep.tool (example_step "scan" slow_tool 2) t p = inl e
        /\ failure_message (example_step "scan" slow_tool 2) e
           = "Step timed out after 300 seconds")
  /\ sink_accepts (wf slow_world)
  /\ outcome (_execute_step 0) slow_world
     = inl (mkExn WorkflowError
              "Step scan failed after 2 attempts: Step timed out after 300 seconds").
Proof.
  assert (H1 : 1 <= WorkflowStep.retry_count (example_step "scan" slow_tool 2))
    by (cbn; lia).
  assert (H2 : forall t p, exists e,
            WorkflowStep.tool (example_step "scan" slow_tool 2) t p = inl e
            /\ failure_message (example_step "scan" slow_tool 2) e
               = "Step timed out after 300 seconds")
    by (intros t p; eexists; split; reflexivity).
  assert (H3 : sink_accepts (wf slow_world)) by (intros t a; reflexivity).
  split; [reflexivity|]. split; [exact H1|]. split; [exact H2|]. split; [exact H3|].
  apply (persistent_failure_is_reported slow_world 0 _ _ eq_refl H1 H2 H3).
Defined.

Lemma first_attempt_succeeds_witness :
  SecurityWorkflow.steps (wf idle_world) !! 0%nat
  = Some (WorkflowStep.init "scan" succeeding_tool [] [] 3 300 (Some (fun _ => None)))
  /\ sink_accepts (wf idle_world)
  /\ exists v, outcome (_execute_step 0) idle_world = inr v.
Proof.
  split; [reflexivity|].
  assert (H3 : sink_accepts (wf idle_world)) by (intros t a; reflexivity).
  split; [exact H3|].
  destruct (first_attempt_succeeds idle_world 0 _ eq_refl) as (v & _ & _ & H & _);
    [cbn; lia|intros t p; by eexists|exact H3|].
  by exists v.
Defined.

Lemma no_step_runs_without_a_context_witness :
  head (events execute no_context_world) = Some (CreateContext (Some "store down"))
  /\ SecurityWorkflow.steps (final execute no_context_world)
     = SecurityWorkflow.steps (wf no_context_world).
Proof.
  split; [reflexivity|].
  apply (no_step_runs_without_a_context no_context_world "store down").
  reflexivity.
Defined.

Lemma execute_without_steps_witness :
  SecurityWorkflow.steps (wf empty_world) = []
  /\ store_creates (wf empty_world)
  /\ sink_accepts (wf empty_world)
  /\ map event_label (events execute empty_world)
     = ["create_context"; "workflow_started"; "workflow_completed"].
Proof.
  assert (H2 : store_creates (wf empty_world)) by (intros t; reflexivity).
  assert (H3 : sink_accepts (wf empty_world)) by (intros t a; reflexivity).
  split; [reflexivity|]. split; [exact H2|]. split; [exact H3|].
  destruct (execute_without_steps empty_world eq_refl H2 H3) as (t & t' & _ & _ & H).
  exact H.
Defined.


(** ** C6: condition gating *)

















(** ** The context manager *)

Ltac ctx_unfold :=
  unfold Ctx.update_context, Ctx.create_context, Ctx.get_context,
    Ctx.clear_context, Ctx.update_state, Ctx.expiry_of,
    Ctx._audit_log, Ctx._add_security_context, Ctx._validate_security_context,
    Ctx.store_active, Ctx.log_audit_event,
    Ctx.call_create_memory, Ctx.call_get_session, Ctx.call_update_session,
    Ctx.call_delete_session, Ctx.logger_error,
    Ctx.try_except, Ctx.bind, Ctx.ret, Ctx.raise, Ctx.get, Ctx.modify,
    Ctx.now, Ctx.emit, Ctx.utcnow, Ctx.interp, Ctx.add_seconds,
    ctx_outcome, ctx_final, ctx_calls, audited.

Ltac ctx_eval :=
  ctx_unfold;
  cbn -[Ctx.dict_get Ctx.dict_set Ctx.dict_update Ctx.dict_has Ctx.dict_keys
        Ctx.new_context Ctx.representable Z.add Z.ltb];
  rewrite ?Nat.sub_diag, ?Nat.sub_succ_l, ?Nat.sub_diag by lia.

Lemma calls_one (n : nat) : (S n - n = 1)%nat.
Proof. lia. Qed.
Lemma calls_two (n : nat) : (S (S n) - n = 2)%nat.
Proof. lia. Qed.
Lemma calls_three (n : nat) : (S (S (S n)) - n = 3)%nat.
Proof. lia. Qed.

Ltac ctx_calls_norm :=
  rewrite ?Nat.sub_diag, ?calls_one, ?calls_two, ?calls_three; cbn [take rev app].




(** [create_context], when the expiry is a [datetime] (so that the memory
    service is asked) and the memory service fails: the error is logged and
    raised as [ContextError("Context creation failed: ...")], and the
    manager is exactly as it was: no context is registered. *)
Theorem create_context_without_memory (w : Ctx.World) (session_id : string)
    (context_type : ContextType.t) (level : SecurityLevel.t)
    (metadata : option Ctx.Dict) (e : Exn) :
  let call := Ctx.create_context session_id context_type level metadata in
  Ctx.representable (Ctx.clock w (S (S (Ctx.readings w)))
                     + Ctx.context_ttl (Ctx.self w)) = true ->
  Ctx.create_memory (Ctx.memory_service (Ctx.self w)) (length (Ctx.trace w))
    session_id = inl e ->
  ctx_outcome call w
  = inl (mkExn ContextError ("Context creation failed: " +:+ str e))
  /\ ctx_final call w = Ctx.self w
  /\ ctx_calls call w
     = [Ctx.CreateMemory session_id (inl e);
        Ctx.LoggerError ("Failed to create context for session "
                         +:+ session_id +:+ ": " +:+ str e)].
Proof.
  intros call Hrep Hmem. subst call.
  destruct w as [[ms ls ttl ac sc] tr clk rd py]. cbn -[Ctx.representable] in *.
  ctx_eval. rewrite Hrep. ctx_eval. rewrite Hmem. ctx_eval. ctx_calls_norm. done.
Qed.

(** [create_context], when the expiry is a [datetime], the memory is
    created and the audit logger refuses the [context_created] event:
    [ContextError] is raised, and yet the context is registered and the
    session tracked, as if the call had succeeded. *)
Theorem create_context_audit_refused (w : Ctx.World) (session_id : string)
    (context_type : ContextType.t) (level : SecurityLevel.t)
    (metadata : option Ctx.Dict) (memory : Ctx.Value) (ls : LoggingService)
    (m : string) :
  let s := Ctx.self w in
  let t := length (Ctx.trace w) in
  let r := Ctx.readings w in
  let context :=
    Ctx.new_context session_id context_type level metadata
      (Ctx.clock w r) (Ctx.clock w (S r))
      (Ctx.clock w (S (S r)) + Ctx.context_ttl s) memory in
  let call := Ctx.create_context session_id context_type level metadata in
  Ctx.representable (Ctx.clock w (S (S r)) + Ctx.context_ttl s) = true ->
  Ctx.create_memory (Ctx.memory_service s) t session_id = inr memory ->
  Ctx.logging_service s = Some ls ->
  audit_failure ls (S t) "context_created" = Some m ->
  ctx_outcome call w
  = inl (mkExn ContextError
           ("Context creation failed: Failed to log audit event: " +:+ m))
  /\ Ctx.active_contexts (ctx_final call w) !! session_id = Some context
  /\ Ctx.security_contexts (ctx_final call w)
     = tracked level session_id (Ctx.security_contexts s).
Proof.
  intros s t r context call Hrep Hmem Hls Haudit. subst call.
  destruct w as [[ms ls' ttl ac sc] tr clk rd py]. cbn -[Ctx.representable] in *.
  subst ls'. unfold audit_failure in Haudit.
  ctx_eval. rewrite Hrep. ctx_eval. rewrite Hmem. ctx_eval.
  destruct level; ctx_eval; repeat (destruct (decide _); ctx_eval);
    rewrite ?Haudit; ctx_eval; by rewrite lookup_insert_eq.
Qed.

(** [create_context], when the expiry is not a [datetime] (the clock plus
    the TTL passes [datetime.max] or falls before [datetime.min]): the
    [OverflowError] of the addition is raised as
    [ContextError("Context creation failed: ...")] before the memory service
    is asked; no memory is created, the manager is as it was, and the only
    call is the error log. *)
Theorem create_context_expiry_overflow (w : Ctx.World) (session_id : string)
    (context_type : ContextType.t) (level : SecurityLevel.t)
    (metadata : option Ctx.Dict) :
  let s := Ctx.self w in
  let r := Ctx.readings w in
  let msg := Ctx.overflow_error (Ctx.interpreter w) (Ctx.clock w (S (S r)))
               (Ctx.context_ttl s) in
  let call := Ctx.create_context session_id context_type level metadata in
  Ctx.representable (Ctx.clock w (S (S r)) + Ctx.context_ttl s) = false ->
  ctx_outcome call w
  = inl (mkExn ContextError ("Context creation failed: " +:+ msg))
  /\ ctx_final call w = s
  /\ ctx_calls call w
     = [Ctx.LoggerError ("Failed to create context for session "
                         +:+ session_id +:+ ": " +:+ msg)].
Proof.
  intros s r msg call Hrep. subst call msg.
  destruct w as [[ms ls ttl ac sc] tr clk rd py]. cbn -[Ctx.representable] in *.
  ctx_eval. rewrite Hrep. ctx_eval. ctx_calls_norm. done.
Qed.

(** [clear_context] forgets the session whatever happens next: the
    session is no longer active nor tracked, every other session is
    untouched, and [clear_context] raises [ContextError("Context clearing
    failed: ...")] exactly when the memory service fails to delete the
    session or the audit logger refuses the [context_cleared] event. *)
Theorem clear_context_forgets (w : Ctx.World) (session_id : string)
    (audit_reason : option string) :
  let s := Ctx.self w in
  let t := length (Ctx.trace w) in
  let call := Ctx.clear_context session_id audit_reason in
  Ctx.active_contexts (ctx_final call w)
  = delete session_id (Ctx.active_contexts s)
  /\ Ctx.security_contexts (ctx_final call w)
     = delete session_id (Ctx.security_contexts s)
  /\ ctx_outcome call w
     = cleared (Ctx.delete_session (Ctx.memory_service s) t session_id)
         (manager_audit_failure s (S t) "context_cleared").
Proof.
  intros s t call. subst call.
  destruct w as [[ms ls ttl ac sc] tr clk rd py]. cbn in *.
  unfold manager_audit_failure, audit_failure, cleared. ctx_eval.
  destruct (Ctx.delete_session ms (length tr) session_id) as [e|]; ctx_eval;
    [done|].
  destruct ls as [ls|]; ctx_eval; [|done].
  destruct (if enable_audit_log ls then _ else _); ctx_eval; done.
Qed.

(** [get_context] for a session that is neither active nor known to the
    memory service returns [None] and leaves the manager as it was; the
    memory service is asked once. *)
Theorem get_context_unknown (w : Ctx.World) (session_id : string)
    (validate_security : bool) :
  let s := Ctx.self w in
  let call := Ctx.get_context session_id validate_security in
  Ctx.active_contexts s !! session_id = None ->
  Ctx.get_session (Ctx.memory_service s) (length (Ctx.trace w)) session_id
  = inr None ->
  ctx_outcome call w = inr None
  /\ ctx_final call w = s
  /\ ctx_calls call w = [Ctx.GetSession session_id (inr None)].
Proof.
  intros s call Hnone Hstored. subst call.
  destruct w as [[ms ls ttl ac sc] tr clk rd py]. cbn in *.
  ctx_eval. rewrite Hnone. ctx_eval. rewrite Hstored. ctx_eval.
  ctx_calls_norm. done.
Qed.

Lemma get_context_live_spec (w : Ctx.World) (session_id : string)
    (validate_security : bool) (c : Ctx.Dict) (expiry : Z) :
  let s := Ctx.self w in
  let r := Ctx.readings w in
  let c' := Ctx.dict_set "last_updated" (Ctx.VIso (Ctx.clock w (S r))) c in
  let call := Ctx.get_context session_id validate_security in
  Ctx.active_contexts s !! session_id = Some c ->
  present c ->
  Ctx.dict_get "expiry" c = Some (Ctx.VIso expiry) ->
  Ctx.clock w r <= expiry ->
  ctx_outcome call w = inr (Some c')
  /\ ctx_final call w
     = Ctx.set_active_contexts (<[session_id := c']> (Ctx.active_contexts s)) s
  /\ ctx_calls call w = [].
Proof.
  intros s r c' call Hactive Hpresent Hexpiry Hlive. subst call.
  destruct w as [[ms ls ttl ac sc] tr clk rd py]. cbn in *.
  destruct c as [|kv rest]; [discriminate Hpresent|].
  ctx_eval. rewrite Hactive. ctx_eval. rewrite Hexpiry. ctx_eval.
  replace (expiry <? clk rd) with false by (symmetry; apply Z.ltb_ge; lia).
  ctx_eval. destruct (validate_security && _); ctx_eval; ctx_calls_norm; done.
Qed.

(** [get_context] for an active context that has not expired ([utcnow()]
    is not after its expiry): the context is returned with [last_updated]
    set to the next clock reading, that is what the manager now holds for
    the session, and nothing outside the manager is called. *)
Theorem get_context_live (w : Ctx.World) (session_id : string)
    (validate_security : bool) (c : Ctx.Dict) (expiry : Z) :
  let s := Ctx.self w in
  let r := Ctx.readings w in
  let c' := Ctx.dict_set "last_updated" (Ctx.VIso (Ctx.clock w (S r))) c in
  let call := Ctx.get_context session_id validate_security in
  Ctx.active_contexts s !! session_id = Some c ->
  present c ->
  Ctx.dict_get "expiry" c = Some (Ctx.VIso expiry) ->
  Ctx.clock w r <= expiry ->
  ctx_outcome call w = inr (Some c')
  /\ ctx_final call w
     = Ctx.set_active_contexts (<[session_id := c']> (Ctx.active_contexts s)) s
  /\ ctx_calls call w = [].
Proof.
  exact (get_context_live_spec w session_id validate_security c expiry).
Qed.

(** [get_context] for an active context that has expired ([utcnow()] is
    after its expiry) clears it: the session is no longer active nor
    tracked, and [None] is returned, unless clearing fails, which is raised
    as [ContextError("Context retrieval failed: Context clearing failed:
    ...")]. *)
Theorem get_context_expired (w : Ctx.World) (session_id : string)
    (validate_security : bool) (c : Ctx.Dict) (expiry : Z) :
  let s := Ctx.self w in
  let t := length (Ctx.trace w) in
  let call := Ctx.get_context session_id validate_security in
  Ctx.active_contexts s !! session_id = Some c ->
  present c ->
  Ctx.dict_get "expiry" c = Some (Ctx.VIso expiry) ->
  expiry < Ctx.clock w (Ctx.readings w) ->
  Ctx.active_contexts (ctx_final call w)
  = delete session_id (Ctx.active_contexts s)
  /\ Ctx.security_contexts (ctx_final call w)
     = delete session_id (Ctx.security_contexts s)
  /\ ctx_outcome call w
     = match cleared (Ctx.delete_session (Ctx.memory_service s) t session_id)
               (manager_audit_failure s (S t) "context_cleared") with
       | inr _ => inr None
       | inl e =>
           inl (mkExn ContextError ("Context retrieval failed: " +:+ str e))
       end.
Proof.
  intros s t call Hactive Hpresent Hexpiry Hdead. subst call.
  destruct w as [[ms ls ttl ac sc] tr clk rd py]. cbn in *.
  destruct c as [|kv rest]; [discriminate Hpresent|].
  unfold manager_audit_failure, audit_failure, cleared.
  ctx_eval. rewrite Hactive. ctx_eval. rewrite Hexpiry. ctx_eval.
  replace (expiry <? clk rd) with true by (symmetry; apply Z.ltb_lt; lia).
  ctx_eval.
  destruct (Ctx.delete_session ms (length tr) session_id) as [e|]; ctx_eval;
    [done|].
  destruct ls as [ls|]; ctx_eval; [|done].
  destruct (if enable_audit_log ls then _ else _); ctx_eval; done.
Qed.

(** [get_context] for a session that is not active but known to the
    memory service, whose stored data has no ["expiry"] (the session data
    [MemoryService.create_memory] writes has none): the stored data becomes
    the active context of the session, and then the missing key is raised
    as [ContextError("Context retrieval failed: 'expiry'")]. *)
Theorem get_context_stored_without_expiry (w : Ctx.World) (session_id : string)
    (validate_security : bool) (stored : Ctx.Dict) :
  let s := Ctx.self w in
  let call := Ctx.get_context session_id validate_security in
  Ctx.active_contexts s !! session_id = None ->
  Ctx.get_session (Ctx.memory_service s) (length (Ctx.trace w)) session_id
  = inr (Some stored) ->
  present stored ->
  Ctx.dict_get "expiry" stored = None ->
  ctx_outcome call w
  = inl (mkExn ContextError "Context retrieval failed: 'expiry'")
  /\ Ctx.active_contexts (ctx_final call w) !! session_id = Some stored.
Proof.
  intros s call Hnone Hstored Hpresent Hexpiry. subst call.
  destruct w as [[ms ls ttl ac sc] tr clk rd py]. cbn in *.
  destruct stored as [|kv rest]; [discriminate Hpresent|].
  ctx_eval. rewrite Hnone. ctx_eval. rewrite Hstored. ctx_eval.
  destruct (Ctx.is_high_or_critical _); ctx_eval;
    repeat (destruct (decide _); ctx_eval);
    rewrite Hexpiry; ctx_eval; by rewrite lookup_insert_eq.
Qed.

(** [update_context] for a session that is neither active nor known to
    the memory service raises [ContextError("Context update failed: Context
    not found for session <id>")]: its own "not found" error is caught by
    its own handler and wrapped.  The manager is as it was and nothing is
    written to the memory service. *)
Theorem update_context_unknown (w : Ctx.World) (session_id : string)
    (updates : Ctx.Dict) (phase : option string) :
  let s := Ctx.self w in
  let call := Ctx.update_context session_id updates phase in
  Ctx.active_contexts s !! session_id = None ->
  Ctx.get_session (Ctx.memory_service s) (length (Ctx.trace w)) session_id
  = inr None ->
  ctx_outcome call w
  = inl (mkExn ContextError
           ("Context update failed: Context not found for session "
            +:+ session_id))
  /\ ctx_final call w = s
  /\ ctx_calls call w
     = [Ctx.GetSession session_id (inr None);
        Ctx.LoggerError
          ("Failed to update context for session " +:+ session_id +:+ ": "
           +:+ "Context not found for session " +:+ session_id)].
Proof.
  intros s call Hnone Hstored. subst call.
  destruct w as [[ms ls ttl ac sc] tr clk rd py]. cbn in *.
  ctx_eval. rewrite Hnone. ctx_eval. rewrite Hstored. ctx_eval.
  ctx_calls_norm. done.
Qed.

Lemma dict_set_present k v d : exists kv rest, Ctx.dict_set k v d = kv :: rest.
Proof.
  destruct d as [|[k' v'] d]; cbn; [by eexists _, _|].
  destruct (String.eqb k k'); by eexists _, _.
Qed.

Lemma dict_get_set_ne k k' v d :
  String.eqb k k' = false ->
  Ctx.dict_get k (Ctx.dict_set k' v d) = Ctx.dict_get k d.
Proof.
  intros Hne. induction d as [|[k2 v2] d IH]; cbn.
  - by rewrite Hne.
  - destruct (String.eqb k' k2) eqn:H2; cbn.
    + apply String.eqb_eq in H2 as ->. by rewrite Hne.
    + by rewrite IH.
Qed.

Lemma dict_get_set_eq k v d : Ctx.dict_get k (Ctx.dict_set k v d) = Some v.
Proof.
  induction d as [|[k2 v2] d IH]; cbn.
  - by rewrite String.eqb_refl.
  - destruct (String.eqb k k2) eqn:H2; cbn; rewrite H2; [done|exact IH].
Qed.

(** [update_context] for an active context that has not expired and has
    a dictionary as its state, when the new expiry is a [datetime], the
    memory service stores the update and the audit logger accepts the
    event: the updates are merged into the
    state, the phase is set if one is given, [last_updated] and [expiry]
    are set from the clock (the expiry a TTL after the last reading); the
    result is returned, held by the manager for the session and written to
    the memory service; and a [context_updated] event is emitted only if
    the updates have the key ["findings"] or ["alerts"]. *)
Theorem update_context_live (w : Ctx.World) (session_id : string)
    (updates : Ctx.Dict) (phase : option string) (c state : Ctx.Dict)
    (expiry : Z) :
  let s := Ctx.self w in
  let t := length (Ctx.trace w) in
  let r := Ctx.readings w in
  let c1 := Ctx.dict_set "last_updated" (Ctx.VIso (Ctx.clock w (S r))) c in
  let c3 := updated_context c1 state updates phase
              (Ctx.clock w (S (S r)))
              (Ctx.clock w (S (S (S r))) + Ctx.context_ttl s) in
  let call := Ctx.update_context session_id updates phase in
  Ctx.active_contexts s !! session_id = Some c ->
  present c ->
  Ctx.dict_get "expiry" c = Some (Ctx.VIso expiry) ->
  Ctx.clock w r <= expiry ->
  Ctx.dict_get "state" c = Some (Ctx.VDict state) ->
  Ctx.representable (Ctx.clock w (S (S (S r))) + Ctx.context_ttl s) = true ->
  Ctx.update_session (Ctx.memory_service s) t session_id c3 = None ->
  audit_accepted s (S t) "context_updated" ->
  ctx_outcome call w = inr c3
  /\ ctx_final call w
     = Ctx.set_active_contexts (<[session_id := c3]> (Ctx.active_contexts s)) s
  /\ ctx_calls call w
     = Ctx.UpdateSession session_id c3 None
       :: (if Ctx.dict_has "findings" updates || Ctx.dict_has "alerts" updates
           then audited s
                  (Ctx.AuditEvent session_id "context_updated"
                     [("updates",
                       Ctx.VList (map Ctx.VStr (Ctx.dict_keys updates)))]
                     None)
           else []).
Proof.
  intros s t r c1 c3 call Hactive Hpresent Hexpiry Hlive Hstate Hrep Hstored
    Haudit.
  subst call.
  destruct w as [[ms ls ttl ac sc] tr clk rd py]. cbn -[Ctx.representable] in *.
  destruct c as [|kv rest]; [discriminate Hpresent|].
  unfold audit_accepted, audit_failure in Haudit. cbn in Haudit.
  assert (Hstate1 : Ctx.dict_get "state" c1 = Some (Ctx.VDict state))
    by (subst c1; by rewrite dict_get_set_ne).
  destruct (dict_set_present "last_updated" (Ctx.VIso (clk (S rd))) (kv :: rest))
    as (kv1 & rest1 & Hc1).
  subst c3 c1. unfold updated_context in *. rewrite Hc1 in *.
  ctx_eval. rewrite Hactive. ctx_eval. rewrite Hexpiry. ctx_eval.
  replace (expiry <? clk rd) with false by (symmetry; apply Z.ltb_ge; lia).
  ctx_eval. destruct (bool_decide _); ctx_eval.
  all: rewrite Hc1; ctx_eval; rewrite Hstate1; ctx_eval.
  all: rewrite Hrep; ctx_eval.
  all: rewrite Hstored; ctx_eval.
  all: destruct (Ctx.dict_has "findings" updates || Ctx.dict_has "alerts" updates);
    ctx_eval.
  all: try (destruct ls as [ls|]; [specialize (Haudit ls eq_refl)|]; ctx_eval;
            rewrite ?Haudit; ctx_eval).
  all: ctx_calls_norm; unfold Ctx.set_active_contexts; cbn [Ctx.memory_service
         Ctx.logging_service Ctx.context_ttl Ctx.active_contexts
         Ctx.security_contexts]; rewrite !insert_insert_eq.
  all: done.
Qed.

(** A context that has just been created is retrieved as it is: after a
    successful [create_context] (the expiry is a [datetime], the memory is
    created, the event accepted), if the clock has not passed the expiry at
    the next reading, [get_context] for the session returns the created
    context with only [last_updated] set anew. *)
Theorem create_then_get (w : Ctx.World) (session_id : string)
    (context_type : ContextType.t) (level : SecurityLevel.t)
    (metadata : option Ctx.Dict) (memory : Ctx.Value) (validate_security : bool) :
  let s := Ctx.self w in
  let t := length (Ctx.trace w) in
  let r := Ctx.readings w in
  let context :=
    Ctx.new_context session_id context_type level metadata
      (Ctx.clock w r) (Ctx.clock w (S r))
      (Ctx.clock w (S (S r)) + Ctx.context_ttl s) memory in
  let w1 := (Ctx.create_context session_id context_type level metadata w).2 in
  Ctx.representable (Ctx.clock w (S (S r)) + Ctx.context_ttl s) = true ->
  Ctx.create_memory (Ctx.memory_service s) t session_id = inr memory ->
  audit_accepted s (S t) "context_created" ->
  Ctx.clock w (S (S (S r))) <= Ctx.clock w (S (S r)) + Ctx.context_ttl s ->
  ctx_outcome (Ctx.get_context session_id validate_security) w1
  = inr (Some (Ctx.dict_set "last_updated"
                 (Ctx.VIso (Ctx.clock w (S (S (S (S r)))))) context)).
Proof.
  intros s t r context w1 Hrep Hmem Haudit Hlive.
  assert (Hw1 : Ctx.active_contexts (Ctx.self w1) !! session_id = Some context
                /\ Ctx.clock w1 = Ctx.clock w
                /\ Ctx.readings w1 = S (S (S r))).
  { subst w1. destruct w as [[ms ls ttl ac sc] tr clk rd py].
    cbn -[Ctx.representable] in *.
    unfold audit_accepted, audit_failure in Haudit. cbn in Haudit.
    ctx_eval. rewrite Hrep. ctx_eval. rewrite Hmem. ctx_eval.
    destruct ls as [ls|]; [specialize (Haudit ls eq_refl)|].
    all: destruct level; ctx_eval; repeat (destruct (decide _); ctx_eval);
      rewrite ?Haudit; ctx_eval; by rewrite lookup_insert_eq. }
  destruct Hw1 as (Hactive & Hclock & Hreadings).
  destruct (get_context_live_spec w1 session_id validate_security context
              (Ctx.clock w (S (S r)) + Ctx.context_ttl s) Hactive)
    as (Hout & _); [done|done| |].
  - by rewrite Hclock, Hreadings.
  - by rewrite Hout, Hclock, Hreadings.
Qed.

(** [update_context] when the new expiry is a [datetime] (so that the
    memory service is asked) and the memory service fails to store the
    update: [ContextError("Context update failed: ...")] is raised, and yet the
    manager holds the updated context for the session: the update is made
    in place before it is written. *)
Theorem update_context_not_stored (w : Ctx.World) (session_id : string)
    (updates : Ctx.Dict) (phase : option string) (c state : Ctx.Dict)
    (expiry : Z) (e : Exn) :
  let s := Ctx.self w in
  let t := length (Ctx.trace w) in
  let r := Ctx.readings w in
  let c1 := Ctx.dict_set "last_updated" (Ctx.VIso (Ctx.clock w (S r))) c in
  let c3 := updated_context c1 state updates phase
              (Ctx.clock w (S (S r)))
              (Ctx.clock w (S (S (S r))) + Ctx.context_ttl s) in
  let call := Ctx.update_context session_id updates phase in
  Ctx.active_contexts s !! session_id = Some c ->
  present c ->
  Ctx.dict_get "expiry" c = Some (Ctx.VIso expiry) ->
  Ctx.clock w r <= expiry ->
  Ctx.dict_get "state" c = Some (Ctx.VDict state) ->
  Ctx.representable (Ctx.clock w (S (S (S r))) + Ctx.context_ttl s) = true ->
  Ctx.update_session (Ctx.memory_service s) t session_id c3 = Some e ->
  ctx_outcome call w
  = inl (mkExn ContextError ("Context update failed: " +:+ str e))
  /\ Ctx.active_contexts (ctx_final call w) !! session_id = Some c3.
Proof.
  intros s t r c1 c3 call Hactive Hpresent Hexpiry Hlive Hstate Hrep Hstored.
  subst call.
  destruct w as [[ms ls ttl ac sc] tr clk rd py]. cbn -[Ctx.representable] in *.
  destruct c as [|kv rest]; [discriminate Hpresent|].
  assert (Hstate1 : Ctx.dict_get "state" c1 = Some (Ctx.VDict state))
    by (subst c1; by rewrite dict_get_set_ne).
  destruct (dict_set_present "last_updated" (Ctx.VIso (clk (S rd))) (kv :: rest))
    as (kv1 & rest1 & Hc1).
  subst c3 c1. unfold updated_context in *. rewrite Hc1 in *.
  ctx_eval. rewrite Hactive. ctx_eval. rewrite Hexpiry. ctx_eval.
  replace (expiry <? clk rd) with false by (symmetry; apply Z.ltb_ge; lia).
  ctx_eval. destruct (bool_decide _); ctx_eval.
  all: rewrite Hc1; ctx_eval; rewrite Hstate1; ctx_eval.
  all: rewrite Hrep; ctx_eval.
  all: rewrite Hstored; ctx_eval.
  all: by rewrite lookup_insert_eq.
Qed.

(** [update_context] for an active context that has no ["state"]: the
    missing key is raised as [ContextError("Context update failed:
    'state'")], nothing is written to the memory service, and the context
    the manager holds has only its [last_updated] set anew. *)
Theorem update_context_without_state (w : Ctx.World) (session_id : string)
    (updates : Ctx.Dict) (phase : option string) (c : Ctx.Dict) (expiry : Z) :
  let s := Ctx.self w in
  let r := Ctx.readings w in
  let c1 := Ctx.dict_set "last_updated" (Ctx.VIso (Ctx.clock w (S r))) c in
  let call := Ctx.update_context session_id updates phase in
  Ctx.active_contexts s !! session_id = Some c ->
  present c ->
  Ctx.dict_get "expiry" c = Some (Ctx.VIso expiry) ->
  Ctx.clock w r <= expiry ->
  Ctx.dict_get "state" c = None ->
  ctx_outcome call w = inl (mkExn ContextError "Context update failed: 'state'")
  /\ Ctx.active_contexts (ctx_final call w) !! session_id = Some c1
  /\ ctx_calls call w
     = [Ctx.LoggerError ("Failed to update context for session "
                         +:+ session_id +:+ ": 'state'")].
Proof.
  intros s r c1 call Hactive Hpresent Hexpiry Hlive Hstate. subst call.
  destruct w as [[ms ls ttl ac sc] tr clk rd py]. cbn in *.
  destruct c as [|kv rest]; [discriminate Hpresent|].
  assert (Hstate1 : Ctx.dict_get "state" c1 = None)
    by (subst c1; by rewrite dict_get_set_ne).
  destruct (dict_set_present "last_updated" (Ctx.VIso (clk (S rd))) (kv :: rest))
    as (kv1 & rest1 & Hc1).
  subst c1. rewrite Hc1 in *.
  ctx_eval. rewrite Hactive. ctx_eval. rewrite Hexpiry. ctx_eval.
  replace (expiry <? clk rd) with false by (symmetry; apply Z.ltb_ge; lia).
  ctx_eval. destruct (bool_decide _); ctx_eval.
  all: rewrite Hc1; ctx_eval; rewrite Hstate1; ctx_eval.
  all: ctx_calls_norm; by rewrite lookup_insert_eq.
Qed.


Lemma create_context_without_memory_witness :
  ctx_final
    (Ctx.create_context "s1" ContextType.SECURITY_SCAN SecurityLevel.HIGH None)
    lost_world
  = Ctx.self lost_world.
Proof.
  destruct (create_context_without_memory lost_world "s1"
              ContextType.SECURITY_SCAN SecurityLevel.HIGH None
              (mkExn OtherError "Memory creation failed: connection refused"))
    as (_ & H & _); [reflexivity|reflexivity|exact H].
Defined.

Lemma create_context_audit_refused_witness :
  ctx_outcome
    (Ctx.create_context "s1" ContextType.SECURITY_SCAN SecurityLevel.HIGH None)
    unheard_world
  = inl (mkExn ContextError
           "Context creation failed: Failed to log audit event: disk full")
  /\ Ctx.active_contexts
       (ctx_final
          (Ctx.create_context "s1" ContextType.SECURITY_SCAN SecurityLevel.HIGH
             None)
          unheard_world) !! "s1"
     = Some scan_context.
Proof.
  destruct (create_context_audit_refused unheard_world "s1"
              ContextType.SECURITY_SCAN SecurityLevel.HIGH None
              (Ctx.VMemory "s1") deaf_sink "disk full")
    as (H1 & H2 & _); [reflexivity|reflexivity|reflexivity|reflexivity|].
  split; [exact H1|exact H2].
Defined.

Lemma get_context_unknown_witness :
  ctx_outcome (Ctx.get_context "s1" true) new_world = inr None.
Proof.
  destruct (get_context_unknown new_world "s1" true) as [H _];
    [reflexivity|reflexivity|exact H].
Defined.

Lemma get_context_live_witness :
  ctx_outcome (Ctx.get_context "s1" true) (active_world blank_memory scan_context 10)
  = inr (Some (Ctx.dict_set "last_updated" (Ctx.VIso 11) scan_context)).
Proof.
  destruct (get_context_live (active_world blank_memory scan_context 10) "s1" true
              scan_context 3602) as [H _];
    [reflexivity|reflexivity|reflexivity|cbn; lia|exact H].
Defined.

Lemma get_context_expired_witness :
  ctx_outcome (Ctx.get_context "s1" true)
    (active_world blank_memory scan_context 4000)
  = inr None
  /\ Ctx.active_contexts
       (ctx_final (Ctx.get_context "s1" true)
          (active_world blank_memory scan_context 4000)) !! "s1"
     = None.
Proof.
  destruct (get_context_expired (active_world blank_memory scan_context 4000)
              "s1" true scan_context 3602) as (H1 & _ & H2);
    [reflexivity|reflexivity|reflexivity|cbn; lia|].
  split; [exact H2|]. rewrite H1. reflexivity.
Defined.

Lemma get_context_stored_without_expiry_witness :
  ctx_outcome (Ctx.get_context "s1" true) stale_world
  = inl (mkExn ContextError "Context retrieval failed: 'expiry'").
Proof.
  destruct (get_context_stored_without_expiry stale_world "s1" true session_data)
    as [H _]; [reflexivity|reflexivity|reflexivity|reflexivity|exact H].
Defined.

Lemma update_context_unknown_witness :
  ctx_outcome
    (Ctx.update_context "s1" [("step_0_result", Ctx.VStr "open ports: 22")] None)
    new_world
  = inl (mkExn ContextError
           "Context update failed: Context not found for session s1").
Proof.
  destruct (update_context_unknown new_world "s1"
              [("step_0_result", Ctx.VStr "open ports: 22")] None) as [H _];
    [reflexivity|reflexivity|exact H].
Defined.

Lemma update_context_live_witness :
  exists c,
    ctx_outcome
      (Ctx.update_context "s1" [("step_0_result", Ctx.VStr "open ports: 22")]
         (Some "scanning"))
      (active_world blank_memory scan_context 10)
    = inr c
    /\ Ctx.dict_get "state" c
       = Some (Ctx.VDict
                 [("status", Ctx.VStr "initialized"); ("phase", Ctx.VStr "scanning");
                  ("artifacts", Ctx.VList []); ("findings", Ctx.VList []);
                  ("alerts", Ctx.VList []);
                  ("step_0_result", Ctx.VStr "open ports: 22")])
    /\ Ctx.dict_get "expiry" c = Some (Ctx.VIso 3613).
Proof.
  destruct (update_context_live (active_world blank_memory scan_context 10)
              "s1" [("step_0_result", Ctx.VStr "open ports: 22")]
              (Some "scanning") scan_context
              [("status", Ctx.VStr "initialized"); ("phase", Ctx.VStr "setup");
               ("artifacts", Ctx.VList []); ("findings", Ctx.VList []);
               ("alerts", Ctx.VList [])]
              3602) as [H _];
    [reflexivity|reflexivity|reflexivity|cbn; lia|reflexivity|reflexivity
    |reflexivity|intros ls [= <-]; reflexivity|].
  eexists. split; [exact H|]. split; reflexivity.
Defined.

Lemma create_then_get_witness :
  ctx_outcome (Ctx.get_context "s1" true)
    (Ctx.create_context "s1" ContextType.SECURITY_SCAN SecurityLevel.HIGH None
       new_world).2
  = inr (Some (Ctx.dict_set "last_updated" (Ctx.VIso 4) scan_context)).
Proof.
  apply (create_then_get new_world "s1" ContextType.SECURITY_SCAN
           SecurityLevel.HIGH None (Ctx.VMemory "s1") true);
    [reflexivity|reflexivity|intros ls [= <-]; reflexivity|cbn; lia].
Defined.

Lemma update_context_not_stored_witness :
  ctx_outcome
    (Ctx.update_context "s1" [("step_0_result", Ctx.VStr "open ports: 22")] None)
    (active_world lost_memory scan_context 10)
  = inl (mkExn ContextError
           "Context update failed: Session update failed: connection refused")
  /\ exists c,
       Ctx.active_contexts
         (ctx_final
            (Ctx.update_context "s1"
               [("step_0_result", Ctx.VStr "open ports: 22")] None)
            (active_world lost_memory scan_context 10)) !! "s1"
       = Some c
       /\ Ctx.dict_get "expiry" c = Some (Ctx.VIso 3613).
Proof.
  destruct (update_context_not_stored (active_world lost_memory scan_context 10)
              "s1" [("step_0_result", Ctx.VStr "open ports: 22")] None
              scan_context
              [("status", Ctx.VStr "initialized"); ("phase", Ctx.VStr "setup");
               ("artifacts", Ctx.VList []); ("findings", Ctx.VList []);
               ("alerts", Ctx.VList [])]
              3602
              (mkExn OtherError "Session update failed: connection refused"))
    as [H1 H2]; [reflexivity|reflexivity|reflexivity|cbn; lia|reflexivity
                |reflexivity|reflexivity|].
  split; [exact H1|]. eexists. split; [exact H2|reflexivity].
Defined.

Lemma update_context_without_state_witness :
  ctx_outcome
    (Ctx.update_context "s1" [("step_0_result", Ctx.VStr "open ports: 22")] None)
    (active_world blank_memory bare_context 10)
  = inl (mkExn ContextError "Context update failed: 'state'").
Proof.
  destruct (update_context_without_state
              (active_world blank_memory bare_context 10) "s1"
              [("step_0_result", Ctx.VStr "open ports: 22")] None bare_context
              3602) as [H _];
    [reflexivity|reflexivity|reflexivity|cbn; lia|reflexivity|exact H].
Defined.

Lemma create_context_expiry_overflow_witness :
  ctx_outcome
    (Ctx.create_context "s1" ContextType.SECURITY_SCAN SecurityLevel.HIGH None)
    eternal_world
  = inl (mkExn ContextError "Context creation failed: date value out of range")
  /\ ctx_final
       (Ctx.create_context "s1" ContextType.SECURITY_SCAN SecurityLevel.HIGH None)
       eternal_world
     = Ctx.self eternal_world.
Proof.
  destruct (create_context_expiry_overflow eternal_world "s1"
              ContextType.SECURITY_SCAN SecurityLevel.HIGH None)
    as (H1 & H2 & _); [reflexivity|].
  split; [exact H1|exact H2].
Defined.
